(** * LTTL: segments, segmentations, tables and the tabulation kernel

    A shallow embedding of the parts of LTTL (Segment.py, Segmentation.py,
    Segmenter.py, Table.py, Processor.py, Utils.py) that the properties
    below are about, followed by the properties themselves.

    Conventions of the embedding:
    - Python [int] is [Z]; [None]-able attributes are [option];
      a raised exception is the [None] of an [option] result, or the
      [Raises] of a [result] where the kind of exception matters.
    - Python dictionaries are stdpp [gmap]s.
    - A segmentation is modelled by its logical sequence of segments: all
      segments live in the [buffer] (fewer than CHUNK_SIZE = 1000000
      segments), so that [__getitem__] is [buffer[key].deepcopy()].
    - A Python [float] is an IEEE 754 binary64 number, a [spec_float] of
      the Standard Library: the true division of integers
      ([from __future__ import division]) and every operation on floats
      round as the machine does. Where Python 2 and Python 3 differ (in
      [round]), the version is a parameter. *)

From Stdlib Require Import ZArith Lia.
From Stdlib Require SpecFloat.
From stdpp Require Import gmap strings list fin_maps sorting pretty.

Local Open Scope Z_scope.

(* ===================================================================== *)
(** * Part I: the model                                                   *)
(* ===================================================================== *)

(** ** Python helpers *)

(** [x or d] for an optional integer: [None] and [0] are falsy. *)
Definition py_or (x : option Z) (d : Z) : Z :=
  match x with
  | Some v => if decide (v = 0) then d else v
  | None => d
  end.

(** [x or None] for an optional integer. *)
Definition py_or_None (x : option Z) : option Z :=
  match x with
  | Some v => if decide (v = 0) then None else Some v
  | None => None
  end.

(** [l[i]] for a Python list and an integer index: negative indices count
    from the end, anything out of range raises IndexError. *)
Definition py_index {A : Type} (l : list A) (i : Z) : option A :=
  if decide (0 ≤ i) then l !! Z.to_nat i
  else if decide (- Z.of_nat (length l) ≤ i)
       then l !! Z.to_nat (Z.of_nat (length l) + i)
       else None.

(** [l[i:]] for a Python list: the start is clamped to [0, len(l)]. *)
Definition py_slice_from {A : Type} (l : list A) (i : Z) : list A :=
  if decide (0 ≤ i) then drop (Z.to_nat i) l
  else drop (Z.to_nat (Z.max 0 (Z.of_nat (length l) + i))) l.

(** ** Segmentation.data: the backing string store *)

Inductive datum : Type :=
  | DStr (s : string)
  | DRef (i : Z).

Global Instance datum_eq_dec : EqDecision datum.
Proof. solve_decision. Defined.

(** Segmentation.get_data *)
Definition get_data (data : list datum) (index : Z) : option datum :=
  let index := if decide (index < 0) then index + Z.of_nat (length data) else index in
  value ← py_index data index;
  match value with
  | DRef j => py_index data j
  | DStr _ => Some value
  end.

(** [len(Segmentation.get_data(index))]; [len] of an integer raises. *)
Definition get_data_len (data : list datum) (index : Z) : option Z :=
  value ← get_data data index;
  match value with
  | DStr s => Some (Z.of_nat (String.length s))
  | DRef _ => None
  end.

(** ** Segment *)

(** Annotations map string keys to string values (auto-numbering, which
    stores integers, is not used by what follows). *)
Record Segment : Type := mkSegment {
  str_index : Z;
  start : option Z;
  end_ : option Z;
  annotations : gmap string string;
}.

Global Instance Segment_eq_dec : EqDecision Segment.
Proof. solve_decision. Defined.

(** Segment.__eq__ *)
Definition Segment_eq (self other : Segment) : bool :=
  bool_decide (str_index self = str_index other)
  && bool_decide (start self = Some (py_or (start other) 0))
  && bool_decide (end_ self = py_or_None (end_ other)).

(** The materialized bounds of a segment, as every method computes them:
    [self.start or 0] and [self.end or string_length]. *)
Definition mstart (s : Segment) : Z := py_or (start s) 0.
Definition mend (string_length : Z) (s : Segment) : Z := py_or (end_ s) string_length.

(** Segment.deepcopy(annotations=None, update=...) *)
Definition deepcopy (self : Segment) (update : bool) : Segment :=
  if update then self
  else mkSegment (str_index self) (start self) (end_ self) ∅.

(** Segment.contains *)
Definition contains (data : list datum) (self other : Segment) : option bool :=
  if decide (str_index self ≠ str_index other) then Some false
  else if decide (mstart self > mstart other) then Some false
  else
    string_length ← get_data_len data (str_index self);
    if decide (mend string_length self < mend string_length other) then Some false
    else Some true.

(** ** Segmentation *)

Record Segmentation : Type := mkSegmentation {
  label : string;
  buffer : list Segment;
  str_index_ptr : gmap Z Z;
}.

(** Segmentation.__len__ *)
Definition seg_len (self : Segmentation) : Z := Z.of_nat (length (buffer self)).

(** Segmentation.__getitem__ with an integer key: a negative key is
    counted from the end, once; a key that is still negative then is not
    looked up in the buffer (the code turns to a stored chunk, there is
    none, and it fails). *)
Definition seg_getitem (self : Segmentation) (key : Z) : option Segment :=
  let key := if decide (key < 0) then seg_len self + key else key in
  if decide (0 ≤ key) then buffer self !! Z.to_nat key else None.

(** Segmentation._get_str_index_ptr: the loop, with [i + offset] threaded. *)
Fixpoint get_str_index_ptr_loop (segments : list Segment)
    (last_seen : option Segment) (pos : Z) (temp_ptr : gmap Z Z) : gmap Z Z :=
  match segments with
  | [] => temp_ptr
  | s :: rest =>
      let temp_ptr' :=
        match last_seen with
        | None => <[str_index s := pos]> temp_ptr
        | Some l =>
            if decide (str_index s ≠ str_index l)
            then <[str_index s := pos]> temp_ptr
            else temp_ptr
        end in
      get_str_index_ptr_loop rest (Some s) (pos + 1) temp_ptr'
  end.

Definition _get_str_index_ptr (segments : list Segment)
    (before_first_segment : option Segment) (offset : Z) : gmap Z Z :=
  get_str_index_ptr_loop segments before_first_segment offset ∅.

(** Segmentation(None, label) and Segmentation(list, label) *)
Definition Segmentation_empty (lbl : string) : Segmentation :=
  mkSegmentation lbl [] ∅.

Definition Segmentation_of_list (segments : list Segment) (lbl : string) : Segmentation :=
  mkSegmentation lbl segments (_get_str_index_ptr segments None 0).

(** Segmentation.append *)
Definition append (self : Segmentation) (segment : Segment) : Segmentation :=
  let ptr :=
    if decide (seg_len self = 0) then <[str_index segment := seg_len self]> (str_index_ptr self)
    else match seg_getitem self (-1) with
         | Some l =>
             if decide (str_index l ≠ str_index segment)
             then <[str_index segment := seg_len self]> (str_index_ptr self)
             else str_index_ptr self
         | None => str_index_ptr self
         end in
  mkSegmentation (label self) (buffer self ++ [segment]) ptr.

(** Segmentation.extend; [new_ptrs.update(self.str_index_ptr)] lets the
    entries already present win. *)
Definition extend (self : Segmentation) (segments : list Segment) : Segmentation :=
  let new_ptrs :=
    if decide (seg_len self > 0)
    then str_index_ptr self ∪ _get_str_index_ptr segments (seg_getitem self (-1)) (seg_len self)
    else _get_str_index_ptr segments None 0 in
  mkSegmentation (label self) (buffer self ++ segments) new_ptrs.

(** A construction history: a sequence of append and extend calls. *)
Inductive build_op : Type :=
  | Append (s : Segment)
  | Extend (l : list Segment).

Definition apply_op (S : Segmentation) (o : build_op) : Segmentation :=
  match o with
  | Append s => append S s
  | Extend l => extend S l
  end.

Definition build (lbl : string) (ops : list build_op) : Segmentation :=
  foldl apply_op (Segmentation_empty lbl) ops.

(** Position of the first segment bearing a given str_index. *)
Fixpoint first_position_from (l : list Segment) (k : Z) (pos : Z) : option Z :=
  match l with
  | [] => None
  | s :: rest =>
      if decide (str_index s = k) then Some pos
      else first_position_from rest k (pos + 1)
  end.

Definition first_position (l : list Segment) (k : Z) : option Z :=
  first_position_from l k 0.

(** Segmentation._sort.

    [sorted_keys] is [sorted(self.str_index_ptr.keys())]. *)
Definition sorted_keys (ptr : gmap Z Z) : list Z :=
  merge_sort Z.le (map fst (map_to_list ptr)).

(** The first loop of _sort: is the pointer sequence non-decreasing? *)
Fixpoint already_sorted_loop (ptr : gmap Z Z) (keys : list Z) (last : Z)
    (already_sorted : bool) : option bool :=
  match keys with
  | [] => Some already_sorted
  | k :: rest =>
      p ← ptr !! k;
      already_sorted_loop ptr rest p
        (if decide (p < last) then false else already_sorted)
  end.

(** The inner [while segment.str_index == k] loop of _sort; the fuel bounds
    the number of iterations, which is at most [len(self)]. *)
Fixpoint sort_run (fuel : nat) (self : Segmentation) (k : Z) (i : Z)
    (segment : Segment) (acc : Segmentation) : option Segmentation :=
  match fuel with
  | O => None
  | S fuel' =>
      if decide (str_index segment = k) then
        let acc' := append acc segment in
        let i' := i + 1 in
        if decide (i' >= seg_len self) then Some acc'
        else
          segment' ← seg_getitem self i';
          sort_run fuel' self k i' segment' acc'
      else Some acc
  end.

(** The second loop of _sort. *)
Fixpoint sort_keys_loop (self : Segmentation) (keys : list Z)
    (acc : Segmentation) : option Segmentation :=
  match keys with
  | [] => Some acc
  | k :: rest =>
      i ← str_index_ptr self !! k;
      segment ← seg_getitem self i;
      acc' ← sort_run (S (length (buffer self))) self k i segment acc;
      sort_keys_loop self rest acc'
  end.

(** The result of _sort: either the receiver itself or a new segmentation. *)
Inductive sort_result : Type :=
  | ReturnsSelf
  | ReturnsNew (s : Segmentation).

Definition _sort (self : Segmentation) : option sort_result :=
  let keys := sorted_keys (str_index_ptr self) in
  match already_sorted_loop (str_index_ptr self) keys 0 true with
  | None => None
  | Some true => Some ReturnsSelf
  | Some false =>
      sorted_segmentation ← sort_keys_loop self keys (Segmentation_empty (label self));
      Some (ReturnsNew sorted_segmentation)
  end.

(** The segmentation denoted by a result of [self._sort()]. *)
Definition sort_value (self : Segmentation) (r : sort_result) : Segmentation :=
  match r with
  | ReturnsSelf => self
  | ReturnsNew s => s
  end.

(** ** Segment.get_contained_segments *)

(** [min([x for x in ptr.values() if x > start_search] + [len(segmentation)])] *)
Definition get_end_search (ptr : gmap Z Z) (start_search len : Z) : Z :=
  foldr Z.min len (filter (λ x, x > start_search) (map snd (map_to_list ptr))).

(** The binary search loop [while end_search - start_search > 1]. Each
    iteration at least halves the gap, so [end_search - start_search]
    iterations of fuel are never exhausted (lemma [bsearch_loop_fuel]). *)
Fixpoint bsearch_loop (fuel : nat) (segmentation : Segmentation) (start_ : Z)
    (start_search end_search : Z) : option (Z * Z) :=
  if decide (end_search - start_search > 1) then
    match fuel with
    | O => None
    | S fuel' =>
        middle ← seg_getitem segmentation ((end_search + start_search) `div` 2);
        if decide (mstart middle >= start_)
        then bsearch_loop fuel' segmentation start_
               start_search ((end_search + start_search) `div` 2)
        else bsearch_loop fuel' segmentation start_
               ((end_search + start_search) `div` 2) end_search
    end
  else Some (start_search, end_search).

(** The final [for segment in segmentation[start_search + 1:]] loop. *)
Fixpoint scan_loop (segments : list Segment) (str_idx end_pos string_length : Z)
    : list Segment :=
  match segments with
  | [] => []
  | segment :: rest =>
      if decide (str_idx ≠ str_index segment ∨ mstart segment > end_pos) then []
      else if decide (end_pos >= mend string_length segment)
           then segment :: scan_loop rest str_idx end_pos string_length
           else scan_loop rest str_idx end_pos string_length
  end.

(** The body of the [try] block; [None] is any exception raised in it. *)
Definition get_contained_segments_try (self : Segment) (segmentation : Segmentation)
    (start_ end_pos string_length : Z) : option (list Segment) :=
  start_search ← str_index_ptr segmentation !! str_index self;
  let end_search := get_end_search (str_index_ptr segmentation) start_search
                      (seg_len segmentation) in
  '(start_search, end_search) ←
     bsearch_loop (Z.to_nat (end_search - start_search)) segmentation start_
       start_search end_search;
  first ← seg_getitem segmentation start_search;
  let start_search := if decide (mstart first >= start_)
                      then start_search - 1 else start_search in
  Some (scan_loop (py_slice_from (buffer segmentation) (start_search + 1))
          (str_index self) end_pos string_length).

(** Segment.get_contained_segments. The two lines before [try] may raise
    ([None]); every exception inside [try] yields the empty list. *)
Definition get_contained_segments (data : list datum) (self : Segment)
    (segmentation : Segmentation) : option (list Segment) :=
  string_length ← get_data_len data (str_index self);
  let start_ := mstart self in
  let end_pos := mend string_length self in
  match get_contained_segments_try self segmentation start_ end_pos string_length with
  | Some ret => Some ret
  | None => Some []
  end.

(** ** Predicates on segmentations used by the properties *)

(** [str_index_ptr] maps every str_index to the position of the first
    segment bearing it (and has no other entry). *)
Definition ptr_consistent (B : Segmentation) : Prop :=
  ∀ k, str_index_ptr B !! k = first_position (buffer B) k.

(** The segments bearing one str_index form a single run. *)
Definition contiguous (l : list Segment) : Prop :=
  ∀ (i j m : nat) x y z, (i ≤ j ≤ m)%nat →
    l !! i = Some x → l !! j = Some y → l !! m = Some z →
    str_index x = str_index z → str_index y = str_index x.

(** Among the segments of one str_index, materialized starts ascend. *)
Definition starts_ascending (l : list Segment) : Prop :=
  ∀ (i j : nat) x y, (i ≤ j)%nat →
    l !! i = Some x → l !! j = Some y →
    str_index x = str_index y → mstart x ≤ mstart y.

(** The materialized range of every segment of str_index [k] is not
    inverted, [string_length] being the length of string [k]. *)
Definition ranges_ordered (l : list Segment) (k string_length : Z) : Prop :=
  ∀ x, x ∈ l → str_index x = k → mstart x ≤ mend string_length x.

(** What the specification asks of [a.get_contained_segments(B)]: the
    segments of B, in B's order, whose resolved string is that of [a] and
    whose materialized range lies within the one of [a]. *)
Definition range_within (data : list datum) (a b : Segment) : Prop :=
  get_data data (str_index b) = get_data data (str_index a)
  ∧ ∃ la lb, get_data_len data (str_index a) = Some la
           ∧ get_data_len data (str_index b) = Some lb
           ∧ mstart a ≤ mstart b ∧ mend lb b ≤ mend la a.

Global Instance range_within_dec data a b : Decision (range_within data a b).
Proof.
  unfold range_within.
  destruct (get_data_len data (str_index a)) as [la|] eqn:Ha;
    [|right; intros [_ (la & lb & ? & _)]; discriminate].
  destruct (get_data_len data (str_index b)) as [lb|] eqn:Hb;
    [|right; intros [_ (la' & lb & _ & ? & _)]; discriminate].
  destruct (decide (get_data data (str_index b) = get_data data (str_index a)
                    ∧ mstart a ≤ mstart b ∧ mend lb b ≤ mend la a)) as [H|H].
  - left. destruct H as (? & ? & ?). split; [assumption|].
    exists la, lb. repeat split; assumption.
  - right. intros [? (la' & lb' & E1 & E2 & ? & ?)].
    injection E1 as <-. injection E2 as <-. apply H. repeat split; assumption.
Defined.

Definition contained_spec (data : list datum) (a : Segment) (B : Segmentation)
    : list Segment :=
  filter (range_within data a) (buffer B).

(** Sortedness by (str_index, start, end), on materialized bounds. *)
Definition address_le (data : list datum) (x y : Segment) : Prop :=
  str_index x < str_index y
  ∨ (str_index x = str_index y
     ∧ (mstart x < mstart y
        ∨ (mstart x = mstart y
           ∧ ∀ n, get_data_len data (str_index x) = Some n → mend n x ≤ mend n y))).

Definition sorted_by_address (data : list datum) (l : list Segment) : Prop :=
  ∀ (i j : nat) x y, (i ≤ j)%nat → l !! i = Some x → l !! j = Some y →
    address_le data x y.

(** ** Example inputs *)

Definition seg_a : Segment := mkSegment 0 (Some 0) (Some 1) ∅.
Definition seg_b : Segment := mkSegment 1 (Some 0) (Some 1) ∅.
Definition seg_c : Segment := mkSegment 0 (Some 1) (Some 2) ∅.

(** The store and segmentations of tests/test_segment.py: the string
    'ab cde', its first word and its characters. *)
Definition test_data : list datum := [DStr "ab cde"; DStr "d"].
Definition first_word : Segment := mkSegment 0 (Some 0) (Some 2) ∅.
Definition char_seg : Segmentation :=
  Segmentation_of_list
    [mkSegment 0 (Some 0) (Some 1) ∅; mkSegment 0 (Some 1) (Some 2) ∅;
     mkSegment 0 (Some 2) (Some 3) ∅; mkSegment 0 (Some 3) (Some 4) ∅;
     mkSegment 0 (Some 4) (Some 5) ∅; mkSegment 0 (Some 5) (Some 6) ∅]
    "chars".

(** The same characters, listed out of order. *)
Definition shuffled_seg : Segmentation :=
  Segmentation_of_list
    [mkSegment 0 (Some 5) (Some 6) ∅; mkSegment 0 (Some 1) (Some 2) ∅;
     mkSegment 0 (Some 3) (Some 4) ∅]
    "shuffled".

(** ** Exceptions *)

Inductive exn : Type :=
  | ValueError
  | ZeroDivisionError
  | IndexError
  | KeyError
  | TypeError
  | StopIteration
  | OverflowError.

Inductive result (A : Type) : Type :=
  | Returns (a : A)
  | Raises (e : exn).

Arguments Returns {A} a.
Arguments Raises {A} e.

Definition result_bind {A B : Type} (r : result A) (f : A → result B) : result B :=
  match r with
  | Returns a => f a
  | Raises e => Raises e
  end.

Definition of_option {A : Type} (e : exn) (o : option A) : result A :=
  match o with
  | Some a => Returns a
  | None => Raises e
  end.

(** ** Python floats *)

(** A Python float is an IEEE 754 binary64 number: a [spec_float] of the
    Standard Library, with the operations of [SpecFloat] at precision 53
    and maximal exponent 1024, which round to nearest, ties to even. *)
Definition float64 : Type := SpecFloat.spec_float.

Definition f64_div : float64 → float64 → float64 := SpecFloat.SFdiv 53 1024.
Definition f64_sub : float64 → float64 → float64 := SpecFloat.SFsub 53 1024.
Definition f64_zero : float64 := SpecFloat.S754_zero false.

(** [x == 0] and [x > 0] *)
Definition f64_is_zero (x : float64) : bool := SpecFloat.SFeqb x f64_zero.
Definition f64_is_pos (x : float64) : bool := SpecFloat.SFltb f64_zero x.

(** Neither an infinity nor a nan. *)
Definition f64_is_finite (x : float64) : bool :=
  match x with
  | SpecFloat.S754_zero _ | SpecFloat.S754_finite _ _ _ => true
  | _ => false
  end.

(** An integer as the pair of a mantissa and the exponent 0, before any
    rounding. *)
Definition exact_int (z : Z) : float64 :=
  match z with
  | Z0 => SpecFloat.S754_zero false
  | Zpos p => SpecFloat.S754_finite false p 0
  | Zneg p => SpecFloat.S754_finite true p 0
  end.

(** The conversion of an integer to float64: the nearest float. *)
Definition f64_of_int (z : Z) : float64 :=
  SpecFloat.binary_normalize 53 1024 z 0 false.

(** The literal [.5] *)
Definition f64_half : float64 :=
  SpecFloat.S754_finite false 4503599627370496 (-53).

(** The integer part of the finite number (-1)^s * m * 2^e. *)
Definition f64_trunc (s : bool) (m : positive) (e : Z) : Z :=
  let a := if decide (0 ≤ e) then Z.pos m * 2 ^ e
           else Z.pos m `div` 2 ^ (- e) in
  if s then - a else a.

(** [a / b] for two Python ints under [from __future__ import division]:
    the exact quotient, rounded once; ZeroDivisionError for a zero divisor,
    OverflowError when the quotient is too large for a float. *)
Definition py_truediv (a b : Z) : result float64 :=
  if decide (b = 0) then Raises ZeroDivisionError
  else match f64_div (exact_int a) (exact_int b) with
       | SpecFloat.S754_infinity _ => Raises OverflowError
       | q => Returns q
       end.

(** [x / y] for two Python floats *)
Definition py_float_div (x y : float64) : result float64 :=
  if f64_is_zero y then Raises ZeroDivisionError else Returns (f64_div x y).

(** [int(x)] for a float: truncation towards zero. *)
Definition py_int (x : float64) : result Z :=
  match x with
  | SpecFloat.S754_finite s m e => Returns (f64_trunc s m e)
  | SpecFloat.S754_zero _ => Returns 0
  | SpecFloat.S754_infinity _ => Raises OverflowError
  | SpecFloat.S754_nan => Raises ValueError
  end.

(** A Python number: an int or a float. *)
Inductive pynum : Type :=
  | PyInt (z : Z)
  | PyFloat (x : float64).

(** [float(a)]: OverflowError for an int that is too large. *)
Definition py_float (a : pynum) : result float64 :=
  match a with
  | PyInt z =>
      match f64_of_int z with
      | SpecFloat.S754_infinity _ => Raises OverflowError
      | x => Returns x
      end
  | PyFloat x => Returns x
  end.

(** [a - b]: an int for two ints; otherwise both are taken as floats. *)
Definition py_sub (a b : pynum) : result pynum :=
  match a, b with
  | PyInt x, PyInt y => Returns (PyInt (x - y))
  | _, _ =>
      result_bind (py_float a) (λ x,
      result_bind (py_float b) (λ y, Returns (PyFloat (f64_sub x y))))
  end.

(** The two major versions of Python that the package declares
    (setup.py). They differ in [round]. *)
Inductive python : Type :=
  | Python2
  | Python3.

(** The integer nearest to m * 2^e. A tie goes away from zero in Python 2
    and to the even integer in Python 3. *)
Definition nearest_integer (v : python) (m : positive) (e : Z) : Z :=
  if decide (0 ≤ e) then Z.pos m * 2 ^ e
  else
    let q := Z.pos m `div` 2 ^ (- e) in
    let r := Z.pos m `mod` 2 ^ (- e) in
    let h := 2 ^ (- e - 1) in
    if decide (r < h) then q
    else if decide (h < r) then q + 1
    else match v with
         | Python2 => q + 1
         | Python3 => if Z.even q then q else q + 1
         end.

(** [round(x)] of a float, as a float. Python 2 returns a float. Python 3
    returns an int, which the arithmetic that follows converts back, and
    raises on an infinity and on a nan. *)
Definition py_round (v : python) (x : float64) : result float64 :=
  let zero_of s :=
    SpecFloat.S754_zero (match v with Python2 => s | Python3 => false end) in
  match x with
  | SpecFloat.S754_finite s m e =>
      let n := nearest_integer v m e in
      Returns (if decide (n = 0) then zero_of s
               else f64_of_int (if s then - n else n))
  | SpecFloat.S754_zero s => Returns (zero_of s)
  | SpecFloat.S754_infinity _ =>
      match v with Python2 => Returns x | Python3 => Raises OverflowError end
  | SpecFloat.S754_nan =>
      match v with Python2 => Returns x | Python3 => Raises ValueError end
  end.

(** ** Utils.py *)

(** scipy's [comb(N, k, exact=True)], bound to [binom]: the exact integer
    binomial coefficient, 0 when [k > N] or when an argument is negative. *)
Fixpoint binom_nat (n k : nat) : Z :=
  match k with
  | O => 1
  | S k' =>
      match n with
      | O => 0
      | S n' => binom_nat n' k' + binom_nat n' (S k')
      end
  end.

Definition binom (N k : Z) : Z :=
  if decide (N < 0 ∨ k < 0) then 0
  else binom_nat (Z.to_nat N) (Z.to_nat k).

(** Utils._prob_no_occurrence (the lru_cache does not change its value):
    the int 0, or the float that the true division of two ints gives. *)
Definition _prob_no_occurrence (sample_size subsample_size sample_freq
    num_subsamples : Z) : result pynum :=
  if decide (sample_freq > sample_size - subsample_size) then Returns (PyInt 0)
  else
    result_bind
      (py_truediv (binom (sample_size - sample_freq) subsample_size) num_subsamples)
      (λ q, Returns (PyFloat q)).

(** [sum(l)] for a list of ints *)
Definition sum_Z (l : list Z) : Z := foldr Z.add 0 l.

(** Utils.get_expected_subsample_variety. The dictionary is the list of its
    items, in the order in which [dictionary.values()] yields them: the
    result of a chain of floating-point subtractions depends on it. *)
Definition get_expected_subsample_variety (dictionary : list (string * Z))
    (subsample_size : Z) : result pynum :=
  let sample_size := sum_Z dictionary.*2 in
  if decide (subsample_size > sample_size) then Raises ValueError
  else
    let num_subsamples := binom sample_size subsample_size in
    foldl (λ expected_variety freq,
             result_bind expected_variety (λ ev,
             result_bind (_prob_no_occurrence sample_size subsample_size freq
                            num_subsamples) (λ p,
             py_sub ev p)))
          (Returns (PyInt (Z.of_nat (length dictionary))))
          dictionary.*2.

(** The closed form of the specification,
    |support| − Σ_v C(N−v, k) / C(N, k) with N = Σ v,
    evaluated in float64 from left to right: every quotient of two
    binomial coefficients is rounded, and so is every difference. *)
Definition expected_variety_spec (dictionary : list (string * Z)) (k : Z)
    : float64 :=
  let N := sum_Z dictionary.*2 in
  foldl (λ acc v,
           f64_sub acc (f64_div (exact_int (binom (N - v) k))
                                (exact_int (binom N k))))
        (f64_of_int (Z.of_nat (length dictionary)))
        dictionary.*2.

(** The float x is the rational number n / d (for d > 0). *)
Definition f64_is_ratio (x : float64) (n d : Z) : Prop :=
  match x with
  | SpecFloat.S754_zero _ => n = 0
  | SpecFloat.S754_finite s m e =>
      let a := if s then Z.neg m else Z.pos m in
      if decide (0 ≤ e) then a * 2 ^ e * d = n else a * d = n * 2 ^ (- e)
  | _ => False
  end.

(** The dictionary of scenario S6. *)
Definition dict_S6 : list (string * Z) := [("a", 2); ("b", 1); ("c", 1)].

(** Utils.iround: [int(round(x) - .5) + (x > 0)] *)
Definition iround (v : python) (x : float64) : result Z :=
  result_bind (py_round v x) (λ r,
  result_bind (py_int (f64_sub r f64_half)) (λ i,
  Returns (i + (if f64_is_pos x then 1 else 0)))).

(** The two lines of Segmenter.sample that compute the step:
    [step = 1 / (sample_size / len(segmentation))], two divisions in
    float64, and [step = iround(step)]. *)
Definition systematic_step (v : python) (sample_size len : Z) : result Z :=
  result_bind (py_truediv sample_size len) (λ ratio,
  result_bind (py_float_div (f64_of_int 1) ratio) (λ step,
  iround v step)).

(** ** Segmenter.sample *)

(** [l[::step]] for a positive step: the first element, then every
    [step]-th one. The fuel is the length of the list. *)
Fixpoint take_every {A : Type} (fuel : nat) (step : nat) (l : list A) : list A :=
  match fuel with
  | O => []
  | S fuel' =>
      match l with
      | [] => []
      | x :: _ => x :: take_every fuel' step (drop step l)
      end
  end.

(** [list(range(n))[::step]]: ValueError for a zero step, and the list is
    walked backwards from its last element for a negative one. *)
Definition range_slice_step (n : nat) (step : Z) : result (list nat) :=
  if decide (step = 0) then Raises ValueError
  else if decide (0 < step) then Returns (take_every n (Z.to_nat step) (seq 0 n))
  else Returns (take_every n (Z.to_nat (- step)) (reverse (seq 0 n))).

(** The loop [for index, segment in enumerate(segmentation)]. *)
Fixpoint sample_loop (segments : list Segment) (index : nat)
    (sampled_indices : list nat) (copy_annotations : bool)
    (new_segmentation neg_segmentation : Segmentation)
    : Segmentation * Segmentation :=
  match segments with
  | [] => (new_segmentation, neg_segmentation)
  | segment :: rest =>
      let new_segment := deepcopy segment copy_annotations in
      if decide (index ∈ sampled_indices)
      then sample_loop rest (S index) sampled_indices copy_annotations
             (append new_segmentation new_segment) neg_segmentation
      else sample_loop rest (S index) sampled_indices copy_annotations
             new_segmentation (append neg_segmentation new_segment)
  end.

(** Segmenter.sample with [auto_number_as=None], under the version [v] of
    Python. In 'random' mode the result of
    [random.sample(range(len(segmentation)), sample_size)] is the extra
    argument [drawn]. *)
Definition sample (v : python) (segmentation : Segmentation) (sample_size : Z)
    (mode : string) (lbl : string) (copy_annotations : bool) (drawn : list nat)
    : result (Segmentation * Segmentation) :=
  let new_segmentation := Segmentation_empty lbl in
  let neg_segmentation := Segmentation_empty ("NEG_" +:+ lbl) in
  let len := length (buffer segmentation) in
  result_bind
    (if decide (mode = "random") then Returns (merge_sort Nat.le drawn)
     else if decide (mode = "systematic") then
       result_bind (systematic_step v sample_size (Z.of_nat len))
         (range_slice_step len)
     else Raises ValueError)
    (λ sampled_indices,
       Returns (sample_loop (buffer segmentation) 0 sampled_indices
                  copy_annotations new_segmentation neg_segmentation)).

(** The elements of a list whose position satisfies a predicate. *)
Fixpoint select_from {A : Type} (P : nat → bool) (index : nat) (l : list A) : list A :=
  match l with
  | [] => []
  | x :: rest =>
      if P index then x :: select_from P (S index) rest
      else select_from P (S index) rest
  end.

(** The segments at the positions 0, s, 2s, ... and the other ones. *)
Definition at_multiples (s : Z) (l : list Segment) : list Segment :=
  select_from (λ i, bool_decide (Z.of_nat i `mod` s = 0)) 0 l.

Definition off_multiples (s : Z) (l : list Segment) : list Segment :=
  select_from (λ i, negb (bool_decide (Z.of_nat i `mod` s = 0))) 0 l.

(** Three segments of one string, for sampling. *)
Definition three_segments : Segmentation :=
  Segmentation_of_list [seg_a; seg_c; mkSegment 0 (Some 2) (Some 3) ∅] "three".

(** ** Numbers, numpy arrays and scipy dok matrices *)

(** The arithmetic a matrix needs of its cells. *)
Class Num (V : Type) : Type := {
  num_zero : V;
  num_add : V → V → V;
  num_mul : V → V → V;
  num_is_zero : V → bool;
}.

Global Instance Z_Num : Num Z := {|
  num_zero := 0;
  num_add := Z.add;
  num_mul := Z.mul;
  num_is_zero := Z.eqb 0;
|}.

(** Cells of dtype float (np.float64). *)
Global Instance f64_Num : Num float64 := {|
  num_zero := f64_zero;
  num_add := SpecFloat.SFadd 53 1024;
  num_mul := SpecFloat.SFmul 53 1024;
  num_is_zero := f64_is_zero;
|}.

(** Floating-point cells: the operations of numpy that the tables use, left
    abstract (no law of arithmetic is assumed of them). *)
Class Float (F : Type) : Type := {
  float_num :: Num F;
  float_of_int : Z → F;
  float_div : F → F → F;
  float_sqrt : F → F;
}.

(** A two-dimensional numpy array: its shape and its rows. *)
Record ndarray (V : Type) : Type := mkArray {
  nd_shape : nat * nat;
  nd_data : list (list V);
}.
Arguments mkArray {V} _ _.
Arguments nd_shape {V} _.
Arguments nd_data {V} _.

Definition nd_tabulate {V : Type} (r c : nat) (f : nat → nat → V) : ndarray V :=
  mkArray (r, c) ((λ i, (λ j, f i j) <$> seq 0 c) <$> seq 0 r).

(** [a[i, j]] for indices within the shape. *)
Definition nd_at {V : Type} `{Num V} (a : ndarray V) (i j : nat) : V :=
  default num_zero (nd_data a !! i ≫= (.!! j)).

Definition sum_list_num {V : Type} `{Num V} (l : list V) : V :=
  foldl num_add num_zero l.

(** np.transpose, np.dot (ValueError when the shapes do not match),
    np.diag of a vector, [a[::, 1::]], and the sums along the axes. *)
Definition nd_transpose {V : Type} `{Num V} (a : ndarray V) : ndarray V :=
  nd_tabulate (nd_shape a).2 (nd_shape a).1 (λ i j, nd_at a j i).

Definition nd_dot {V : Type} `{Num V} (a b : ndarray V) : result (ndarray V) :=
  if decide ((nd_shape a).2 = (nd_shape b).1) then
    Returns (nd_tabulate (nd_shape a).1 (nd_shape b).2
               (λ i j, sum_list_num
                         ((λ k, num_mul (nd_at a i k) (nd_at b k j))
                            <$> seq 0 (nd_shape a).2)))
  else Raises ValueError.







(** A dok_matrix: its shape and the dictionary of its stored cells. Zero
    values are never stored. *)
Record dok_matrix (V : Type) : Type := mkDok {
  dok_shape : nat * nat;
  dok_items : gmap (nat * nat) V;
}.
Arguments mkDok {V} _ _.
Arguments dok_shape {V} _.
Arguments dok_items {V} _.

Definition dok_in_shape {V : Type} (d : dok_matrix V) (i j : nat) : bool :=
  bool_decide (i < (dok_shape d).1)%nat && bool_decide (j < (dok_shape d).2)%nat.

(** [d.get((i, j), default)]: IndexError outside the shape. *)
Definition dok_get {V : Type} (d : dok_matrix V) (i j : nat) (dflt : option V)
    : result (option V) :=
  if dok_in_shape d i j then
    Returns (match dok_items d !! (i, j) with Some v => Some v | None => dflt end)
  else Raises IndexError.

(** [d[i, j] = v]: a zero is not stored (and removes what was stored). *)
Definition dok_setitem {V : Type} `{Num V} (d : dok_matrix V) (i j : nat) (v : V)
    : result (dok_matrix V) :=
  if dok_in_shape d i j then
    Returns (mkDok (dok_shape d)
               (if num_is_zero v then delete (i, j) (dok_items d)
                else <[(i, j) := v]> (dok_items d)))
  else Raises IndexError.

(** [d.nnz] *)
Definition dok_nnz {V : Type} (d : dok_matrix V) : nat := size (dok_items d).

(** A dictionary given by a partial function on a list of keys. *)
Definition tab_map {K : Type} `{Countable K} {V : Type} (keys : list K)
    (f : K → option V) : gmap K V :=
  list_to_map (omap (λ k, (λ v, (k, v)) <$> f k) keys).

(** [dok_matrix(array)] keeps the non-zero cells; [d.A] / [d.todense()]. *)
Definition dok_of_array {V : Type} `{Num V} (a : ndarray V) : dok_matrix V :=
  mkDok (nd_shape a)
    (tab_map (cprod (seq 0 (nd_shape a).1) (seq 0 (nd_shape a).2))
       (λ ij, if num_is_zero (nd_at a ij.1 ij.2) then None
              else Some (nd_at a ij.1 ij.2))).

Definition dok_todense {V : Type} `{Num V} (d : dok_matrix V) : ndarray V :=
  nd_tabulate (dok_shape d).1 (dok_shape d).2
    (λ i j, default num_zero (dok_items d !! (i, j))).

(** The conversion of a float64 to np.int (int64) by [astype]: the C
    conversion, which truncates. What it gives for a nan, an infinity or
    a number outside the range of int64 is not defined by C; it is -2^63
    on x86-64. *)
Definition f64_to_int64 (x : float64) : Z :=
  match x with
  | SpecFloat.S754_zero _ => 0
  | SpecFloat.S754_finite s m e =>
      let z := f64_trunc s m e in
      if decide (- 2 ^ 63 ≤ z < 2 ^ 63) then z else - 2 ^ 63
  | _ => - 2 ^ 63
  end.

(** [d.astype(np.int)] for a matrix of floats: every stored cell is
    converted. *)
Definition dok_astype_int (d : dok_matrix float64) : dok_matrix Z :=
  mkDok (dok_shape d) (f64_to_int64 <$> dok_items d).

(** ** Table.py *)

Inductive table_class : Type :=
  | PivotCrosstab
  | IntPivotCrosstab
  | WeightedFlatCrosstab
  | IntWeightedFlatCrosstab.

(** Tables in pivot format. [missing = None] is Python's None. *)
Record Table (V : Type) : Type := mkTable {
  t_class : table_class;
  row_ids : list string;
  col_ids : list string;
  values : dok_matrix V;
  header_row_id : string;
  header_row_type : string;
  header_col_id : string;
  header_col_type : string;
  col_type : gmap string string;
  class_col_id : option string;
  missing : option V;
  _cached_row_id : option string;
  row_mapping : gmap string nat;
  col_mapping : gmap string nat;
}.
Arguments mkTable {V}.
Arguments t_class {V} _.
Arguments row_ids {V} _.
Arguments col_ids {V} _.
Arguments values {V} _.
Arguments header_row_id {V} _.
Arguments header_row_type {V} _.
Arguments header_col_id {V} _.
Arguments header_col_type {V} _.
Arguments col_type {V} _.
Arguments class_col_id {V} _.
Arguments missing {V} _.
Arguments _cached_row_id {V} _.
Arguments row_mapping {V} _.
Arguments col_mapping {V} _.

(** [dict(map(reversed, enumerate(ids)))]: a later duplicate wins. *)
Definition mapping_of (ids : list string) : gmap string nat :=
  foldl (λ m ik, <[ik.2 := ik.1]> m) ∅ (zip (seq 0 (length ids)) ids).

(** Table.get: any exception of the lookup yields the missing value. *)
Definition Table_get {V : Type} (self : Table V) (row col : string)
    (missing_arg : option V) : option V :=
  let missing := match missing_arg with
                 | None => missing self
                 | Some _ => missing_arg
                 end in
  match row_mapping self !! row, col_mapping self !! col with
  | Some i, Some j =>
      match dok_get (values self) i j missing with
      | Returns v => v
      | Raises _ => missing
      end
  | _, _ => missing
  end.

(** PivotCrosstab.to_numpy *)
Definition to_numpy {V : Type} `{Num V} (self : Table V) : ndarray V :=
  dok_todense (values self).




(** Tables in weighted flat format: one row (col_id, row_id, weight) per
    cell. A row of the [np.empty] array that was never written holds
    unspecified data: it is [None] here, and reading it fails. *)
Record WeightedFlat (V : Type) : Type := mkWeightedFlat {
  wf_class : table_class;
  wf_row_ids : list Z;
  wf_col_ids : list string;
  wf_values : list (option (string * string * V));
  wf_header_row_id : string;
  wf_header_row_type : string;
  wf_header_col_id : string;
  wf_header_col_type : string;
  wf_col_type : gmap string string;
  wf_class_col_id : option string;
  wf_missing : option V;
  wf_cached_row_id : option string;
  wf_col_mapping : gmap string nat;
}.
Arguments mkWeightedFlat {V}.
Arguments wf_class {V} _.
Arguments wf_row_ids {V} _.
Arguments wf_col_ids {V} _.
Arguments wf_values {V} _.
Arguments wf_header_row_id {V} _.
Arguments wf_header_row_type {V} _.
Arguments wf_header_col_id {V} _.
Arguments wf_header_col_type {V} _.
Arguments wf_col_type {V} _.
Arguments wf_class_col_id {V} _.
Arguments wf_missing {V} _.
Arguments wf_cached_row_id {V} _.
Arguments wf_col_mapping {V} _.

(** [s or d] for strings: the empty string is falsy. *)
Definition str_or (s d : string) : string :=
  if decide (s = "") then d else s.

(** The rows written by the two nested loops of to_weighted_flat. *)
Definition weighted_rows {V : Type} `{Num V} (self : Table V)
    : list (string * string * V) :=
  row_id ← row_ids self;
  col_id ← col_ids self;
  match Table_get self row_id col_id (Some num_zero) with
  | Some count => if num_is_zero count then [] else [(col_id, row_id, count)]
  | None => []
  end.

(** PivotCrosstab.to_weighted_flat and IntPivotCrosstab.to_weighted_flat
    (which only changes the class and the dtype of the weights). Writing
    more rows than [self.values.nnz] raises IndexError. *)
Definition to_weighted_flat {V : Type} `{Num V} (self : Table V)
    : result (WeightedFlat V) :=
  let new_header_col_id := "__id__" in
  let new_header_col_type := "continuous" in
  let first_col_id := str_or (header_row_id self) "__column__" in
  let num_row_ids := length (row_ids self) in
  let second_col_id := str_or (header_col_id self) "__row__" in
  let new_col_ids :=
    if decide (1 < num_row_ids)%nat then [first_col_id; second_col_id]
    else [first_col_id] in
  let new_cached_row_id :=
    if decide (1 < num_row_ids)%nat then None else Some (header_col_id self) in
  let new_col_type : gmap string string :=
    <["__weight__" := "continuous"]>
      (list_to_map ((λ c, (c, "discrete")) <$> new_col_ids)) in
  let new_col_ids := new_col_ids ++ ["__weight__"] in
  let nnz := dok_nnz (values self) in
  let written := weighted_rows self in
  if decide (nnz < length written)%nat then Raises IndexError
  else
    Returns (mkWeightedFlat
               (match t_class self with
                | IntPivotCrosstab => IntWeightedFlatCrosstab
                | _ => WeightedFlatCrosstab
                end)
               (seqZ 1 (Z.of_nat nnz))
               new_col_ids
               ((Some <$> written) ++ replicate (nnz - length written) None)
               "__col__" "string"
               new_header_col_id new_header_col_type
               new_col_type None (missing self) new_cached_row_id
               (mapping_of new_col_ids)).

(** [np.unique(l).tolist()] for a list of strings: sorted, no duplicates. *)
Definition string_le (a b : string) : Prop := String.leb a b = true.

Global Instance string_le_dec : RelDecision string_le.
Proof. intros a b. unfold string_le. apply _. Defined.

Definition np_unique (l : list string) : list string :=
  merge_sort string_le (remove_dups l).

(** The loop of WeightedFlatCrosstab.to_pivot over the rows of the weighted
    flat table. [new_values] is a dok_matrix of dtype float: the assignment
    [new_values[row, col] = self.values[i][2]] converts the weight, which is
    [as_float]. *)
Fixpoint to_pivot_loop {V : Type} (as_float : V → float64)
    (rows : list (option (string * string * V)))
    (row_mapping col_mapping : gmap string nat) (new_values : dok_matrix float64)
    : result (dok_matrix float64) :=
  match rows with
  | [] => Returns new_values
  | None :: _ => Raises TypeError
  | Some (col_id, row_id, weight) :: rest =>
      result_bind (of_option KeyError (row_mapping !! row_id)) (λ row,
      result_bind (of_option KeyError (col_mapping !! col_id)) (λ col,
      result_bind (dok_setitem new_values row col (as_float weight)) (λ new_values',
      to_pivot_loop as_float rest row_mapping col_mapping new_values')))
  end.

Fixpoint all_written {V : Type} (rows : list (option (string * string * V)))
    : result (list (string * string * V)) :=
  match rows with
  | [] => Returns []
  | None :: _ => Raises TypeError
  | Some r :: rest => result_bind (all_written rest) (λ l, Returns (r :: l))
  end.

(** IntWeightedFlatCrosstab.to_pivot: the method of WeightedFlatCrosstab,
    whose body is written out here and which stores the integer weights
    in a matrix of floats, followed by
    [pivot.__class__ = IntPivotCrosstab] and
    [pivot.values = pivot.values.astype(np.int)]. *)
Definition to_pivot (self : WeightedFlat Z) : result (Table Z) :=
  result_bind (of_option IndexError (wf_col_ids self !! 0%nat)) (λ new_header_row_id,
  result_bind (of_option IndexError (wf_col_ids self !! 1%nat)) (λ new_header_col_id,
  result_bind (all_written (wf_values self)) (λ rows,
  let new_col_ids := np_unique ((λ x, x.1.1) <$> rows) in
  let new_row_ids := np_unique ((λ x, x.1.2) <$> rows) in
  let row_mapping := mapping_of new_row_ids in
  let col_mapping := mapping_of new_col_ids in
  result_bind
    (to_pivot_loop f64_of_int (wf_values self) row_mapping col_mapping
       (mkDok (length new_row_ids, length new_col_ids) ∅))
    (λ new_values,
  Returns (mkTable IntPivotCrosstab
             new_row_ids new_col_ids (dok_astype_int new_values)
             new_header_row_id "discrete" new_header_col_id "discrete"
             (list_to_map ((λ c, (c, "continuous")) <$> new_col_ids))
             None (wf_missing self) None row_mapping col_mapping))))).

(** A well-formed pivot table: distinct row ids and distinct column ids,
    which the mappings send one-to-one onto the row and column indices of
    the matrix, whose stored cells lie within its shape and are not zero. *)
Record table_wf {V : Type} `{Num V} (T : Table V) : Prop := mkTableWf {
  wf_rows_nodup : NoDup (row_ids T);
  wf_cols_nodup : NoDup (col_ids T);
  wf_rows_mapped : ∀ r, r ∈ row_ids T →
      ∃ i, row_mapping T !! r = Some i ∧ (i < (dok_shape (values T)).1)%nat;
  wf_cols_mapped : ∀ c, c ∈ col_ids T →
      ∃ j, col_mapping T !! c = Some j ∧ (j < (dok_shape (values T)).2)%nat;
  wf_rows_inj : ∀ r r' i, r ∈ row_ids T → r' ∈ row_ids T →
      row_mapping T !! r = Some i → row_mapping T !! r' = Some i → r = r';
  wf_cols_inj : ∀ c c' j, c ∈ col_ids T → c' ∈ col_ids T →
      col_mapping T !! c = Some j → col_mapping T !! c' = Some j → c = c';
  wf_rows_onto : ∀ i, (i < (dok_shape (values T)).1)%nat →
      ∃ r, r ∈ row_ids T ∧ row_mapping T !! r = Some i;
  wf_cols_onto : ∀ j, (j < (dok_shape (values T)).2)%nat →
      ∃ c, c ∈ col_ids T ∧ col_mapping T !! c = Some j;
  wf_cells_in_shape : ∀ i j v, dok_items (values T) !! (i, j) = Some v →
      (i < (dok_shape (values T)).1)%nat ∧ (j < (dok_shape (values T)).2)%nat;
  wf_cells_nonzero : ∀ ij v, dok_items (values T) !! ij = Some v →
      num_is_zero v = false;
}.

(** The table of scenario S2: the letters of 'a simple example' counted in
    its words (rows a, simple, example; columns a, s, i, m, p, l, e, x). *)
Definition table_S2 : Table Z :=
  mkTable IntPivotCrosstab
    ["a"; "simple"; "example"]
    ["a"; "s"; "i"; "m"; "p"; "l"; "e"; "x"]
    (mkDok (3%nat, 8%nat)
       (list_to_map
          [((0, 0)%nat, 1); ((1, 1)%nat, 1); ((1, 2)%nat, 1); ((1, 3)%nat, 1);
           ((1, 4)%nat, 1); ((1, 5)%nat, 1); ((1, 6)%nat, 1); ((2, 6)%nat, 2);
           ((2, 7)%nat, 1); ((2, 0)%nat, 1); ((2, 3)%nat, 1); ((2, 4)%nat, 1);
           ((2, 5)%nat, 1)]))
    "__unit__" "string" "__context__" "string"
    (list_to_map ((λ c, (c, "continuous"))
                    <$> ["a"; "s"; "i"; "m"; "p"; "l"; "e"; "x"]))
    None (Some 0) None
    (mapping_of ["a"; "simple"; "example"])
    (mapping_of ["a"; "s"; "i"; "m"; "p"; "l"; "e"; "x"]).

(** A table with one cell, which holds 2^53 + 1, and a table whose two
    rows bear the same id. *)
Definition table_big : Table Z :=
  mkTable IntPivotCrosstab ["r"] ["c"]
    (mkDok (1%nat, 1%nat) {[ (0, 0)%nat := 2 ^ 53 + 1 ]})
    "__col__" "string" "__row__" "string"
    ∅ None None None (mapping_of ["r"]) (mapping_of ["c"]).

Definition table_dup : Table Z :=
  mkTable IntPivotCrosstab ["r"; "r"] ["c"]
    (mkDok (2%nat, 1%nat) {[ (1, 0)%nat := 1 ]})
    "__col__" "string" "__row__" "string"
    ∅ None None None (mapping_of ["r"; "r"]) (mapping_of ["c"]).

(** ** Segment.get_content *)

(** A bound of a Python slice [s[a:b]] of a sequence of length [len]: a
    negative bound counts from the end, and every bound is clamped to
    [0, len]. *)
Definition py_slice_bound (len : Z) (b : option Z) (dflt : Z) : Z :=
  match b with
  | None => dflt
  | Some v => if decide (v < 0) then Z.max 0 (len + v) else Z.min v len
  end.

(** [s[start:end]] for a string. *)
Definition py_str_slice (s : string) (start_ end_pos : option Z) : string :=
  let len := Z.of_nat (String.length s) in
  let a := py_slice_bound len start_ 0 in
  let b := py_slice_bound len end_pos len in
  String.substring (Z.to_nat a) (Z.to_nat (b - a)) s.

(** Segment.get_content: [Segmentation.get_data(self.str_index)[self.start:self.end]].
    Slicing an integer (a pointer to a pointer) is a TypeError. *)
Definition get_content (data : list datum) (self : Segment) : result string :=
  match get_data data (str_index self) with
  | None => Raises IndexError
  | Some (DStr s) => Returns (py_str_slice s (start self) (end_ self))
  | Some (DRef _) => Raises TypeError
  end.

(** A list comprehension whose body may raise. *)
Fixpoint result_mapM {A B : Type} (f : A → result B) (l : list A) : result (list B) :=
  match l with
  | [] => Returns []
  | x :: rest =>
      result_bind (f x) (λ y,
      result_bind (result_mapM f rest) (λ ys, Returns (y :: ys)))
  end.

(** ** Table.__init__ from a dictionary, Table.from_numpy *)

(** The loop [for k, v in iteritems(values)] of Table.__init__:
    [self.values[self.row_mapping[k[0]], self.col_mapping[k[1]]] = v]. *)
Fixpoint dict_fill {V : Type} `{Num V} (items : list ((string * string) * V))
    (rm cm : gmap string nat) (d : dok_matrix V) : result (dok_matrix V) :=
  match items with
  | [] => Returns d
  | (k, v) :: rest =>
      result_bind (of_option KeyError (rm !! k.1)) (λ i,
      result_bind (of_option KeyError (cm !! k.2)) (λ j,
      result_bind (dok_setitem d i j v) (λ d',
      dict_fill rest rm cm d')))
  end.

(** Table.__init__ when [values] is a dictionary. The dtype is guessed from
    the first value, [six.next(six.itervalues(values))], which raises
    StopIteration on an empty dictionary. For Python ints the matrix is
    an int64 one, which holds the integers from -2^63 to 2^63 - 1: the
    definition is that of the code for values in this range (numpy raises
    OverflowError on the others). *)
Definition Table_of_dict {V : Type} `{Num V} (cls : table_class)
    (row_ids col_ids : list string) (vals : gmap (string * string) V)
    (header_row_id header_row_type header_col_id header_col_type : string)
    (col_type : gmap string string) (class_col_id : option string)
    (missing : option V) (_cached_row_id : option string) : result (Table V) :=
  match map_to_list vals with
  | [] => Raises StopIteration
  | items =>
      let row_mapping := mapping_of row_ids in
      let col_mapping := mapping_of col_ids in
      result_bind
        (dict_fill items row_mapping col_mapping
           (mkDok (length row_ids, length col_ids) ∅))
        (λ d, Returns (mkTable cls row_ids col_ids d
                         header_row_id header_row_type
                         header_col_id header_col_type
                         col_type class_col_id missing _cached_row_id
                         row_mapping col_mapping))
  end.

Global Instance table_class_eq_dec : EqDecision table_class.
Proof. solve_decision. Defined.

(** What from_numpy looks at in the dtype of an array: whether
    [np_array.dtype.type] is a subclass of [np.integer]. An array of Python
    ints is an integer array; an array that comes out of a true division
    is a float64 array. *)
Class Dtype (V : Type) : Type := dtype_is_integer : bool.

Global Instance Z_Dtype : Dtype Z := true.
Global Instance Float_Dtype {F : Type} `{Float F} : Dtype F := false.

(** PivotCrosstab.from_numpy, a class method: [cls] is the class it is
    called on. *)
Definition from_numpy {V : Type} `{Num V} `{Dtype V} (cls : table_class)
    (row_ids col_ids : list string) (np_array : ndarray V)
    (header_row_id header_row_type header_col_id header_col_type : string)
    (col_type : gmap string string) (class_col_id : option string)
    (missing : option V) (_cached_row_id : option string) : result (Table V) :=
  let table_values := dok_of_array np_array in
  let row_mapping := mapping_of row_ids in
  let col_mapping := mapping_of col_ids in
  if bool_decide (cls = IntPivotCrosstab) && negb dtype_is_integer
  then Raises ValueError
  else Returns (mkTable cls row_ids col_ids table_values
                  header_row_id header_row_type
                  header_col_id header_col_type
                  col_type class_col_id missing _cached_row_id
                  row_mapping col_mapping).

(** IntPivotCrosstab.to_normalized(mode='presence/absence'):
    [dok_matrix(np.nan_to_num(self.values / self.values))]. The division is
    a true division: a stored cell [v] becomes the float [v / v], every
    other cell is 0 / 0 = nan, which nan_to_num turns into 0. The missing
    value is handed over as it is. *)
Definition to_normalized_presence_absence {F : Type} `{Float F} (self : Table Z)
    : Table F :=
  let new_values :=
    dok_of_array
      (nd_tabulate (dok_shape (values self)).1 (dok_shape (values self)).2
         (λ i j, match dok_items (values self) !! (i, j) with
                 | Some v => float_div (float_of_int v) (float_of_int v)
                 | None => num_zero
                 end)) in
  mkTable IntPivotCrosstab (row_ids self) (col_ids self) new_values
    (header_row_id self) (header_row_type self)
    (header_col_id self) (header_col_type self)
    (col_type self) None (float_of_int <$> missing self) (_cached_row_id self)
    (row_mapping self) (col_mapping self).

(** ** Processor.count_in_window and Processor.cooc_in_window *)

(** [window_freq[u] = window_freq.get(u, 0) + 1] and [window_freq[u] -= 1]
    (a KeyError when [u] is not a key). *)
Definition window_incr (window_freq : gmap string Z) (u : string) : gmap string Z :=
  <[u := default 0 (window_freq !! u) + 1]> window_freq.

Definition window_decr (window_freq : gmap string Z) (u : string)
    : result (gmap string Z) :=
  match window_freq !! u with
  | Some c => Returns (<[u := c - 1]> window_freq)
  | None => Raises KeyError
  end.

(** [freq.update(dict([((window_str, k), v) for (k, v) in iteritems(window_freq)]))] *)
Definition freq_update (freq : gmap (string * string) Z) (window_str : string)
    (window_freq : gmap string Z) : gmap (string * string) Z :=
  kmap (pair window_str) window_freq ∪ freq.

(** The list of units in final format (content or annotation). *)
Definition get_unit_list (data : list datum) (unit_segmentation : Segmentation)
    (unit_annotation_key : option string) : result (list string) :=
  match unit_annotation_key with
  | Some key =>
      Returns ((λ unit_token, default "__none__" (annotations unit_token !! key))
                 <$> buffer unit_segmentation)
  | None => result_mapM (get_content data) (buffer unit_segmentation)
  end.

(** The loop over the other window indices (CASE 2, sequences of length 1). *)
Fixpoint window_loop (unit_list : list string) (window_size : nat)
    (indices : list nat) (window_freq : gmap string Z)
    (freq : gmap (string * string) Z) (window_type : nat)
    : result (gmap (string * string) Z * nat) :=
  match indices with
  | [] => Returns (freq, window_type)
  | window_index :: rest =>
      result_bind (of_option IndexError (unit_list !! (window_index - 1)%nat))
        (λ old_unit,
      result_bind (window_decr window_freq old_unit) (λ window_freq,
      result_bind
        (of_option IndexError (unit_list !! (window_index + window_size - 1)%nat))
        (λ new_unit,
      let window_freq := window_incr window_freq new_unit in
      let window_type := (window_index + 1)%nat in
      let window_str := pretty window_type in
      window_loop unit_list window_size rest window_freq
        (freq_update freq window_str window_freq) window_type)))
  end.

(** Processor.count_in_window for units of sequence length 1 (the default
    of [units['seq_length']]). [list_set] is [list(set(...))]: it lists the
    distinct elements in the order Python's set iteration gives them. *)
Definition count_in_window (list_set : list string → list string)
    (data : list datum) (segmentation : option Segmentation)
    (annotation_key : option string) (window_size : Z) : result (Table Z) :=
  result_bind
    (match segmentation with
     | Some unit_segmentation =>
         if decide (seg_len unit_segmentation >= window_size ∧ window_size >= 1)
         then
           result_bind (get_unit_list data unit_segmentation annotation_key)
             (λ unit_list,
           let unit_types := list_set unit_list in
           let first_window := take (Z.to_nat window_size) unit_list in
           let window_freq := foldl window_incr ∅ first_window in
           let freq := kmap (pair "1") window_freq in
           result_bind
             (window_loop unit_list (Z.to_nat window_size)
                (seq 1 (length (buffer unit_segmentation)
                        - (Z.to_nat window_size - 1) - 1))
                window_freq freq 1)
             (λ fw, Returns (fw.1, unit_types, fw.2)))
         else Returns (∅, [], 1%nat)
     | None => Returns (∅, [], 1%nat)
     end)
    (λ r,
       let '(freq, unit_types, window_type) := r in
       Table_of_dict IntPivotCrosstab
         (pretty <$> seq 1 window_type) unit_types freq
         "__unit__" "string" "__context__" "continuous"
         (list_to_map ((λ u, (u, "continuous")) <$> unit_types))
         None (Some 0) None).

(** Processor.cooc_in_window. The [except IndexError] branch builds
    [IntPivotCrosstab(list(), list(), dict())]. *)
Definition cooc_in_window {F : Type} `{Float F}
    (list_set : list string → list string)
    (data : list datum) (segmentation : option Segmentation)
    (annotation_key : option string) (window_size : Z) : result (Table F) :=
  result_bind
    (count_in_window list_set data segmentation annotation_key window_size)
    (λ contingency,
  let normalized : Table F := to_normalized_presence_absence contingency in
  let np_contingency := to_numpy normalized in
  result_bind (nd_dot (nd_transpose np_contingency) np_contingency) (λ cooc,
  let new_header_row_id :=
    py_str_slice (header_row_id contingency) None (Some (-2))
    +:+ "2" +:+ py_str_slice (header_row_id contingency) (Some (-2)) None in
  match from_numpy IntPivotCrosstab
          (col_ids contingency) (col_ids contingency) cooc
          (header_row_id contingency) (header_row_type contingency)
          new_header_row_id (header_row_type contingency)
          (col_type contingency) None None None with
  | Raises IndexError =>
      Table_of_dict IntPivotCrosstab [] [] ∅
        "__col__" "string" "__row__" "string" ∅ None None None
  | r => r
  end)).

(** The letters of 'un texte' (tests/test_cooc.py). *)
Definition un_texte_data : list datum := [DStr "un texte"].

Definition letter_seg : Segmentation :=
  Segmentation_of_list
    [mkSegment 0 (Some 0) (Some 1) ∅; mkSegment 0 (Some 1) (Some 2) ∅;
     mkSegment 0 (Some 3) (Some 4) ∅; mkSegment 0 (Some 4) (Some 5) ∅;
     mkSegment 0 (Some 5) (Some 6) ∅; mkSegment 0 (Some 6) (Some 7) ∅;
     mkSegment 0 (Some 7) (Some 8) ∅]
    "letters".

(** ** Segment.get_contained_segment_indices *)

(** The final [for i, segment in enumerate(segmentation[start_search + 1:])]
    loop; [pos] is [i + (start_search + 1)]. *)
Fixpoint scan_loop_indices (segments : list Segment) (pos : Z)
    (str_idx end_pos string_length : Z) : list Z :=
  match segments with
  | [] => []
  | segment :: rest =>
      if decide (str_idx ≠ str_index segment ∨ mstart segment > end_pos) then []
      else if decide (end_pos >= mend string_length segment)
           then pos :: scan_loop_indices rest (pos + 1) str_idx end_pos string_length
           else scan_loop_indices rest (pos + 1) str_idx end_pos string_length
  end.

Definition get_contained_segment_indices_try (self : Segment)
    (segmentation : Segmentation) (start_ end_pos string_length : Z)
    : option (list Z) :=
  start_search ← str_index_ptr segmentation !! str_index self;
  let end_search := get_end_search (str_index_ptr segmentation) start_search
                      (seg_len segmentation) in
  '(start_search, end_search) ←
     bsearch_loop (Z.to_nat (end_search - start_search)) segmentation start_
       start_search end_search;
  first ← seg_getitem segmentation start_search;
  let start_search := if decide (mstart first >= start_)
                      then start_search - 1 else start_search in
  Some (scan_loop_indices (py_slice_from (buffer segmentation) (start_search + 1))
          (start_search + 1) (str_index self) end_pos string_length).

Definition get_contained_segment_indices (data : list datum) (self : Segment)
    (segmentation : Segmentation) : option (list Z) :=
  string_length ← get_data_len data (str_index self);
  let start_ := mstart self in
  let end_pos := mend string_length self in
  match get_contained_segment_indices_try self segmentation start_ end_pos
          string_length with
  | Some ret => Some ret
  | None => Some []
  end.

(** ** Segmentation.set_data *)

(** Segmentation.set_data, on the store [data]; it returns the new store.
    An integer is a pointer to an earlier string. *)
Definition set_data (data : list datum) (index : Z) (value_or_ref : datum)
    : result (list datum) :=
  result_bind
    (match value_or_ref with
     | DRef r =>
         if decide (r < 0 ∨ r > Z.of_nat (length data) - 1) then Raises IndexError
         else if decide (r = index) then Raises IndexError
         else match py_index data r with
              | Some (DRef r') => Returns (DRef r')
              | Some (DStr _) => Returns value_or_ref
              | None => Raises IndexError
              end
     | DStr _ => Returns value_or_ref
     end)
    (λ value_or_ref,
       if decide (0 ≤ index < Z.of_nat (length data)) then
         match value_or_ref, py_index data index with
         | DRef _, Some (DStr _) => Raises IndexError
         | _, _ => Returns (<[Z.to_nat index := value_or_ref]> data)
         end
       else Returns (data ++ [value_or_ref])).

(** 'There should be no pointer to pointer': every pointer of the store
    points to a string of the store. *)
Definition no_pointer_to_pointer (data : list datum) : Prop :=
  ∀ (i : nat) (j : Z), data !! i = Some (DRef j) →
    0 ≤ j ∧ ∃ s, data !! Z.to_nat j = Some (DStr s).

(** One step of pointer bookkeeping, as [append] and the loop of
    [_get_str_index_ptr] both perform it. *)
Definition ptr_step (last_seen : option Segment) (s : Segment) (pos : Z)
    (m : gmap Z Z) : gmap Z Z :=
  match last_seen with
  | None => <[str_index s := pos]> m
  | Some l => if decide (str_index s ≠ str_index l)
              then <[str_index s := pos]> m else m
  end.

(** The number of occurrences of a unit in a list of units, and the
    window of [window_size] units that starts at position [i]. *)
Definition occurrences (u : string) (l : list string) : Z :=
  Z.of_nat (length (filter (u =.) l)).

Definition window (window_size i : nat) (l : list string) : list string :=
  take window_size (drop i l).

(** ** Crosstab.get_unique_items, PivotCrosstab.to_transposed *)

(** Crosstab.get_unique_items: the loop, with the dictionary [seen] and the
    list [result] threaded. *)
Fixpoint get_unique_items_loop (seq : list string) (seen : gmap string Z)
    (result : list string) : list string :=
  match seq with
  | [] => result
  | item :: rest =>
      match seen !! item with
      | Some _ => get_unique_items_loop rest seen result
      | None => get_unique_items_loop rest (<[item := 1]> seen) (result ++ [item])
      end
  end.

Definition get_unique_items (seq : list string) : list string :=
  get_unique_items_loop seq ∅ [].

(** [m.transpose()] for a dok_matrix. *)
Definition dok_transpose {V : Type} (d : dok_matrix V) : dok_matrix V :=
  mkDok ((dok_shape d).2, (dok_shape d).1)
        (kmap (λ ij : nat * nat, (ij.2, ij.1)) (dok_items d)).

(** PivotCrosstab.to_transposed *)
Definition to_transposed {V : Type} (self : Table V) : Table V :=
  let new_col_ids := row_ids self in
  mkTable PivotCrosstab (col_ids self) new_col_ids
    (dok_transpose (values self))
    (header_col_id self) (header_col_type self)
    (header_row_id self) (header_row_type self)
    (list_to_map ((λ col_id, (col_id, "continuous")) <$> new_col_ids))
    None (missing self) (Some (header_col_id self))
    (col_mapping self) (row_mapping self).

(** IntPivotCrosstab.to_transposed: the same, as an IntPivotCrosstab. *)
Definition IntPivotCrosstab_to_transposed (self : Table Z) : Table Z :=
  let transposed := to_transposed self in
  mkTable IntPivotCrosstab (row_ids transposed) (col_ids transposed)
    (values transposed)
    (header_row_id transposed) (header_row_type transposed)
    (header_col_id transposed) (header_col_type transposed)
    (col_type transposed) (class_col_id transposed) (missing transposed)
    (_cached_row_id transposed)
    (row_mapping transposed) (col_mapping transposed).

(** ** Tables in flat format (FlatCrosstab) *)

(** One row [col_id, row_id] per occurrence. *)
Record FlatTable : Type := mkFlatTable {
  f_row_ids : list Z;
  f_col_ids : list string;
  f_values : list (string * string);
  f_header_row_id : string;
  f_header_row_type : string;
  f_header_col_id : string;
  f_header_col_type : string;
  f_col_type : gmap string string;
  f_class_col_id : option string;
  f_missing : option Z;
  f_cached_row_id : option string;
  f_col_mapping : gmap string nat;
}.

(** IntPivotCrosstab.to_flat: [[[col_id, row_id]] * count] for every cell,
    row by row; a list times a negative number is empty. *)
Definition flat_rows (self : Table Z) : list (string * string) :=
  row_id ← row_ids self;
  col_id ← col_ids self;
  replicate (Z.to_nat (default 0 (Table_get self row_id col_id (Some 0))))
            (col_id, row_id).

Definition to_flat (self : Table Z) : FlatTable :=
  let new_col_ids := [str_or (header_row_id self) "__column__";
                      str_or (header_col_id self) "__row__"] in
  let new_values := flat_rows self in
  mkFlatTable (seqZ 1 (Z.of_nat (length new_values))) new_col_ids new_values
    "__col__" "string" "__id__" "string"
    (list_to_map ((λ col_id, (col_id, "discrete")) <$> new_col_ids))
    None (missing self) None
    (<[str_or (header_col_id self) "__row__" := 1%nat]>
       {[str_or (header_row_id self) "__column__" := 0%nat]}).

(** The loop of FlatCrosstab.to_weighted_flat: runs of identical
    consecutive rows are counted. [self.values[row_id - 1, :]] raises
    IndexError out of range. *)
Fixpoint to_weighted_flat_loop (row_ids : list Z) (vals : list (string * string))
    (previous_row : option (string * string)) (previous_count : Z)
    (new_values : list (string * string * Z))
    : result (option (string * string) * Z * list (string * string * Z)) :=
  match row_ids with
  | [] => Returns (previous_row, previous_count, new_values)
  | row_id :: rest =>
      result_bind (of_option IndexError (py_index vals (row_id - 1))) (λ row,
      if bool_decide (previous_row = Some row)
      then to_weighted_flat_loop rest vals previous_row (previous_count + 1)
             new_values
      else
        let new_values :=
          match previous_row with
          | Some p => if decide (previous_count > 0)
                      then new_values ++ [(p.1, p.2, previous_count)]
                      else new_values
          | None => new_values
          end in
        to_weighted_flat_loop rest vals (Some row) 1 new_values)
  end.

(** FlatCrosstab.to_weighted_flat; after the loop, [previous_row[0]] is a
    TypeError when there was no row at all. *)
Definition FlatCrosstab_to_weighted_flat (self : FlatTable) : result (WeightedFlat Z) :=
  result_bind (to_weighted_flat_loop (f_row_ids self) (f_values self) None 0 [])
    (λ st,
  let '(previous_row, previous_count, new_values) := st in
  match previous_row with
  | None => Raises TypeError
  | Some p =>
      let new_values := new_values ++ [(p.1, p.2, previous_count)] in
      let new_row_ids := seqZ 1 (Z.of_nat (length new_values)) in
      let new_col_ids := f_col_ids self ++ ["__weight__"] in
      Returns (mkWeightedFlat IntWeightedFlatCrosstab new_row_ids new_col_ids
                 (Some <$> new_values)
                 (f_header_row_id self) (f_header_row_type self)
                 (f_header_col_id self) (f_header_col_type self)
                 (<["__weight__" := "continuous"]> (f_col_type self))
                 None (f_missing self) (f_cached_row_id self)
                 (mapping_of new_col_ids))
  end).

(** The rows that a list of weighted rows stands for. *)
Definition expand_rows (rows : list (string * string * Z)) : list (string * string) :=
  r ← rows; replicate (Z.to_nat r.2) (r.1.1, r.1.2).

(** No two consecutive elements are equal. *)
Definition no_adjacent_dups {A : Type} (l : list A) : Prop :=
  ∀ (i : nat) x y, l !! i = Some x → l !! S i = Some y → x ≠ y.

(* ===================================================================== *)
(** * Part II: properties                                                 *)
(* ===================================================================== *)

(** ** float64 arithmetic *)

Lemma digits2_pos_bounds (m : positive) :
  2 ^ (Z.pos (SpecFloat.digits2_pos m) - 1) ≤ Z.pos m
  < 2 ^ Z.pos (SpecFloat.digits2_pos m).
Proof.
  induction m as [m IH|m IH|]; cbn [SpecFloat.digits2_pos].
  - rewrite Pos2Z.inj_succ.
    replace (Z.succ (Z.pos (SpecFloat.digits2_pos m)) - 1)
      with (Z.succ (Z.pos (SpecFloat.digits2_pos m) - 1)) by lia.
    rewrite !Z.pow_succ_r by lia. lia.
  - rewrite Pos2Z.inj_succ.
    replace (Z.succ (Z.pos (SpecFloat.digits2_pos m)) - 1)
      with (Z.succ (Z.pos (SpecFloat.digits2_pos m) - 1)) by lia.
    rewrite !Z.pow_succ_r by lia. lia.
  - simpl. lia.
Qed.

(** The number of binary digits of a positive integer is determined by
    the powers of two around it. *)
Lemma digits2_pos_unique (m : positive) (d : Z) :
  2 ^ (d - 1) ≤ Z.pos m < 2 ^ d → Z.pos (SpecFloat.digits2_pos m) = d.
Proof.
  intros [Hlo Hhi]. pose proof (digits2_pos_bounds m) as [Hlo' Hhi'].
  assert (0 < d).
  { destruct (decide (0 < d)); [done|].
    assert (2 ^ d ≤ 2 ^ 0) by (apply Z.pow_le_mono_r; lia). simpl in *. lia. }
  assert (d - 1 < Z.pos (SpecFloat.digits2_pos m)).
  { apply (Z.pow_lt_mono_r_iff 2); lia. }
  assert (Z.pos (SpecFloat.digits2_pos m) - 1 < d).
  { apply (Z.pow_lt_mono_r_iff 2); lia. }
  lia.
Qed.

Lemma pos_iter_xO (m p : positive) :
  Z.pos (Pos.iter xO m p) = Z.pos m * 2 ^ Z.pos p.
Proof.
  induction p as [|p IH] using Pos.peano_ind.
  - simpl. lia.
  - rewrite Pos.iter_succ, Pos2Z.inj_succ, Z.pow_succ_r by lia.
    rewrite Pos2Z.inj_xO, IH. lia.
Qed.

Lemma shr_1_m (r : SpecFloat.shr_record) :
  0 ≤ SpecFloat.shr_m r →
  SpecFloat.shr_m (SpecFloat.shr_1 r) = SpecFloat.shr_m r `div` 2.
Proof.
  destruct r as [m r s]. cbn [SpecFloat.shr_m]. intros Hm.
  destruct m as [|[p|p|]|p]; cbn [SpecFloat.shr_1 SpecFloat.shr_m]; try lia.
  - done.
  - rewrite Pos2Z.inj_xI. apply (Z.div_unique _ _ _ 1); lia.
  - rewrite Pos2Z.inj_xO. apply (Z.div_unique _ _ _ 0); lia.
  - done.
Qed.

Lemma pow2_xO (p : positive) : 2 ^ Z.pos p~0 = 2 ^ Z.pos p * 2 ^ Z.pos p.
Proof. rewrite <- Z.pow_add_r by lia. f_equal. lia. Qed.

Lemma pow2_xI (p : positive) : 2 ^ Z.pos p~1 = 2 * (2 ^ Z.pos p * 2 ^ Z.pos p).
Proof.
  rewrite <- Z.pow_add_r, <- Z.pow_succ_r by lia. f_equal. lia.
Qed.

Lemma iter_pos_shr_1_m (p : positive) (r : SpecFloat.shr_record) :
  0 ≤ SpecFloat.shr_m r →
  SpecFloat.shr_m (SpecFloat.iter_pos SpecFloat.shr_1 p r)
  = SpecFloat.shr_m r `div` 2 ^ Z.pos p.
Proof.
  revert r. induction p as [p IH|p IH|]; intros r Hr; cbn [SpecFloat.iter_pos].
  - assert (0 ≤ SpecFloat.shr_m (SpecFloat.shr_1 r)) as H1.
    { rewrite shr_1_m by done. apply Z.div_pos; lia. }
    assert (0 ≤ SpecFloat.shr_m (SpecFloat.iter_pos SpecFloat.shr_1 p (SpecFloat.shr_1 r))) as H2.
    { rewrite IH by done. apply Z.div_pos; lia. }
    rewrite IH, IH, shr_1_m by done.
    rewrite !Z.div_div by lia. by rewrite pow2_xI.
  - assert (0 ≤ SpecFloat.shr_m (SpecFloat.iter_pos SpecFloat.shr_1 p r)) as H2.
    { rewrite IH by done. apply Z.div_pos; lia. }
    rewrite IH, IH by done. rewrite Z.div_div by lia. by rewrite pow2_xO.
  - by rewrite shr_1_m.
Qed.

(** One alignment step of the rounding: a positive mantissa m with
    exponent e is shifted right until its exponent is the one that the
    format gives to numbers of its magnitude. *)
Lemma shr_fexp_spec (m e : Z) (l : SpecFloat.location) :
  0 < m →
  let e1 := Z.max e (SpecFloat.fexp 53 1024 (SpecFloat.Zdigits2 m + e)) in
  (SpecFloat.shr_fexp 53 1024 m e l).2 = e1
  ∧ SpecFloat.shr_m (SpecFloat.shr_fexp 53 1024 m e l).1 = m `div` 2 ^ (e1 - e)
  ∧ (e1 = e →
     (SpecFloat.shr_fexp 53 1024 m e l).1 = SpecFloat.shr_record_of_loc m l).
Proof.
  intros Hm e1. unfold SpecFloat.shr_fexp, SpecFloat.shr.
  fold e1.
  assert (SpecFloat.shr_m (SpecFloat.shr_record_of_loc m l) = m) as Hrec.
  { by destruct l as [|[]]. }
  destruct (SpecFloat.fexp 53 1024 (SpecFloat.Zdigits2 m + e) - e) as [|n|n] eqn:En;
    cbn [fst snd].
  - assert (e1 = e) as -> by lia. rewrite Z.sub_diag, Hrec. simpl.
    by rewrite Z.div_1_r.
  - assert (e1 = e + Z.pos n) as -> by lia. split; [done|]. split; [|lia].
    rewrite iter_pos_shr_1_m by lia. rewrite Hrec. f_equal. f_equal. lia.
  - assert (e1 = e) as -> by lia. rewrite Z.sub_diag, Hrec. simpl.
    by rewrite Z.div_1_r.
Qed.

Lemma Zdigits2_bounds (m : Z) :
  0 < m → 2 ^ (SpecFloat.Zdigits2 m - 1) ≤ m < 2 ^ SpecFloat.Zdigits2 m.
Proof. destruct m as [|p|p]; try lia. intros _. apply digits2_pos_bounds. Qed.

Lemma Zdigits2_le (m : Z) (d : Z) :
  0 < m → 0 ≤ d → m < 2 ^ d → SpecFloat.Zdigits2 m ≤ d.
Proof.
  intros Hm Hd Hlt. pose proof (Zdigits2_bounds m Hm) as [Hlo _].
  assert (SpecFloat.Zdigits2 m - 1 < d); [|lia].
  apply (Z.pow_lt_mono_r_iff 2); lia.
Qed.

Lemma round_nearest_even_bounds (m : Z) (l : SpecFloat.location) :
  m ≤ SpecFloat.round_nearest_even m l ≤ m + 1.
Proof.
  unfold SpecFloat.round_nearest_even.
  destruct l as [|[]]; try destruct (Z.even m); lia.
Qed.

Lemma fexp_eq (x : Z) : SpecFloat.fexp 53 1024 x = Z.max (x - 53) (-1074).
Proof. done. Qed.

Lemma shr_fexp_pos (m e : Z) (l : SpecFloat.location) :
  0 < m → -1074 ≤ e →
  let r := SpecFloat.shr_fexp 53 1024 m e l in
  r.2 = Z.max e (SpecFloat.fexp 53 1024 (SpecFloat.Zdigits2 m + e))
  ∧ 0 < SpecFloat.shr_m r.1 < 2 ^ (SpecFloat.Zdigits2 m - (r.2 - e)).
Proof.
  intros Hm He r.
  destruct (shr_fexp_spec m e l Hm) as (H2 & H1 & _). fold r in H1, H2.
  pose proof (Zdigits2_bounds m Hm) as [Hlo Hhi].
  assert (1 ≤ SpecFloat.Zdigits2 m) as Hd.
  { destruct m; try lia. simpl. lia. }
  split; [done|]. rewrite H1, H2. rewrite fexp_eq.
  set (d := SpecFloat.Zdigits2 m) in *.
  set (n := Z.max e (Z.max (d + e - 53) (-1074)) - e).
  assert (0 ≤ n ≤ d - 1) as Hn by lia.
  assert (2 ^ n ≤ 2 ^ (d - 1)) by (apply Z.pow_le_mono_r; lia).
  assert (0 < 2 ^ n) by (apply Z.pow_pos_nonneg; lia).
  split.
  - apply Z.div_str_pos. lia.
  - apply Z.div_lt_upper_bound; [done|].
    rewrite <- Z.pow_add_r by lia. replace (n + (d - n)) with d by lia. done.
Qed.

(** Rounding a positive number m * 2^e whose exponent is not below the
    smallest one: the result is never a zero, and its exponent is bounded
    by the magnitude of the number. *)
Lemma binary_round_aux_spec (sx : bool) (m e : Z) (l : SpecFloat.location) :
  0 < m → -1074 ≤ e →
  ∃ (p : positive) (e' : Z),
    SpecFloat.binary_round_aux 53 1024 sx m e l
    = (if e' <=? 971 then SpecFloat.S754_finite sx p e'
       else SpecFloat.S754_infinity sx)
    ∧ e ≤ e' ≤ Z.max e (SpecFloat.fexp 53 1024 (SpecFloat.Zdigits2 m + e + 1)).
Proof.
  intros Hm He. unfold SpecFloat.binary_round_aux.
  pose proof (shr_fexp_pos m e l Hm He) as H1. cbv zeta in H1.
  destruct (SpecFloat.shr_fexp 53 1024 m e l) as [mrs1 e1]. cbn [fst snd] in H1.
  destruct H1 as (He1 & Hm1lo & Hm1hi).
  set (m2 := SpecFloat.round_nearest_even (SpecFloat.shr_m mrs1)
               (SpecFloat.loc_of_shr_record mrs1)).
  pose proof (round_nearest_even_bounds (SpecFloat.shr_m mrs1)
                (SpecFloat.loc_of_shr_record mrs1)) as Hr. fold m2 in Hr.
  assert (0 < m2) as Hm2 by lia.
  assert (-1074 ≤ e1) as He1' by lia.
  pose proof (shr_fexp_pos m2 e1 SpecFloat.loc_Exact Hm2 He1') as H2. cbv zeta in H2.
  destruct (SpecFloat.shr_fexp 53 1024 m2 e1 SpecFloat.loc_Exact) as [mrs2 e2].
  cbn [fst snd] in H2. destruct H2 as (He2 & Hm2lo & _).
  destruct (SpecFloat.shr_m mrs2) as [|p|p]; [lia| |lia].
  exists p, e2. split; [done|].
  set (d := SpecFloat.Zdigits2 m) in *.
  assert (1 ≤ d) as Hd.
  { unfold d. destruct m; try lia. simpl. lia. }
  assert (0 ≤ d - (e1 - e)) as Hn.
  { destruct (decide (0 ≤ d - (e1 - e))); [done|].
    rewrite Z.pow_neg_r in Hm1hi by lia. lia. }
  assert (SpecFloat.Zdigits2 m2 ≤ d - (e1 - e) + 1) as Hd2.
  { apply Zdigits2_le; [done|lia|]. rewrite Z.pow_add_r by lia.
    change (2 ^ 1) with 2. lia. }
  rewrite He2, !fexp_eq. rewrite fexp_eq in He1. lia.
Qed.

(** The same for a mantissa that may be 0: the result is a zero or a
    finite number when the magnitude is within the range of the format. *)
Lemma shr_fexp_zero (e : Z) (l : SpecFloat.location) :
  -1074 ≤ e →
  SpecFloat.shr_fexp 53 1024 0 e l = (SpecFloat.shr_record_of_loc 0 l, e).
Proof.
  intros He. unfold SpecFloat.shr_fexp. cbn [SpecFloat.Zdigits2].
  rewrite Z.add_0_l, fexp_eq.
  assert (Z.max (e - 53) (-1074) - e ≤ 0) as Hn by lia.
  by destruct (Z.max (e - 53) (-1074) - e) as [|n|n]; [|lia|].
Qed.

Lemma binary_round_aux_finite (sx : bool) (m e : Z) (l : SpecFloat.location) :
  0 ≤ m → -1074 ≤ e →
  Z.max e (SpecFloat.fexp 53 1024 (SpecFloat.Zdigits2 m + e + 1)) ≤ 971 →
  f64_is_finite (SpecFloat.binary_round_aux 53 1024 sx m e l) = true.
Proof.
  intros Hm He Hmax. destruct (decide (m = 0)) as [->|Hne].
  - unfold SpecFloat.binary_round_aux. rewrite shr_fexp_zero by done.
    set (m2 := SpecFloat.round_nearest_even _ _).
    assert (m2 = 0 ∨ m2 = 1) as [->| ->] by (by destruct l as [|[]]; [left|left|left|right]).
    + by rewrite shr_fexp_zero.
    + pose proof (shr_fexp_pos 1 e SpecFloat.loc_Exact ltac:(lia) He) as H2.
      cbv zeta in H2.
      destruct (SpecFloat.shr_fexp 53 1024 1 e SpecFloat.loc_Exact) as [mrs2 e2].
      cbn [fst snd] in H2. destruct H2 as (He2 & Hlo & _).
      destruct (SpecFloat.shr_m mrs2) as [|p|p]; [lia| |lia].
      rewrite fexp_eq in He2. cbn [SpecFloat.Zdigits2 SpecFloat.digits2_pos] in He2.
      rewrite fexp_eq in Hmax. change (1024 - 53) with 971.
      destruct (e2 <=? 971) eqn:E; [done|lia].
  - destruct (binary_round_aux_spec sx m e l) as (p & e' & -> & He'); [lia|done|].
    destruct (e' <=? 971) eqn:E; [done|lia].
Qed.

(** The quotient of two positive integers a and b, as SFdiv computes it
    before rounding: the integer quotient of a * 2^s by b. *)
Lemma SFdiv_core_binary_spec (a b : positive) :
  let d1 := Z.pos (SpecFloat.digits2_pos a) in
  let d2 := Z.pos (SpecFloat.digits2_pos b) in
  let s := - Z.min (SpecFloat.fexp 53 1024 (d1 - d2)) 0 in
  ∃ l, SpecFloat.SFdiv_core_binary 53 1024 (Z.pos a) 0 (Z.pos b) 0
       = ((Z.pos a * 2 ^ s) `div` Z.pos b, - s, l).
Proof.
  intros d1 d2 s. unfold SpecFloat.SFdiv_core_binary.
  cbn [SpecFloat.Zdigits2]. rewrite !Z.add_0_r, Z.sub_diag. fold d1 d2.
  replace (0 - Z.min (SpecFloat.fexp 53 1024 (d1 - d2)) 0) with s by (unfold s; lia).
  replace (Z.min (SpecFloat.fexp 53 1024 (d1 - d2)) 0) with (- s) by (unfold s; lia).
  assert (0 ≤ s) as Hs by (unfold s; lia).
  assert (match s with
          | 0 => Z.pos a
          | Z.pos _ => Z.shiftl (Z.pos a) s
          | Z.neg _ => 0
          end = Z.pos a * 2 ^ s) as ->.
  { destruct s as [|p|p] eqn:Es; [simpl; lia| |lia].
    by rewrite Z.shiftl_mul_pow2. }
  unfold Z.div.
  destruct (IntDef.Z.div_eucl (Z.pos a * 2 ^ s) (Z.pos b)) as [q r]. by eexists.
Qed.

(** The quotient of two non-zero integers, rounded to float64, is not a
    zero when the divisor is below 2^1074 in magnitude. *)
Lemma f64_div_exact_int_nonzero (sa sb : bool) (a b : positive) :
  Z.pos b < 2 ^ 1074 →
  ∃ (p : positive) (e : Z),
    f64_div (SpecFloat.S754_finite sa a 0) (SpecFloat.S754_finite sb b 0)
    = (if e <=? 971 then SpecFloat.S754_finite (xorb sa sb) p e
       else SpecFloat.S754_infinity (xorb sa sb)).
Proof.
  intros Hb. unfold f64_div, SpecFloat.SFdiv.
  destruct (SFdiv_core_binary_spec a b) as [l ->]. cbv zeta.
  set (d1 := Z.pos (SpecFloat.digits2_pos a)).
  set (d2 := Z.pos (SpecFloat.digits2_pos b)).
  set (s := - Z.min (SpecFloat.fexp 53 1024 (d1 - d2)) 0).
  pose proof (digits2_pos_bounds a) as [Ha1 Ha2].
  pose proof (digits2_pos_bounds b) as [Hb1 Hb2]. fold d1 in Ha1, Ha2. fold d2 in Hb1, Hb2.
  assert (d2 ≤ 1074) as Hd2.
  { destruct (decide (d2 ≤ 1074)); [done|].
    assert (2 ^ 1074 ≤ 2 ^ (d2 - 1)) by (apply Z.pow_le_mono_r; lia). lia. }
  assert (1 ≤ d1) by (unfold d1; lia).
  assert (0 ≤ s ∧ d2 ≤ d1 - 1 + s) as [Hs Hds] by (unfold s; rewrite fexp_eq; lia).
  destruct (binary_round_aux_spec (xorb sa sb)
              ((Z.pos a * 2 ^ s) `div` Z.pos b) (- s) l) as (p & e & -> & _).
  - apply Z.div_str_pos. split; [lia|].
    assert (2 ^ d2 ≤ 2 ^ (d1 - 1 + s)) by (apply Z.pow_le_mono_r; lia).
    rewrite Z.pow_add_r in * by lia. nia.
  - unfold s. rewrite fexp_eq. lia.
  - by exists p, e.
Qed.

(** It is a finite number or a zero (no overflow) when the dividend is
    not larger than the divisor. *)
Lemma f64_div_exact_int_finite (a b : Z) :
  0 ≤ a ≤ b → 0 < b →
  f64_is_finite (f64_div (exact_int a) (exact_int b)) = true.
Proof.
  intros Hab Hb0. destruct b as [|b|b]; try lia.
  destruct a as [|a|a]; try lia; [done|].
  unfold f64_div, exact_int, SpecFloat.SFdiv.
  destruct (SFdiv_core_binary_spec a b) as [l ->]. cbv zeta.
  set (d1 := Z.pos (SpecFloat.digits2_pos a)).
  set (d2 := Z.pos (SpecFloat.digits2_pos b)).
  set (s := - Z.min (SpecFloat.fexp 53 1024 (d1 - d2)) 0).
  assert (0 ≤ s ≤ 1074) as Hs by (unfold s; rewrite fexp_eq; lia).
  assert (0 < 2 ^ s) by (apply Z.pow_pos_nonneg; lia).
  set (q := (Z.pos a * 2 ^ s) `div` Z.pos b).
  assert (0 ≤ q ≤ 2 ^ s) as Hq.
  { unfold q. split; [apply Z.div_pos; lia|].
    apply Z.div_le_upper_bound; [lia|]. nia. }
  apply binary_round_aux_finite; [lia|lia|].
  assert (SpecFloat.Zdigits2 q ≤ s + 1) as Hdq.
  { destruct (decide (q = 0)) as [->|]; [simpl; lia|].
    apply Zdigits2_le; [lia|lia|]. rewrite Z.pow_add_r by lia.
    change (2 ^ 1) with 2. lia. }
  rewrite fexp_eq. lia.
Qed.

(** A 53-bit mantissa is neither shifted nor rounded. *)
Lemma shr_fexp_canonical (p : positive) (e : Z) :
  Z.pos (SpecFloat.digits2_pos p) = 53 → -1074 ≤ e →
  SpecFloat.shr_fexp 53 1024 (Z.pos p) e SpecFloat.loc_Exact
  = (SpecFloat.shr_record_of_loc (Z.pos p) SpecFloat.loc_Exact, e).
Proof.
  intros Hd He.
  destruct (shr_fexp_spec (Z.pos p) e SpecFloat.loc_Exact) as (H2 & _ & H1); [lia|].
  cbn [SpecFloat.Zdigits2] in H1, H2. rewrite Hd, fexp_eq in H1, H2.
  rewrite (surjective_pairing (SpecFloat.shr_fexp _ _ _ _ _)).
  rewrite H1, H2 by lia. f_equal. lia.
Qed.

Lemma binary_round_aux_canonical (sx : bool) (p : positive) (e : Z) :
  Z.pos (SpecFloat.digits2_pos p) = 53 → -1074 ≤ e ≤ 971 →
  SpecFloat.binary_round_aux 53 1024 sx (Z.pos p) e SpecFloat.loc_Exact
  = SpecFloat.S754_finite sx p e.
Proof.
  intros Hd He. unfold SpecFloat.binary_round_aux.
  rewrite shr_fexp_canonical by (done || lia).
  cbn [SpecFloat.shr_record_of_loc SpecFloat.shr_m SpecFloat.loc_of_shr_record
       SpecFloat.round_nearest_even].
  rewrite shr_fexp_canonical by (done || lia).
  cbn [SpecFloat.shr_record_of_loc SpecFloat.shr_m].
  change (1024 - 53) with 971. destruct (e <=? 971) eqn:E; [done|lia].
Qed.

(** [float(n)] is exact for an integer n below 2^53: it is n * 2^(-e)
    with the exponent e. *)
Lemma binary_round_small (sx : bool) (m : positive) :
  Z.pos m < 2 ^ 53 →
  ∃ (p : positive) (e : Z),
    SpecFloat.binary_round 53 1024 sx m 0 = SpecFloat.S754_finite sx p e
    ∧ -53 < e ≤ 0 ∧ Z.pos p = Z.pos m * 2 ^ (- e).
Proof.
  intros Hm. pose proof (digits2_pos_bounds m) as [Hlo Hhi].
  set (d := Z.pos (SpecFloat.digits2_pos m)) in *.
  assert (1 ≤ d ≤ 53) as Hd.
  { split; [unfold d; lia|]. destruct (decide (d ≤ 53)); [done|].
    assert (2 ^ 53 ≤ 2 ^ (d - 1)) by (apply Z.pow_le_mono_r; lia). lia. }
  unfold SpecFloat.binary_round, SpecFloat.shl_align. fold d.
  rewrite Z.add_0_r, fexp_eq, Z.sub_0_r.
  replace (Z.max (d - 53) (-1074)) with (d - 53) by lia.
  destruct (d - 53) as [|k|k] eqn:Ek; [|lia|].
  - exists m, 0. rewrite binary_round_aux_canonical by (fold d; lia).
    split; [done|]. split; [lia|]. simpl. lia.
  - exists (Pos.iter xO m k), (Z.neg k).
    assert (Z.pos (Pos.iter xO m k) = Z.pos m * 2 ^ Z.pos k) as Hmz by apply pos_iter_xO.
    rewrite binary_round_aux_canonical; [| |lia].
    + split; [done|]. split; [lia|]. by rewrite Hmz.
    + apply digits2_pos_unique. rewrite Hmz.
      assert (2 ^ (53 - 1) = 2 ^ (d - 1) * 2 ^ Z.pos k) as ->.
      { rewrite <- Z.pow_add_r by lia. f_equal. lia. }
      assert (2 ^ 53 = 2 ^ d * 2 ^ Z.pos k) as ->.
      { rewrite <- Z.pow_add_r by lia. f_equal. lia. }
      assert (0 < 2 ^ Z.pos k) by (apply Z.pow_pos_nonneg; lia). nia.
Qed.

(** [x - 0.0] is x. *)
Lemma f64_sub_zero (x : float64) : f64_sub x f64_zero = x.
Proof. by destruct x as [[]|[]| |]. Qed.

Lemma binary_round_nonzero (sx : bool) (m : positive) :
  f64_is_zero (SpecFloat.binary_round 53 1024 sx m 0) = false.
Proof.
  unfold SpecFloat.binary_round, SpecFloat.shl_align.
  rewrite Z.add_0_r, fexp_eq, Z.sub_0_r.
  set (d := Z.pos (SpecFloat.digits2_pos m)).
  destruct (Z.max (d - 53) (-1074)) as [|k|k] eqn:Ek.
  - destruct (binary_round_aux_spec sx (Z.pos m) 0 SpecFloat.loc_Exact)
      as (p & e & -> & _); [lia|lia|].
    by destruct (e <=? 971), sx.
  - destruct (binary_round_aux_spec sx (Z.pos m) 0 SpecFloat.loc_Exact)
      as (p & e & -> & _); [lia|lia|].
    by destruct (e <=? 971), sx.
  - destruct (binary_round_aux_spec sx (Z.pos (Pos.iter xO m k)) (Z.neg k)
                SpecFloat.loc_Exact) as (p & e & -> & _); [lia|lia|].
    by destruct (e <=? 971), sx.
Qed.

(** [float(n) == 0] only for n = 0. *)
Lemma f64_of_int_nonzero (z : Z) : z ≠ 0 → f64_is_zero (f64_of_int z) = false.
Proof.
  intros Hz. destruct z as [|m|m]; [done| |]; apply binary_round_nonzero.
Qed.

(** An integer of magnitude up to 2^53 passes through float64 unchanged. *)
Lemma f64_of_int_exact (z : Z) :
  - 2 ^ 53 ≤ z ≤ 2 ^ 53 → f64_to_int64 (f64_of_int z) = z.
Proof.
  intros Hz.
  destruct (decide (z = 2 ^ 53)) as [->|]; [by vm_compute|].
  destruct (decide (z = - 2 ^ 53)) as [->|]; [by vm_compute|].
  destruct z as [|m|m]; [done| |].
  - destruct (binary_round_small false m) as (p & e & E & He & Hp); [lia|].
    unfold f64_of_int. cbn [SpecFloat.binary_normalize]. rewrite E.
    unfold f64_to_int64, f64_trunc.
    assert ((if decide (0 ≤ e) then Z.pos p * 2 ^ e else Z.pos p `div` 2 ^ (- e))
            = Z.pos m) as ->.
    { destruct (decide (0 ≤ e)).
      - assert (e = 0) as -> by lia. simpl in *. lia.
      - rewrite Hp. apply Z.div_mul. apply Z.pow_nonzero; lia. }
    rewrite decide_True; [done|]. lia.
  - destruct (binary_round_small true m) as (p & e & E & He & Hp); [lia|].
    unfold f64_of_int. cbn [SpecFloat.binary_normalize]. rewrite E.
    unfold f64_to_int64, f64_trunc.
    assert ((if decide (0 ≤ e) then Z.pos p * 2 ^ e else Z.pos p `div` 2 ^ (- e))
            = Z.pos m) as ->.
    { destruct (decide (0 ≤ e)).
      - assert (e = 0) as -> by lia. simpl in *. lia.
      - rewrite Hp. apply Z.div_mul. apply Z.pow_nonzero; lia. }
    rewrite decide_True; [done|]. lia.
Qed.

(** [float(n)] does not overflow for a natural number below 2^53. *)
Lemma py_float_small (n : Z) :
  0 ≤ n < 2 ^ 53 → py_float (PyInt n) = Returns (f64_of_int n).
Proof.
  intros Hn. unfold py_float. destruct n as [|m|m]; [done| |lia].
  destruct (binary_round_small false m) as (p & e & E & _); [lia|].
  unfold f64_of_int. cbn [SpecFloat.binary_normalize]. by rewrite E.
Qed.

(** Rounding a mantissa of at least 53 bits gives a normal number: its
    mantissa has exactly 53 bits, and its exponent is the one of the
    magnitude, or the next one when the rounding carries. *)
Lemma binary_round_aux_normal (sx : bool) (m e : Z) (l : SpecFloat.location) :
  0 < m → 53 ≤ SpecFloat.Zdigits2 m → -1074 ≤ e →
  ∃ (p : positive) (e' : Z),
    SpecFloat.binary_round_aux 53 1024 sx m e l
    = (if e' <=? 971 then SpecFloat.S754_finite sx p e'
       else SpecFloat.S754_infinity sx)
    ∧ 2 ^ 52 ≤ Z.pos p < 2 ^ 53
    ∧ SpecFloat.Zdigits2 m + e - 53 ≤ e' ≤ SpecFloat.Zdigits2 m + e - 52.
Proof.
  intros Hm Hd He. unfold SpecFloat.binary_round_aux.
  pose proof (Zdigits2_bounds m Hm) as [Hlo Hhi].
  set (d := SpecFloat.Zdigits2 m) in *.
  destruct (shr_fexp_spec m e l Hm) as (He1 & Hm1 & _). fold d in He1, Hm1.
  destruct (SpecFloat.shr_fexp 53 1024 m e l) as [mrs1 e1]. cbn [fst snd] in He1, Hm1.
  rewrite fexp_eq in He1, Hm1.
  assert (e1 = d + e - 53) as -> by lia.
  replace (Z.max e (Z.max (d + e - 53) (-1074)) - e) with (d - 53) in Hm1 by lia.
  assert (0 < 2 ^ (d - 53)) by (apply Z.pow_pos_nonneg; lia).
  assert (2 ^ 52 ≤ SpecFloat.shr_m mrs1 < 2 ^ 53) as Hm1b.
  { rewrite Hm1.
    assert (2 ^ (d - 53) * 2 ^ 52 = 2 ^ (d - 1)) as E1.
    { rewrite <- Z.pow_add_r by lia. f_equal. lia. }
    assert (2 ^ (d - 53) * 2 ^ 53 = 2 ^ d) as E2.
    { rewrite <- Z.pow_add_r by lia. f_equal. lia. }
    split.
    - apply Z.div_le_lower_bound; [lia|]. by rewrite E1.
    - apply Z.div_lt_upper_bound; [lia|]. by rewrite E2. }
  set (m2 := SpecFloat.round_nearest_even (SpecFloat.shr_m mrs1)
               (SpecFloat.loc_of_shr_record mrs1)).
  pose proof (round_nearest_even_bounds (SpecFloat.shr_m mrs1)
                (SpecFloat.loc_of_shr_record mrs1)) as Hr. fold m2 in Hr.
  assert (0 < m2) as Hm2 by lia.
  destruct (shr_fexp_spec m2 (d + e - 53) SpecFloat.loc_Exact Hm2) as (He2 & Hm2' & _).
  destruct (SpecFloat.shr_fexp 53 1024 m2 (d + e - 53) SpecFloat.loc_Exact)
    as [mrs2 e2]. cbn [fst snd] in He2, Hm2'. rewrite fexp_eq in He2, Hm2'.
  assert (2 ^ 53 = 2 * 2 ^ 52) as E53 by done.
  destruct (decide (m2 < 2 ^ 53)) as [Hlt|Hge].
  - assert (SpecFloat.Zdigits2 m2 = 53) as Hd2.
    { destruct m2 as [|p2|p2]; try lia. apply digits2_pos_unique. simpl. lia. }
    rewrite Hd2 in He2, Hm2'. assert (e2 = d + e - 53) as -> by lia.
    replace (Z.max (d + e - 53) (Z.max (53 + (d + e - 53) - 53) (-1074))
             - (d + e - 53)) with 0 in Hm2' by lia.
    rewrite Z.div_1_r in Hm2'. rewrite Hm2'.
    destruct m2 as [|p2|p2]; try lia. exists p2, (d + e - 53).
    split; [done|]. split; [lia|lia].
  - assert (m2 = 2 ^ 53) as E by lia.
    assert (SpecFloat.Zdigits2 m2 = 54) as Hd2 by (by rewrite E).
    rewrite Hd2 in He2, Hm2'. assert (e2 = d + e - 53 + 1) as -> by lia.
    replace (Z.max (d + e - 53) (Z.max (54 + (d + e - 53) - 53) (-1074))
             - (d + e - 53)) with 1 in Hm2' by lia.
    rewrite E in Hm2'. change (2 ^ 53 `div` 2 ^ 1) with (2 ^ 52) in Hm2'.
    rewrite Hm2'. exists (Z.to_pos (2 ^ 52)), (d + e - 53 + 1).
    split; [done|]. split; [done|lia].
Qed.

(** The quotient of two positive mantissas, as SFdiv computes it before
    rounding: the integer quotient of a * 2^s by b. *)
Lemma SFdiv_core_binary_general (a b : positive) (e1 e2 : Z) :
  let d1 := Z.pos (SpecFloat.digits2_pos a) in
  let d2 := Z.pos (SpecFloat.digits2_pos b) in
  let e' := Z.min (SpecFloat.fexp 53 1024 (d1 + e1 - (d2 + e2))) (e1 - e2) in
  ∃ l, SpecFloat.SFdiv_core_binary 53 1024 (Z.pos a) e1 (Z.pos b) e2
       = ((Z.pos a * 2 ^ (e1 - e2 - e')) `div` Z.pos b, e', l).
Proof.
  intros d1 d2 e'. unfold SpecFloat.SFdiv_core_binary.
  cbn [SpecFloat.Zdigits2]. fold d1 d2. fold e'.
  assert (0 ≤ e1 - e2 - e') as Hs by (unfold e'; lia).
  assert (match e1 - e2 - e' with
          | 0 => Z.pos a
          | Z.pos _ => Z.shiftl (Z.pos a) (e1 - e2 - e')
          | Z.neg _ => 0
          end = Z.pos a * 2 ^ (e1 - e2 - e')) as ->.
  { destruct (e1 - e2 - e') as [|p|p] eqn:Es; [simpl; lia| |lia].
    by rewrite Z.shiftl_mul_pow2. }
  unfold Z.div.
  destruct (IntDef.Z.div_eucl (Z.pos a * 2 ^ (e1 - e2 - e')) (Z.pos b)) as [q r].
  by eexists.
Qed.

(** The quotient of two finite floats whose magnitudes are not too far
    apart is a normal number. *)
Lemma f64_div_normal (sa sb : bool) (a b : positive) (e1 e2 : Z) :
  let δ := Z.pos (SpecFloat.digits2_pos a) + e1
           - (Z.pos (SpecFloat.digits2_pos b) + e2) in
  -1021 ≤ δ → δ - 53 ≤ e1 - e2 →
  ∃ (p : positive) (e : Z),
    f64_div (SpecFloat.S754_finite sa a e1) (SpecFloat.S754_finite sb b e2)
    = (if e <=? 971 then SpecFloat.S754_finite (xorb sa sb) p e
       else SpecFloat.S754_infinity (xorb sa sb))
    ∧ 2 ^ 52 ≤ Z.pos p < 2 ^ 53
    ∧ δ - 53 ≤ e ≤ δ - 51.
Proof.
  intros δ Hδ1 Hδ2. unfold f64_div, SpecFloat.SFdiv.
  destruct (SFdiv_core_binary_general a b e1 e2) as [l ->]. cbv zeta.
  pose proof (digits2_pos_bounds a) as [Ha1 Ha2].
  pose proof (digits2_pos_bounds b) as [Hb1 Hb2].
  set (d1 := Z.pos (SpecFloat.digits2_pos a)) in *.
  set (d2 := Z.pos (SpecFloat.digits2_pos b)) in *.
  fold δ. rewrite fexp_eq.
  replace (Z.min (Z.max (δ - 53) (-1074)) (e1 - e2)) with (δ - 53) by lia.
  set (s := e1 - e2 - (δ - 53)).
  assert (s = 53 + d2 - d1) as Es by (unfold s, δ; lia).
  assert (1 ≤ d1 ∧ 1 ≤ d2) as [Hd1 Hd2] by (unfold d1, d2; lia).
  assert (0 ≤ s) as Hs by (unfold s; lia).
  set (q := (Z.pos a * 2 ^ s) `div` Z.pos b).
  assert (0 < 2 ^ s) by (apply Z.pow_pos_nonneg; lia).
  assert (2 ^ 52 ≤ q < 2 ^ 54) as Hq.
  { unfold q. split.
    - apply Z.div_le_lower_bound; [lia|].
      assert (2 ^ (d1 - 1) * 2 ^ s = 2 ^ 52 * 2 ^ d2) as E.
      { rewrite <- !Z.pow_add_r by lia. f_equal. lia. }
      nia.
    - apply Z.div_lt_upper_bound; [lia|].
      assert (2 ^ d1 * 2 ^ s = 2 ^ (d2 - 1) * 2 ^ 54) as E.
      { rewrite <- !Z.pow_add_r by lia. f_equal. lia. }
      nia. }
  assert (53 ≤ SpecFloat.Zdigits2 q ≤ 54) as Hdq.
  { pose proof (Zdigits2_bounds q ltac:(lia)) as [Hq1 Hq2].
    split.
    - assert (52 < SpecFloat.Zdigits2 q); [|lia].
      apply (Z.pow_lt_mono_r_iff 2); [lia| |lia].
      destruct q; try lia. simpl. lia.
    - apply Zdigits2_le; lia. }
  destruct (binary_round_aux_normal (xorb sa sb) q (δ - 53) l)
    as (p & e & -> & Hp & He); [lia|lia|lia|].
  exists p, e. split; [done|]. split; [done|lia].
Qed.

(** ** Segment equality (Segment.__eq__) *)

(** What [__eq__] computes: the receiver's raw [start] and [end] are
    compared with the argument's [start or 0] and [end or None]. *)
Lemma Segment_eq_spec (s t : Segment) :
  Segment_eq s t = true ↔
    str_index s = str_index t
    ∧ start s = Some (py_or (start t) 0)
    ∧ end_ s = py_or_None (end_ t).
Proof.
  unfold Segment_eq.
  rewrite !andb_true_iff, !bool_decide_eq_true. tauto.
Qed.

(** C2 (defect): a segment whose [start] is [None] is not equal to itself:
    [self.start == (other.start or 0)] compares [None] with [0]. *)
Theorem Segment_eq_None_start_irreflexive (k : Z) (e : option Z)
    (ann : gmap string string) :
  Segment_eq (mkSegment k None e ann) (mkSegment k None e ann) = false.
Proof.
  unfold Segment_eq; simpl.
  apply andb_false_intro1, andb_false_intro2. reflexivity.
Qed.

(** ** The str_index_ptr map under append and extend *)

(** C5 (defect): appending segments with str_index 0, 1, 0 leaves
    [str_index_ptr[0] = 2], although the first segment bearing str_index 0
    is at position 0; extending by the same segments one at a time keeps
    [str_index_ptr[0] = 0]. *)
Theorem append_overwrites_str_index_ptr :
  let S := build "s" [Append seg_a; Append seg_b; Append seg_c] in
  let S' := build "s" [Extend [seg_a]; Extend [seg_b]; Extend [seg_c]] in
  buffer S = [seg_a; seg_b; seg_c]
  ∧ first_position (buffer S) 0 = Some 0
  ∧ str_index_ptr S !! 0 = Some 2
  ∧ buffer S' = buffer S
  ∧ str_index_ptr S' !! 0 = Some 0.
Proof. vm_compute. repeat split; reflexivity. Qed.

(** ** Segmentation._sort *)

Lemma sorted_keys_singleton (k p : Z) : sorted_keys {[k := p]} = [k].
Proof. unfold sorted_keys. rewrite map_to_list_singleton. reflexivity. Qed.

(** A segmentation that refers to a single string is returned as it is,
    whatever the order of its segments. *)
Lemma _sort_single_str_index (S : Segmentation) (k p : Z) :
  str_index_ptr S = {[k := p]} → 0 ≤ p → _sort S = Some ReturnsSelf.
Proof.
  intros Hptr Hp. unfold _sort. rewrite Hptr, sorted_keys_singleton. simpl.
  rewrite lookup_singleton_eq. simpl.
  destruct (decide (p < 0)); [lia | reflexivity].
Qed.

(** C4 (defect): a segmentation with the single str_index 0 whose segments
    are [5,6) then [1,2) is returned unchanged by [_sort], so the result is
    not in (str_index, start, end) order. *)
Theorem _sort_keeps_unsorted_single_string :
  let S := Segmentation_of_list
             [mkSegment 0 (Some 5) (Some 6) ∅; mkSegment 0 (Some 1) (Some 2) ∅] "s" in
  ∃ r, _sort S = Some r
       ∧ r = ReturnsSelf
       ∧ buffer (sort_value S r)
         = [mkSegment 0 (Some 5) (Some 6) ∅; mkSegment 0 (Some 1) (Some 2) ∅].
Proof.
  intros S. exists ReturnsSelf. split; [|split; reflexivity].
  apply (_sort_single_str_index S 0 0); [reflexivity | lia].
Qed.

(** ** Segment.get_contained_segments *)

Lemma py_index_nat {A : Type} (l : list A) (i : nat) :
  py_index l (Z.of_nat i) = l !! i.
Proof.
  unfold py_index. destruct (decide (0 ≤ Z.of_nat i)); [|lia].
  by rewrite Nat2Z.id.
Qed.

Lemma seg_getitem_nat (B : Segmentation) (i : nat) :
  seg_getitem B (Z.of_nat i) = buffer B !! i.
Proof.
  unfold seg_getitem. destruct (decide (Z.of_nat i < 0)); [lia|].
  rewrite decide_True by lia. by rewrite Nat2Z.id.
Qed.

Lemma seg_getitem_pos (B : Segmentation) (z : Z) :
  0 ≤ z → seg_getitem B z = buffer B !! Z.to_nat z.
Proof. intros Hz. rewrite <- (Z2Nat.id z) at 1 by lia. apply seg_getitem_nat. Qed.

(** *** First positions *)

Lemma first_position_from_Some (l : list Segment) (k pos v : Z) :
  first_position_from l k pos = Some v →
  ∃ pre x rest, l = pre ++ x :: rest ∧ v = pos + Z.of_nat (length pre)
                ∧ str_index x = k ∧ Forall (λ y, str_index y ≠ k) pre.
Proof.
  revert pos. induction l as [|s l IH]; intros pos; simpl; [discriminate|].
  destruct (decide (str_index s = k)) as [Hs|Hs].
  - intros [= <-]. exists [], s, l. simpl. repeat split; [lia | done | constructor].
  - intros H. destruct (IH _ H) as (pre & x & rest & -> & -> & Hx & Hpre).
    exists (s :: pre), x, rest. simpl. repeat split; [lia | done |].
    by constructor.
Qed.

Lemma first_position_from_app (pre l : list Segment) (k pos : Z) :
  Forall (λ y, str_index y ≠ k) pre →
  first_position_from (pre ++ l) k pos
  = first_position_from l k (pos + Z.of_nat (length pre)).
Proof.
  revert pos. induction pre as [|s pre IH]; intros pos Hpre; simpl.
  - f_equal. lia.
  - inversion Hpre as [|? ? Hs Hpre']; subst.
    destruct (decide (str_index s = k)); [done|].
    rewrite IH by done. f_equal. lia.
Qed.

Lemma first_position_Some (l : list Segment) (k v : Z) :
  first_position l k = Some v →
  ∃ pre x rest, l = pre ++ x :: rest ∧ v = Z.of_nat (length pre)
                ∧ str_index x = k ∧ Forall (λ y, str_index y ≠ k) pre.
Proof.
  intros H. destruct (first_position_from_Some _ _ _ _ H)
    as (pre & x & rest & ? & ? & ? & ?).
  exists pre, x, rest. repeat split; first [done | lia].
Qed.

Lemma first_position_app_cons (pre : list Segment) (x : Segment) (rest : list Segment) :
  Forall (λ y, str_index y ≠ str_index x) pre →
  first_position (pre ++ x :: rest) (str_index x) = Some (Z.of_nat (length pre)).
Proof.
  intros Hpre. unfold first_position. rewrite first_position_from_app by done.
  simpl. destruct (decide (str_index x = str_index x)); [|done]. f_equal.
Qed.

(** *** Splitting off the run of one str_index *)

Lemma run_split (k : Z) (l : list Segment) :
  ∃ run post, l = run ++ post
    ∧ Forall (λ y, str_index y = k) run
    ∧ (post = [] ∨ ∃ c post', post = c :: post' ∧ str_index c ≠ k).
Proof.
  induction l as [|s l (run & post & -> & Hrun & Hpost)].
  - exists [], []. repeat split; [constructor | by left].
  - destruct (decide (str_index s = k)) as [Hs|Hs].
    + exists (s :: run), post. repeat split; [by constructor | done].
    + exists [], (s :: run ++ post). repeat split; [constructor |].
      right. by exists s, (run ++ post).
Qed.

(** *** The end of the run, as computed from the pointer map *)

Lemma foldr_min_lower (l : list Z) (len q : Z) :
  q ≤ len → Forall (λ v, q ≤ v) l → q ≤ foldr Z.min len l.
Proof. intros Hq Hl. induction Hl; simpl; lia. Qed.

Lemma foldr_min_upper (l : list Z) (len : Z) : foldr Z.min len l ≤ len.
Proof. induction l; simpl; lia. Qed.

Lemma foldr_min_elem (l : list Z) (len q : Z) : q ∈ l → foldr Z.min len l ≤ q.
Proof.
  induction l as [|v l IH]; simpl; intros Hq.
  - by apply elem_of_nil in Hq.
  - apply elem_of_cons in Hq as [->|Hq]; [lia|]. specialize (IH Hq). lia.
Qed.

Lemma get_end_search_spec (ptr : gmap Z Z) (p len q : Z) :
  q ≤ len →
  (∀ k v, ptr !! k = Some v → v > p → q ≤ v) →
  (q = len ∨ (q > p ∧ ∃ k, ptr !! k = Some q)) →
  get_end_search ptr p len = q.
Proof.
  intros Hq Hlow Hin. unfold get_end_search.
  set (l := filter (λ x, x > p) (map snd (map_to_list ptr))).
  assert (Hl : Forall (λ v, q ≤ v) l).
  { apply Forall_forall. intros v Hv. subst l.
    apply list_elem_of_filter in Hv as [Hvp Hv].
    apply list_elem_of_fmap in Hv as ([k v'] & -> & Hkv).
    apply elem_of_map_to_list in Hkv. by eapply Hlow. }
  pose proof (foldr_min_lower l len q Hq Hl) as H1.
  destruct Hin as [->|(Hqp & k & Hk)].
  - pose proof (foldr_min_upper l len). lia.
  - assert (q ∈ l).
    { subst l. apply list_elem_of_filter. split; [done|].
      apply list_elem_of_fmap. exists (k, q). split; [done|].
      by apply elem_of_map_to_list. }
    pose proof (foldr_min_elem l len q H). lia.
Qed.

(** *** The binary search *)

Lemma div2_between (ss es : Z) :
  es - ss > 1 → ss < (es + ss) `div` 2 < es.
Proof.
  intros H.
  pose proof (Z.div_mod (es + ss) 2 ltac:(lia)).
  pose proof (Z.mod_pos_bound (es + ss) 2 ltac:(lia)). lia.
Qed.

(** Fuel beyond the width of the searched interval is never used. *)
Lemma bsearch_loop_fuel (B : Segmentation) (st : Z) (f1 f2 : nat) (ss es : Z) :
  (Z.to_nat (es - ss) ≤ f1)%nat → (Z.to_nat (es - ss) ≤ f2)%nat →
  bsearch_loop f1 B st ss es = bsearch_loop f2 B st ss es.
Proof.
  revert f2 ss es. induction f1 as [|f1 IH]; intros f2 ss es H1 H2.
  - destruct f2; simpl; destruct (decide (es - ss > 1)); try done; lia.
  - destruct f2; simpl; destruct (decide (es - ss > 1)) as [Hgap|]; try done; [lia|].
    pose proof (div2_between ss es Hgap).
    destruct (seg_getitem B ((es + ss) `div` 2)) as [middle|]; simpl; [|done].
    destruct (decide (mstart middle >= st)); apply IH; lia.
Qed.

Lemma bsearch_loop_inv (B : Segmentation) (st p q : Z) (fuel : nat) (ss es : Z) :
  0 ≤ p → q ≤ seg_len B →
  p ≤ ss < es ∧ es ≤ q →
  (Z.to_nat (es - ss) ≤ fuel)%nat →
  (ss = p ∨ ∃ b, seg_getitem B ss = Some b ∧ mstart b < st) →
  (es = q ∨ ∃ b, seg_getitem B es = Some b ∧ st ≤ mstart b) →
  ∃ ss', bsearch_loop fuel B st ss es = Some (ss', ss' + 1)
       ∧ p ≤ ss' < q
       ∧ (ss' = p ∨ ∃ b, seg_getitem B ss' = Some b ∧ mstart b < st)
       ∧ (ss' + 1 = q ∨ ∃ b, seg_getitem B (ss' + 1) = Some b ∧ st ≤ mstart b).
Proof.
  intros Hp Hq. revert ss es.
  induction fuel as [|fuel IH]; intros ss es Hrange Hfuel Hlo Hhi.
  - simpl. destruct (decide (es - ss > 1)); [lia|].
    assert (es = ss + 1) as -> by lia.
    exists ss. repeat split; try done; lia.
  - simpl. destruct (decide (es - ss > 1)) as [Hgap|Hgap].
    + pose proof (div2_between ss es Hgap) as Hmid.
      set (mid := (es + ss) `div` 2) in *.
      assert (is_Some (seg_getitem B mid)) as [middle Hmiddle].
      { rewrite seg_getitem_pos by lia. apply lookup_lt_is_Some.
        unfold seg_len in Hq. lia. }
      rewrite Hmiddle. simpl.
      destruct (decide (mstart middle >= st)).
      * apply IH; [lia | lia | done |]. right. exists middle. split; [done | lia].
      * apply IH; [lia | lia | | done]. right. exists middle. split; [done | lia].
    + assert (es = ss + 1) as -> by lia.
      exists ss. repeat split; try done; lia.
Qed.

(** *** The final scan *)

Lemma contains_true_iff (data : list datum) (a b : Segment) (sl : Z) :
  get_data_len data (str_index a) = Some sl →
  contains data a b = Some true
  ↔ str_index a = str_index b ∧ mstart a ≤ mstart b ∧ mend sl b ≤ mend sl a.
Proof.
  intros Hlen. unfold contains. rewrite Hlen. simpl.
  destruct (decide (str_index a ≠ str_index b)) as [Hk|Hk].
  { split; [discriminate | intros (? & _); done]. }
  destruct (decide (mstart a > mstart b)).
  { split; [discriminate | intros (_ & ? & _); lia]. }
  destruct (decide (mend sl a < mend sl b)).
  { split; [discriminate | intros (_ & _ & ?); lia]. }
  split; [|done]. intros _. repeat split; [|lia|lia].
  destruct (decide (str_index a = str_index b)); done.
Qed.

Lemma filter_none {A : Type} (P : A → Prop) `{∀ x, Decision (P x)} (l : list A) :
  Forall (λ x, ¬ P x) l → filter P l = [].
Proof.
  induction 1 as [|x l Hx Hl IH]; [done|].
  by rewrite filter_cons_False.
Qed.

Lemma scan_loop_spec (data : list datum) (a : Segment) (sl : Z)
    (high post : list Segment) :
  get_data_len data (str_index a) = Some sl →
  Forall (λ b, str_index b = str_index a ∧ mstart a ≤ mstart b
               ∧ mstart b ≤ mend sl b) high →
  StronglySorted (λ x y, mstart x ≤ mstart y) high →
  Forall (λ b, str_index b ≠ str_index a) post →
  scan_loop (high ++ post) (str_index a) (mend sl a) sl
  = filter (λ b, contains data a b = Some true) (high ++ post).
Proof.
  intros Hlen Hhigh Hsorted Hpost.
  assert (Hpost' : filter (λ b, contains data a b = Some true) post = []).
  { apply filter_none. eapply Forall_impl; [exact Hpost|]. simpl.
    intros b Hb Hc. apply (contains_true_iff _ _ _ _ Hlen) in Hc.
    destruct Hc as [Hc _]. by apply Hb. }
  induction Hhigh as [|b high (Hk & Hst & Hwf) Hhigh IH]; simpl.
  - rewrite Hpost'. destruct post as [|c post]; [done|]. simpl.
    inversion Hpost; subst.
    destruct (decide (str_index a ≠ str_index c ∨ mstart c > mend sl a)) as [|Hn];
      [done|].
    exfalso. apply Hn. left. congruence.
  - inversion Hsorted as [|? ? Hsorted' Hall]; subst.
    destruct (decide (str_index a ≠ str_index b ∨ mstart b > mend sl a)) as [Hbr|Hbr].
    + destruct Hbr as [?|Hgt]; [congruence|].
      symmetry. rewrite filter_cons_False.
      2:{ intros Hc. apply (contains_true_iff _ _ _ _ Hlen) in Hc. lia. }
      rewrite filter_app, Hpost', app_nil_r. apply filter_none.
      apply Forall_forall. intros y Hy Hc.
      apply (contains_true_iff _ _ _ _ Hlen) in Hc.
      rewrite Forall_forall in Hall, Hhigh.
      specialize (Hall y Hy). destruct (Hhigh y Hy) as (_ & _ & ?). simpl in Hall. lia.
    + rewrite (IH Hsorted').
      destruct (decide (mend sl a >= mend sl b)).
      * rewrite filter_cons_True; [done|].
        apply (contains_true_iff _ _ _ _ Hlen). repeat split; [done | lia | lia].
      * rewrite filter_cons_False; [done|].
        intros Hc. apply (contains_true_iff _ _ _ _ Hlen) in Hc. lia.
Qed.

Lemma first_position_from_None (l : list Segment) (k pos : Z) :
  first_position_from l k pos = None → Forall (λ y, str_index y ≠ k) l.
Proof.
  revert pos. induction l as [|s l IH]; intros pos; simpl; [constructor|].
  destruct (decide (str_index s = k)); [done|].
  intros H. constructor; [done|]. by eapply IH.
Qed.

Lemma sorted_from_index (l : list Segment) :
  (∀ (i j : nat) x y, (i ≤ j)%nat → l !! i = Some x → l !! j = Some y →
     mstart x ≤ mstart y) →
  StronglySorted (λ x y, mstart x ≤ mstart y) l.
Proof.
  induction l as [|x l IH]; intros H; constructor.
  - apply IH. intros i j a b Hij Ha Hb. apply (H (S i) (S j)); [lia | done | done].
  - apply Forall_forall. intros y Hy.
    apply list_elem_of_lookup in Hy as [j Hj].
    apply (H 0%nat (S j)); [lia | done | done].
Qed.

(** C1 (amended): let [a] be a segment whose str_index resolves to a string
    of length [sl]. If the target segmentation B has no pointer for that
    str_index, the query returns the empty list. If B's pointer map gives
    first positions, the segments of each str_index are contiguous with
    ascending materialized starts, and no range of that string is inverted,
    the query returns exactly the segments of B, in B's order, that [a]
    contains: same str_index, and materialized range within the one of
    [a]. Nothing is asked of the segmentation [a] comes from. *)
Theorem get_contained_segments_correct (data : list datum) (a : Segment)
    (B : Segmentation) (sl : Z) :
  get_data_len data (str_index a) = Some sl →
  (str_index_ptr B !! str_index a = None →
     get_contained_segments data a B = Some [])
  ∧ (ptr_consistent B → contiguous (buffer B) → starts_ascending (buffer B) →
     ranges_ordered (buffer B) (str_index a) sl →
     get_contained_segments data a B
     = Some (filter (λ b, contains data a b = Some true) (buffer B))).
Proof.
  intros Hlen. split.
  - intros Hnone. unfold get_contained_segments, get_contained_segments_try.
    rewrite Hlen. simpl. rewrite Hnone. done.
  - intros Hptr Hcont Hasc Hwf.
    unfold get_contained_segments. rewrite Hlen. simpl.
    set (k := str_index a) in *. set (P := λ b, contains data a b = Some true).
    assert (HP : ∀ b, P b ↔ k = str_index b ∧ mstart a ≤ mstart b ∧ mend sl b ≤ mend sl a).
    { intros b. apply contains_true_iff. done. }
    destruct (str_index_ptr B !! k) as [p|] eqn:Hp.
    2:{ unfold get_contained_segments_try. fold k. rewrite Hp. simpl.
        f_equal. symmetry. apply filter_none.
        rewrite Hptr in Hp. apply first_position_from_None in Hp.
        eapply Forall_impl; [exact Hp|]. simpl. intros b Hb Hc. apply HP in Hc. destruct Hc as [Hc _]. by apply Hb. }
    pose proof Hp as Hp'. rewrite Hptr in Hp'.
    apply first_position_Some in Hp' as (pre & x & rest & Hbuf & -> & Hx & Hpre).
    destruct (run_split k (x :: rest)) as (run & post & Hrun_eq & Hrun & Hpost).
    destruct run as [|x' run'].
    { simpl in Hrun_eq. destruct Hpost as [->|(c & post' & -> & Hc)]; [done|].
      injection Hrun_eq as -> ->. done. }
    simpl in Hrun_eq. injection Hrun_eq as <- ->.
    set (run := x :: run') in *.
    assert (Hbuf' : buffer B = pre ++ run ++ post) by done.
    set (pn := length pre) in *. set (rn := length run).
    assert (Hrn : (0 < rn)%nat) by (subst rn run; simpl; lia).
    assert (Hblen : length (buffer B) = (pn + rn + length post)%nat).
    { rewrite Hbuf', !length_app. subst pn rn. lia. }
    assert (F0 : ∀ i y, pre !! i = Some y → buffer B !! i = Some y).
    { intros i y Hy. rewrite Hbuf'. by apply lookup_app_l_Some. }
    assert (F1 : ∀ i y, run !! i = Some y → buffer B !! (pn + i)%nat = Some y).
    { intros i y Hy. rewrite Hbuf', lookup_app_r by (subst pn; lia).
      replace (pn + i - length pre)%nat with i by (subst pn; lia).
      by apply lookup_app_l_Some. }
    assert (F2 : ∀ j y, post !! j = Some y → buffer B !! (pn + rn + j)%nat = Some y).
    { intros j y Hy. rewrite Hbuf', app_assoc.
      rewrite lookup_app_r by (rewrite length_app; subst pn rn; lia).
      rewrite length_app.
      replace (pn + rn + j - (length pre + length run))%nat with j by (subst pn rn; lia).
      done. }
    assert (Hxp : buffer B !! pn = Some x).
    { replace pn with (pn + 0)%nat by lia. by apply F1. }
    assert (Hrunk : ∀ i y, run !! i = Some y → str_index y = k).
    { intros i y Hy. by apply (Forall_lookup_1 _ _ _ _ Hrun Hy). }
    assert (Hrun_sorted : ∀ (i j : nat) y z, (i ≤ j)%nat →
              run !! i = Some y → run !! j = Some z → mstart y ≤ mstart z).
    { intros i j y z Hij Hy Hz.
      apply (Hasc (pn + i)%nat (pn + j)%nat); [lia | by apply F1 | by apply F1 |].
      rewrite (Hrunk _ _ Hy), (Hrunk _ _ Hz). done. }
    assert (Hpost_all : Forall (λ b, str_index b ≠ k) post).
    { destruct Hpost as [->|(c & post' & -> & Hc)]; [constructor|].
      apply Forall_forall. intros y Hy Hyk.
      apply list_elem_of_lookup in Hy as [j Hj].
      apply Hc. rewrite <- Hx.
      apply (Hcont pn (pn + rn + 0)%nat (pn + rn + j)%nat x c y);
        [lia | done | by apply F2 | by apply F2 | congruence]. }
    assert (Hpre_none : filter P pre = []).
    { apply filter_none. eapply Forall_impl; [exact Hpre|]. simpl.
      intros b Hb Hc. apply HP in Hc. destruct Hc as [Hc _]. by apply Hb. }
    assert (Hes : get_end_search (str_index_ptr B) (Z.of_nat pn) (seg_len B)
                  = Z.of_nat (pn + rn)).
    { apply get_end_search_spec.
      - unfold seg_len. lia.
      - intros k' v Hv Hgt. rewrite Hptr in Hv.
        apply first_position_Some in Hv as (pre' & x'' & rest' & Hb' & -> & Hk' & Hpre').
        destruct (decide (length pre' < pn + rn)%nat) as [Hlt|]; [|lia]. exfalso.
        assert (Hx'' : buffer B !! length pre' = Some x'').
        { rewrite Hb'. by apply list_lookup_middle. }
        assert (Hr : run !! (length pre' - pn)%nat = Some x'').
        { rewrite Hbuf' in Hx''. rewrite lookup_app_r in Hx'' by (subst pn; lia).
          rewrite lookup_app_l in Hx'' by (subst pn rn; lia). done. }
        apply Hrunk in Hr.
        assert (Hxpre : pre' !! pn = Some x).
        { rewrite Hb' in Hxp. rewrite lookup_app_l in Hxp by lia. done. }
        apply (Forall_lookup_1 _ _ _ _ Hpre') in Hxpre. simpl in Hxpre. congruence.
      - destruct Hpost as [->|(c & post' & -> & Hc)].
        + left. unfold seg_len. rewrite Hblen. simpl. lia.
        + right. split; [lia|]. exists (str_index c). rewrite Hptr.
          rewrite Hbuf', app_assoc, first_position_app_cons.
          { f_equal. rewrite length_app. subst pn rn. lia. }
          apply Forall_app. split.
          * apply Forall_forall. intros y Hy Hyc.
            apply list_elem_of_lookup in Hy as [i Hi].
            apply Hc. rewrite <- Hx, <- Hyc. symmetry.
            pose proof (lookup_lt_Some _ _ _ Hi).
            apply (Hcont i pn (pn + rn + 0)%nat y x c);
              [subst pn; lia | by apply F0 | done | by apply F2 | done].
          * eapply Forall_impl; [exact Hrun|]. simpl. intros; congruence. }
    unfold get_contained_segments_try. fold k. rewrite Hp. simpl. rewrite Hes.
    destruct (bsearch_loop_inv B (mstart a) (Z.of_nat pn) (Z.of_nat (pn + rn))
                (Z.to_nat (Z.of_nat (pn + rn) - Z.of_nat pn))
                (Z.of_nat pn) (Z.of_nat (pn + rn)))
      as (ss' & Hbs & Hss & Hlo & Hhi);
      [lia | unfold seg_len; lia | lia | lia | by left | by left |].
    rewrite Hbs. simpl.
    assert (∃ sn : nat, ss' = Z.of_nat sn ∧ (pn ≤ sn < pn + rn)%nat) as (sn & -> & Hsn).
    { exists (Z.to_nat ss'). lia. }
    replace (Z.of_nat sn + 1) with (Z.of_nat (S sn)) in Hhi by lia.
    rewrite seg_getitem_nat in *.
    destruct (buffer B !! sn) as [first|] eqn:Hfirst.
    2:{ apply lookup_ge_None in Hfirst. lia. }
    simpl.
    assert (Hfr : run !! (sn - pn)%nat = Some first).
    { rewrite Hbuf' in Hfirst. rewrite lookup_app_r in Hfirst by (subst pn; lia).
      rewrite lookup_app_l in Hfirst by (subst pn rn; lia). done. }
    f_equal. rewrite Hbuf' at 2. rewrite filter_app, Hpre_none. simpl.
    destruct (decide (mstart first >= mstart a)) as [Hge|Hlt].
    + assert (sn = pn) as ->.
      { destruct Hlo as [?|(b & Hb & ?)]; [lia|]. injection Hb as <-. lia. }
      replace (Z.of_nat pn - 1 + 1) with (Z.of_nat pn) by lia.
      unfold py_slice_from. destruct (decide (0 ≤ Z.of_nat pn)); [|lia].
      rewrite Nat2Z.id, Hbuf'. subst pn. rewrite drop_app_length.
      fold k. apply scan_loop_spec; [done | | by apply sorted_from_index | done].
      apply Forall_forall. intros y Hy.
      apply list_elem_of_lookup in Hy as [i Hi].
      replace (length pre - length pre)%nat with 0%nat in Hfr by lia.
      repeat split.
      * by eapply Hrunk.
      * pose proof (Hrun_sorted 0%nat i first y ltac:(lia) Hfr Hi). lia.
      * apply Hwf; [|by eapply Hrunk]. apply list_elem_of_lookup.
        eexists. by apply F1.
    + set (d := (S sn - pn)%nat).
      unfold py_slice_from. destruct (decide (0 ≤ Z.of_nat sn + 1)); [|lia].
      replace (Z.to_nat (Z.of_nat sn + 1)) with (S sn) by lia.
      rewrite Hbuf'. rewrite drop_app_ge by (subst pn; lia). fold pn. fold d.
      rewrite drop_app_le by (subst d rn; lia).
      change (x :: run' ++ post) with (run ++ post).
      rewrite <- (take_drop d run) at 2. rewrite <- app_assoc, filter_app.
      rewrite (filter_none P (take d run)).
      2:{ apply Forall_forall. intros y Hy Hc. apply HP in Hc.
          apply list_elem_of_lookup in Hy as [i Hi].
          apply lookup_take_Some in Hi as [Hi Hid].
          pose proof (Hrun_sorted i (sn - pn)%nat y first ltac:(subst d; lia) Hi Hfr). lia. }
      simpl. fold k. apply scan_loop_spec; [done | | | done].
      * apply Forall_forall. intros y Hy.
        apply list_elem_of_lookup in Hy as [i Hi].
        rewrite lookup_drop in Hi.
        repeat split.
        -- by eapply Hrunk.
        -- destruct Hhi as [Hq|(b & Hb & Hst)].
           { apply lookup_lt_Some in Hi. subst d rn. lia. }
           assert (run !! d = Some b).
           { rewrite Hbuf' in Hb. rewrite lookup_app_r in Hb by (subst pn; lia).
             fold pn in Hb. fold d in Hb.
             destruct (decide (d < rn)%nat).
             - rewrite lookup_app_l in Hb by done. done.
             - apply lookup_lt_Some in Hi. subst rn. lia. }
           pose proof (Hrun_sorted d (d + i)%nat b y ltac:(lia) H Hi). lia.
        -- apply Hwf; [|by eapply Hrunk]. apply list_elem_of_lookup.
           eexists. by apply F1.
      * apply sorted_from_index. intros i j y z Hij Hy Hz.
        rewrite lookup_drop in Hy, Hz.
        apply (Hrun_sorted (d + i)%nat (d + j)%nat); [lia | done | done].
Qed.

Lemma contiguous_single (l : list Segment) (k : Z) :
  Forall (λ y, str_index y = k) l → contiguous l.
Proof.
  intros Hl i j m x y z _ Hx Hy _ _.
  rewrite (Forall_lookup_1 _ _ _ _ Hl Hx), (Forall_lookup_1 _ _ _ _ Hl Hy). done.
Qed.

Lemma starts_ascending_sorted (l : list Segment) :
  StronglySorted (λ x y, mstart x ≤ mstart y) l → starts_ascending l.
Proof.
  induction 1 as [|x l Hl IH Hx]; intros i j a b Hij Ha Hb Hk.
  - by rewrite lookup_nil in Ha.
  - destruct i as [|i], j as [|j]; simpl in *.
    + injection Ha as <-. injection Hb as <-. lia.
    + injection Ha as <-. apply (Forall_lookup_1 _ _ _ _ Hx Hb).
    + lia.
    + apply (IH i j); [lia | done | done | done].
Qed.

Lemma sorted_by_address_singleton (data : list datum) (a : Segment) :
  sorted_by_address data [a].
Proof.
  intros i j x y _ Hx Hy.
  apply list_lookup_singleton_Some in Hx as [_ <-].
  apply list_lookup_singleton_Some in Hy as [_ <-].
  right. split; [done|]. right. split; [done|]. intros; lia.
Qed.

(** C1 (counterexample): the calling segmentation A = ['ab'] is sorted, but
    the target holds the characters [5,6), [1,2), [3,4) of the same string
    out of order; the query returns the empty list although [1,2) lies
    within [0,2). *)
Lemma get_contained_segments_unsorted_target :
  let A := Segmentation_of_list [first_word] "A" in
  sorted_by_address test_data (buffer A)
  ∧ buffer A !! 0%nat = Some first_word
  ∧ get_contained_segments test_data first_word shuffled_seg = Some []
  ∧ contained_spec test_data first_word shuffled_seg
    = [mkSegment 0 (Some 1) (Some 2) ∅].
Proof.
  split; [apply sorted_by_address_singleton|].
  split; [reflexivity|]. split; vm_compute; reflexivity.
Qed.

Lemma first_position_from_absent (l : list Segment) (k pos : Z) :
  Forall (λ y, str_index y ≠ k) l → first_position_from l k pos = None.
Proof.
  intros Hl. revert pos. induction Hl as [|s l Hs Hl IH]; intros pos; simpl; [done|].
  destruct (decide (str_index s = k)); [done | apply IH].
Qed.

Lemma char_seg_ptr_consistent : ptr_consistent char_seg.
Proof.
  intros k. change (str_index_ptr char_seg) with ({[0 := 0]} : gmap Z Z).
  destruct (decide (k = 0)) as [->|Hk]; [reflexivity|].
  rewrite lookup_singleton_ne by done. symmetry.
  apply first_position_from_absent.
  unfold char_seg; simpl. repeat constructor; simpl; congruence.
Qed.

(** The first word of 'ab cde' contains its first two characters
    (tests/test_segment.py, test_get_contained_segments). *)
Lemma get_contained_segments_correct_witness :
  get_contained_segments test_data first_word char_seg
  = Some [mkSegment 0 (Some 0) (Some 1) ∅; mkSegment 0 (Some 1) (Some 2) ∅].
Proof.
  refine (eq_trans
    (proj2 (get_contained_segments_correct test_data first_word char_seg 6 _)
       char_seg_ptr_consistent _ _ _) _).
  - reflexivity.
  - apply (contiguous_single _ 0). repeat constructor.
  - apply starts_ascending_sorted. repeat constructor; vm_compute; discriminate.
  - intros x Hx _. unfold char_seg in Hx; simpl in Hx.
    repeat (apply elem_of_cons in Hx as [->|Hx]; [vm_compute; discriminate|]).
    by apply elem_of_nil in Hx.
  - vm_compute. reflexivity.
Defined.

(** ** Utils.get_expected_subsample_variety *)

Lemma binom_nat_small (n k : nat) : (n < k)%nat → binom_nat n k = 0.
Proof.
  revert k. induction n as [|n IH]; intros [|k] H; simpl; try lia.
  rewrite !IH by lia. lia.
Qed.

Lemma binom_nat_nonneg (n k : nat) : 0 ≤ binom_nat n k.
Proof.
  revert k. induction n as [|n IH]; intros [|k]; simpl; try lia.
  pose proof (IH k). pose proof (IH (S k)). lia.
Qed.

Lemma binom_nat_pos (n k : nat) : (k ≤ n)%nat → 0 < binom_nat n k.
Proof.
  revert k. induction n as [|n IH]; intros [|k] H; simpl; try lia.
  pose proof (IH k ltac:(lia)). pose proof (binom_nat_nonneg n (S k)). lia.
Qed.

Lemma binom_small (N k : Z) : 0 ≤ k → N < k → binom N k = 0.
Proof.
  intros Hk HN. unfold binom. destruct (decide (N < 0 ∨ k < 0)); [done|].
  apply binom_nat_small. lia.
Qed.

Lemma binom_pos (N k : Z) : 0 ≤ k → k ≤ N → 0 < binom N k.
Proof.
  intros Hk HN. unfold binom. destruct (decide (N < 0 ∨ k < 0)); [lia|].
  apply binom_nat_pos. lia.
Qed.

Lemma binom_nat_mono_S (n k : nat) : binom_nat n k ≤ binom_nat (S n) k.
Proof.
  destruct k as [|k]; [by destruct n|]. cbn [binom_nat].
  pose proof (binom_nat_nonneg n k). lia.
Qed.

Lemma binom_nat_mono (n n' k : nat) :
  (n ≤ n')%nat → binom_nat n k ≤ binom_nat n' k.
Proof.
  induction 1 as [|n' _ IH]; [done|].
  pose proof (binom_nat_mono_S n' k). lia.
Qed.

Lemma binom_nonneg (N k : Z) : 0 ≤ binom N k.
Proof.
  unfold binom. destruct (decide (N < 0 ∨ k < 0)); [done|].
  apply binom_nat_nonneg.
Qed.

Lemma binom_mono (N N' k : Z) : N ≤ N' → binom N k ≤ binom N' k.
Proof.
  intros HN. unfold binom.
  destruct (decide (N < 0 ∨ k < 0)) as [H|H], (decide (N' < 0 ∨ k < 0)) as [H'|H'];
    try lia.
  - apply binom_nat_nonneg.
  - apply binom_nat_mono. lia.
Qed.

Lemma binom_neg (N k : Z) : k < 0 → binom N k = 0.
Proof. intros Hk. unfold binom. by rewrite decide_True by lia. Qed.

Lemma sum_Z_nonneg (l : list Z) : (∀ v, v ∈ l → 0 ≤ v) → 0 ≤ sum_Z l.
Proof.
  induction l as [|x l IH]; intros H; simpl; [done|].
  pose proof (H x (list_elem_of_here _ _)).
  pose proof (IH (λ v Hv, H v (list_elem_of_further _ _ _ Hv))). lia.
Qed.

Lemma sum_Z_elem (l : list Z) (v : Z) :
  (∀ v, v ∈ l → 0 ≤ v) → v ∈ l → v ≤ sum_Z l.
Proof.
  induction l as [|x l IH]; intros H Hv; [by apply elem_of_nil in Hv|].
  simpl.
  pose proof (H x (list_elem_of_here _ _)).
  pose proof (sum_Z_nonneg l (λ v Hv, H v (list_elem_of_further _ _ _ Hv))).
  apply elem_of_cons in Hv as [->|Hv]; [lia|].
  pose proof (IH (λ v Hv, H v (list_elem_of_further _ _ _ Hv)) Hv). lia.
Qed.

(** The quotient of two binomial coefficients that the loop divides, when
    it divides: neither a division by zero nor an overflow. *)
Lemma py_truediv_binom (N k v : Z) :
  0 ≤ k ≤ N → 0 ≤ v →
  py_truediv (binom (N - v) k) (binom N k)
  = Returns (f64_div (exact_int (binom (N - v) k)) (exact_int (binom N k))).
Proof.
  intros Hk Hv. pose proof (binom_pos N k ltac:(lia) ltac:(lia)) as Hpos.
  pose proof (binom_nonneg (N - v) k) as Hnn.
  pose proof (binom_mono (N - v) N k ltac:(lia)) as Hle.
  unfold py_truediv. rewrite decide_False by lia.
  pose proof (f64_div_exact_int_finite _ _ (conj Hnn Hle) Hpos) as Hfin.
  by destruct (f64_div _ _).
Qed.

(** The loop of get_expected_subsample_variety against the closed form:
    a value that cannot occur in no subsample contributes the int 0 in the
    code and the float 0.0 in the closed form, which leave the float value
    of the accumulator as it is. *)
Lemma expected_variety_loop (N k : Z) (l : list Z) (r : pynum) (acc : float64) :
  0 ≤ k ≤ N → (∀ v, v ∈ l → 0 ≤ v) → py_float r = Returns acc →
  ∃ r', foldl (λ expected_variety freq,
                 result_bind expected_variety (λ ev,
                 result_bind (_prob_no_occurrence N k freq (binom N k)) (λ p,
                 py_sub ev p)))
              (Returns r) l = Returns r'
    ∧ py_float r'
      = Returns (foldl (λ acc v,
                          f64_sub acc (f64_div (exact_int (binom (N - v) k))
                                               (exact_int (binom N k))))
                   acc l).
Proof.
  intros Hk. revert r acc. induction l as [|v l IH]; intros r acc Hl Hr.
  - by exists r.
  - pose proof (Hl v (list_elem_of_here _ _)) as Hv.
    pose proof (binom_pos N k ltac:(lia) ltac:(lia)) as Hpos.
    cbn [foldl result_bind]. unfold _prob_no_occurrence.
    destruct (decide (v > N - k)) as [Hbig|Hsmall]; cbn [result_bind].
    + assert (f64_div (exact_int (binom (N - v) k)) (exact_int (binom N k))
              = f64_zero) as ->.
      { unfold binom at 1. destruct (decide (N - v < 0 ∨ k < 0)) as [|Hn].
        - by destruct (binom N k); [lia| |lia].
        - rewrite binom_nat_small by lia. by destruct (binom N k); [lia| |lia]. }
      rewrite f64_sub_zero.
      assert (∃ r1, py_sub r (PyInt 0) = Returns r1 ∧ py_float r1 = Returns acc)
        as (r1 & -> & Hr1).
      { destruct r as [n|x].
        - exists (PyInt n). cbn [py_sub]. by rewrite Z.sub_0_r.
        - exists (PyFloat x). simpl in Hr. injection Hr as ->.
          change (py_sub (PyFloat acc) (PyInt 0))
            with (Returns (PyFloat (f64_sub acc f64_zero))).
          by rewrite f64_sub_zero. }
      apply IH; [|done]. intros v' Hv'. apply Hl. by apply list_elem_of_further.
    + rewrite py_truediv_binom by done. cbn [result_bind].
      set (q := f64_div _ _).
      assert (py_sub r (PyFloat q) = Returns (PyFloat (f64_sub acc q))) as ->.
      { destruct r as [n|x]; cbn [py_sub]; rewrite Hr; done. }
      apply IH; [|done]. intros v' Hv'. apply Hl. by apply list_elem_of_further.
Qed.

Lemma foldl_Raises {A B : Type} (f : result A → B → result A) (e : exn) (l : list B) :
  (∀ b, f (Raises e) b = Raises e) → foldl f (Raises e) l = Raises e.
Proof. intros Hf. induction l as [|b l IH]; [done|]. simpl. by rewrite Hf. Qed.

(** C7 (amended): for a dictionary d of frequencies (none negative, fewer
    than 2^53 keys) with the sum N and a subsample size k,
    get_expected_subsample_variety raises ValueError when k > N; for
    0 ≤ k ≤ N it returns a number whose float value is the closed form
    len(d) − C(N−v1, k)/C(N, k) − C(N−v2, k)/C(N, k) − ... evaluated in
    float64 over the values in the order of the dictionary, every quotient
    of two exact binomial coefficients and every difference rounded to the
    nearest float; and for k < 0 and a non-empty d it raises
    ZeroDivisionError. *)
Theorem get_expected_subsample_variety_correct (d : list (string * Z)) (k : Z) :
  (∀ v, v ∈ d.*2 → 0 ≤ v) → Z.of_nat (length d) < 2 ^ 53 →
  let N := sum_Z d.*2 in
  (k > N → get_expected_subsample_variety d k = Raises ValueError)
  ∧ (0 ≤ k ≤ N →
     ∃ r, get_expected_subsample_variety d k = Returns r
          ∧ py_float r = Returns (expected_variety_spec d k))
  ∧ (k < 0 → d ≠ [] →
     get_expected_subsample_variety d k = Raises ZeroDivisionError).
Proof.
  intros Hd Hlen N. unfold get_expected_subsample_variety. fold N.
  split; [|split].
  - intros HN. by rewrite decide_True.
  - intros Hk. rewrite decide_False by lia.
    apply (expected_variety_loop N k d.*2); [done|done|].
    apply py_float_small. lia.
  - intros Hk Hne. pose proof (sum_Z_nonneg _ Hd) as HN. fold N in HN.
    rewrite decide_False by lia.
    destruct d as [|[key v] d]; [done|]. cbn [fmap list_fmap snd foldl result_bind].
    assert (v ≤ N) as Hv by (apply sum_Z_elem; [done|apply list_elem_of_here]).
    assert (_prob_no_occurrence N k v (binom N k) = Raises ZeroDivisionError) as ->.
    { unfold _prob_no_occurrence. rewrite decide_False by lia.
      rewrite (binom_neg N k Hk). unfold py_truediv. by rewrite decide_True. }
    cbn [result_bind]. by apply foldl_Raises.
Qed.

(** C7 (counterexample): for d = {'a': 2, 'b': 1, 'c': 1} and k = 2 the
    code returns the float 8256599316845910 * 2^-52, printed
    1.8333333333333335, which is not 11/6 (no float is, and the float
    nearest to 11/6 is 8256599316845909 * 2^-52); and for k = -1, which is
    not larger than N = 4, it returns no number but raises
    ZeroDivisionError. *)
Lemma expected_variety_S6 :
  (∃ x, get_expected_subsample_variety dict_S6 2 = Returns (PyFloat x)
        ∧ x = SpecFloat.S754_finite false 8256599316845910 (-52)
        ∧ ¬ f64_is_ratio x 11 6)
  ∧ get_expected_subsample_variety dict_S6 (-1) = Raises ZeroDivisionError.
Proof.
  split; [|by vm_compute].
  eexists. split; [by vm_compute|]. split; [done|]. by vm_compute.
Qed.

Lemma get_expected_subsample_variety_correct_witness :
  ∃ r, get_expected_subsample_variety dict_S6 2 = Returns r
       ∧ py_float r = Returns (expected_variety_spec dict_S6 2).
Proof.
  assert (∀ v, v ∈ dict_S6.*2 → 0 ≤ v) as Hd.
  { intros v Hv. vm_compute in Hv. set_solver by lia. }
  assert (Z.of_nat (length dict_S6) < 2 ^ 53) as Hlen by (vm_compute; reflexivity).
  destruct (get_expected_subsample_variety_correct dict_S6 2 Hd Hlen) as (_ & H & _).
  apply H. vm_compute. split; discriminate.
Defined.

(** ** Utils.iround *)

(** Shifting out bits that are all zero leaves an exact record. *)
Lemma iter_pos_shr_1_exact (p : positive) (z : Z) :
  0 < z →
  SpecFloat.iter_pos SpecFloat.shr_1 p
    (SpecFloat.Build_shr_record (z * 2 ^ Z.pos p) false false)
  = SpecFloat.Build_shr_record z false false.
Proof.
  assert (Hstep : ∀ a, 0 < a →
            SpecFloat.shr_1 (SpecFloat.Build_shr_record (2 * a) false false)
            = SpecFloat.Build_shr_record a false false).
  { intros [|a|a] Ha; try lia. done. }
  revert z. induction p as [p IH|p IH|]; intros z Hz; cbn [SpecFloat.iter_pos].
  - assert (0 < 2 ^ Z.pos p) by (apply Z.pow_pos_nonneg; lia).
    rewrite pow2_xI.
    replace (z * (2 * (2 ^ Z.pos p * 2 ^ Z.pos p)))
      with (2 * (z * 2 ^ Z.pos p * 2 ^ Z.pos p)) by lia.
    rewrite Hstep by nia. rewrite IH by nia. by rewrite IH.
  - assert (0 < 2 ^ Z.pos p) by (apply Z.pow_pos_nonneg; lia).
    rewrite pow2_xO, Z.mul_assoc. rewrite IH by nia. by rewrite IH.
  - change (2 ^ 1) with 2. rewrite (Z.mul_comm z 2). by apply Hstep.
Qed.

(** Rounding c * 2^52 * 2^-53, that is c / 2, for an integer c below
    2^53: nothing is lost. *)
Lemma binary_round_half (sx : bool) (c : Z) (M : positive) :
  0 < c < 2 ^ 53 → Z.pos M = c * 2 ^ 52 →
  ∃ (p : positive) (e : Z),
    SpecFloat.binary_round 53 1024 sx M (-53) = SpecFloat.S754_finite sx p e
    ∧ e < 0 ∧ Z.pos p * 2 = c * 2 ^ (- e).
Proof.
  intros Hc HM. destruct c as [|c|c]; try lia.
  pose proof (digits2_pos_bounds c) as [Hlo Hhi].
  set (D := Z.pos (SpecFloat.digits2_pos c)) in *.
  assert (1 ≤ D ≤ 53) as HD.
  { split; [unfold D; lia|]. destruct (decide (D ≤ 53)); [done|].
    assert (2 ^ 53 ≤ 2 ^ (D - 1)) by (apply Z.pow_le_mono_r; lia). lia. }
  assert (Z.pos (SpecFloat.digits2_pos M) = D + 52) as HdM.
  { apply digits2_pos_unique. rewrite HM.
    replace (D + 52 - 1) with (D - 1 + 52) by lia.
    rewrite !Z.pow_add_r by lia. lia. }
  assert (0 < 2 ^ (53 - D)) by (apply Z.pow_pos_nonneg; lia).
  assert (∃ p, Z.pos p = Z.pos c * 2 ^ (53 - D)) as [p Hp].
  { exists (Z.to_pos (Z.pos c * 2 ^ (53 - D))). rewrite Z2Pos.id; lia. }
  assert (2 ^ 52 ≤ Z.pos p < 2 ^ 53) as Hq53.
  { rewrite Hp.
    assert (2 ^ 52 = 2 ^ (D - 1) * 2 ^ (53 - D)) as ->.
    { rewrite <- Z.pow_add_r by lia. f_equal. lia. }
    assert (2 ^ 53 = 2 ^ D * 2 ^ (53 - D)) as ->.
    { rewrite <- Z.pow_add_r by lia. f_equal. lia. }
    nia. }
  exists p, (D - 54).
  assert (Z.pos (SpecFloat.digits2_pos p) = 53) as Hdp
    by (apply digits2_pos_unique; simpl; lia).
  split; [|split; [lia|]].
  - unfold SpecFloat.binary_round, SpecFloat.shl_align.
    rewrite HdM, fexp_eq.
    replace (Z.max (D + 52 + -53 - 53) (-1074) - -53) with (D - 1) by lia.
    assert (SpecFloat.shr_fexp 53 1024 (Z.pos M) (-53) SpecFloat.loc_Exact
            = (SpecFloat.Build_shr_record (Z.pos p) false false, D - 54)) as Hshr.
    { unfold SpecFloat.shr_fexp. cbn [SpecFloat.Zdigits2]. rewrite HdM, fexp_eq.
      replace (Z.max (D + 52 + -53 - 53) (-1074) - -53) with (D - 1) by lia.
      cbn [SpecFloat.shr_record_of_loc]. unfold SpecFloat.shr.
      assert (D = 1 ∨ ∃ k, D - 1 = Z.pos k) as [HD1|[k Hk]].
      { destruct (D - 1) as [|k|k] eqn:Ek; [left; lia|right; by exists k|lia]. }
      - rewrite HD1. cbn [Z.sub Z.add Z.opp Z.pos_sub Pos.pred_double]. f_equal. f_equal.
        rewrite HM, Hp, HD1. done.
      - rewrite Hk. f_equal; [|lia].
        replace (Z.pos M) with (Z.pos p * 2 ^ Z.pos k).
        + apply iter_pos_shr_1_exact. lia.
        + rewrite HM, Hp, <- Z.mul_assoc, <- Z.pow_add_r by lia.
          f_equal. f_equal. lia. }
    assert (∀ e', match D - 1 with
                  | Z.neg d => (Pos.iter xO M d, e')
                  | _ => (M, -53)
                  end = (M, -53)) as ->.
    { intros e'. destruct (D - 1) eqn:E; [done|done|lia]. }
    unfold SpecFloat.binary_round_aux. rewrite Hshr.
    cbn [SpecFloat.shr_m SpecFloat.loc_of_shr_record SpecFloat.round_nearest_even].
    rewrite shr_fexp_canonical by (done || lia).
    cbn [SpecFloat.shr_record_of_loc SpecFloat.shr_m].
    change (1024 - 53) with 971. destruct (D - 54 <=? 971) eqn:E; [done|lia].
  - rewrite Hp.
    replace (- (D - 54)) with (53 - D + 1) by lia.
    rewrite Z.pow_add_r by lia. change (2 ^ 1) with 2. lia.
Qed.

(** [float(n) - .5] for an integer n that is not 0 and below 2^52 in
    magnitude is exact, and its integer part is n - 1 for a positive n and
    n for a negative one. *)
Lemma py_int_minus_half (s : bool) (n : positive) :
  Z.pos n < 2 ^ 52 →
  py_int (f64_sub (SpecFloat.binary_round 53 1024 s n 0) f64_half)
  = Returns (if s then Z.neg n else Z.pos n - 1).
Proof.
  intros Hn.
  destruct (binary_round_small s n) as (p & e & -> & He & Hp).
  { assert (2 ^ 52 < 2 ^ 53) by (apply Z.pow_lt_mono_r; lia). lia. }
  unfold f64_sub, f64_half, SpecFloat.SFsub.
  replace (Z.min e (-53)) with (-53) by lia.
  unfold SpecFloat.shl_align at 1 2. rewrite Z.sub_diag.
  destruct (-53 - e) as [|k|k] eqn:Ek; [lia|lia|]. cbn [fst].
  assert (Z.pos (Pos.iter xO p k) = Z.pos n * 2 ^ 53) as Hal.
  { rewrite pos_iter_xO, Hp, <- Z.mul_assoc, <- Z.pow_add_r by lia.
    f_equal. f_equal. lia. }
  unfold SpecFloat.cond_Zopp at 2. rewrite Hal.
  change (Z.pos 4503599627370496) with (2 ^ 52).
  assert (2 ^ 53 = 2 * 2 ^ 52) as E53 by done.
  destruct s; cbn [SpecFloat.cond_Zopp].
  - assert (- (Z.pos n * 2 ^ 53) - 2 ^ 52 = - ((2 * Z.pos n + 1) * 2 ^ 52)) as -> by lia.
    destruct ((2 * Z.pos n + 1) * 2 ^ 52) as [|M|M] eqn:EM; try lia.
    change (- Z.pos M) with (Z.neg M). cbn [SpecFloat.binary_normalize].
    destruct (binary_round_half true (2 * Z.pos n + 1) M) as (p2 & e2 & -> & He2 & Hp2);
      [lia|done|].
    cbn [py_int]. unfold f64_trunc. rewrite decide_False by lia. f_equal.
    assert (0 < 2 ^ (- e2 - 1)) by (apply Z.pow_pos_nonneg; lia).
    assert (2 ^ (- e2) = 2 * 2 ^ (- e2 - 1)) as Epow.
    { rewrite <- Z.pow_succ_r by lia. f_equal. lia. }
    rewrite Epow in *.
    assert (Z.pos p2 `div` (2 * 2 ^ (- e2 - 1)) = Z.pos n); [|lia].
    symmetry. apply (Z.div_unique _ _ _ (2 ^ (- e2 - 1))); nia.
  - assert (Z.pos n * 2 ^ 53 - 2 ^ 52 = (2 * Z.pos n - 1) * 2 ^ 52) as -> by lia.
    destruct ((2 * Z.pos n - 1) * 2 ^ 52) as [|M|M] eqn:EM; try lia.
    cbn [SpecFloat.binary_normalize].
    destruct (binary_round_half false (2 * Z.pos n - 1) M) as (p2 & e2 & -> & He2 & Hp2);
      [lia|done|].
    cbn [py_int]. unfold f64_trunc. rewrite decide_False by lia. f_equal.
    assert (0 < 2 ^ (- e2 - 1)) by (apply Z.pow_pos_nonneg; lia).
    assert (2 ^ (- e2) = 2 * 2 ^ (- e2 - 1)) as Epow.
    { rewrite <- Z.pow_succ_r by lia. f_equal. lia. }
    rewrite Epow in *.
    symmetry. apply (Z.div_unique _ _ _ (2 ^ (- e2 - 1))); nia.
Qed.

Lemma nearest_integer_nonneg (v : python) (m : positive) (e : Z) :
  0 ≤ nearest_integer v m e.
Proof.
  unfold nearest_integer. destruct (decide (0 ≤ e)).
  - assert (0 < 2 ^ e) by (apply Z.pow_pos_nonneg; lia). lia.
  - assert (0 < 2 ^ (- e)) by (apply Z.pow_pos_nonneg; lia).
    assert (0 ≤ Z.pos m `div` 2 ^ (- e)) by (apply Z.div_pos; lia).
    repeat destruct (decide _); try lia. destruct v; [lia|].
    destruct (Z.even _); lia.
Qed.

(** A positive number is rounded to its nearest integer, and to 1 when
    that is 0. *)
Lemma iround_positive (v : python) (m : positive) (e : Z) :
  nearest_integer v m e < 2 ^ 52 →
  iround v (SpecFloat.S754_finite false m e)
  = Returns (Z.max 1 (nearest_integer v m e)).
Proof.
  intros Hn. pose proof (nearest_integer_nonneg v m e) as H0.
  unfold iround, py_round. cbn [result_bind].
  set (n := nearest_integer v m e) in *.
  change (f64_is_pos (SpecFloat.S754_finite false m e)) with true.
  destruct (decide (n = 0)) as [->|Hne].
  - assert (∀ s', py_int (f64_sub (SpecFloat.S754_zero s') f64_half) = Returns 0)
      as -> by (by intros []).
    done.
  - destruct n as [|n|n]; try lia.
    change (f64_of_int (Z.pos n)) with (SpecFloat.binary_round 53 1024 false n 0).
    rewrite py_int_minus_half by done. cbn [result_bind]. f_equal; lia.
Qed.

(** X9. For a finite float x (not a zero) whose nearest integer n, ties
    going away from zero under Python 2 and to the even integer under
    Python 3, is below 2^52 in magnitude, iround returns -n when x is
    negative and max(1, n) when x is positive: iround rounds to the
    nearest integer, except that a positive number is never rounded to 0. *)
Theorem iround_spec (v : python) (s : bool) (m : positive) (e : Z) :
  nearest_integer v m e < 2 ^ 52 →
  iround v (SpecFloat.S754_finite s m e)
  = Returns (if s then - nearest_integer v m e
             else Z.max 1 (nearest_integer v m e)).
Proof.
  intros Hn. destruct s; [|by apply iround_positive].
  pose proof (nearest_integer_nonneg v m e) as H0.
  unfold iround, py_round. cbn [result_bind].
  set (n := nearest_integer v m e) in *.
  change (f64_is_pos (SpecFloat.S754_finite true m e)) with false.
  destruct (decide (n = 0)) as [->|Hne].
  - assert (∀ s', py_int (f64_sub (SpecFloat.S754_zero s') f64_half) = Returns 0)
      as -> by (by intros []).
    done.
  - destruct n as [|n|n]; try lia.
    change (f64_of_int (- Z.pos n)) with (SpecFloat.binary_round 53 1024 true n 0).
    rewrite py_int_minus_half by done. cbn [result_bind]. f_equal; lia.
Qed.

(** 2.5 is rounded to 3 under Python 2 and to 2 under Python 3. *)
Lemma iround_spec_witness :
  iround Python2 (SpecFloat.S754_finite false 5629499534213120 (-51)) = Returns 3
  ∧ iround Python3 (SpecFloat.S754_finite false 5629499534213120 (-51)) = Returns 2.
Proof.
  split.
  - apply (iround_spec Python2 false 5629499534213120 (-51)). vm_compute. reflexivity.
  - apply (iround_spec Python3 false 5629499534213120 (-51)). vm_compute. reflexivity.
Defined.

(** iround(0.0) is 0. *)
Lemma iround_zero (v : python) (s : bool) :
  iround v (SpecFloat.S754_zero s) = Returns 0.
Proof. by destruct v, s. Qed.

(** Beyond the bound the subtraction of .5 is rounded itself: iround(2^53)
    is 2^53 + 1 under both versions. *)
Lemma iround_large (v : python) : iround v (f64_of_int (2 ^ 53)) = Returns (2 ^ 53 + 1).
Proof. by destruct v; vm_compute. Qed.

(** ** Segmenter.sample in 'systematic' mode *)

(** [l[::step]] on a range *)
Lemma elem_of_take_every_seq (fuel step a n i : nat) :
  (n ≤ fuel)%nat → (1 ≤ step)%nat →
  i ∈ take_every fuel step (seq a n)
  ↔ (i < a + n)%nat ∧ ∃ j : nat, i = (a + j * step)%nat.
Proof.
  revert a n. induction fuel as [|fuel IH]; intros a n Hn Hs.
  - assert (n = 0%nat) as -> by lia. simpl. split.
    + intros H. by apply elem_of_nil in H.
    + intros [? [j ->]]. lia.
  - destruct n as [|n]; simpl.
    + split; [intros H; by apply elem_of_nil in H | intros [? [j ->]]; lia].
    + change (a :: seq (S a) n) with (seq a (S n)).
      rewrite drop_seq, elem_of_cons, IH by lia. split.
      * intros [->|[Hlt [j ->]]].
        -- split; [lia|]. exists 0%nat. lia.
        -- split; [lia|]. exists (S j). lia.
      * intros [Hlt [j ->]]. destruct j as [|j]; [left; lia|].
        right. split; [lia|]. exists j. lia.
Qed.

Lemma append_label (S : Segmentation) (x : Segment) : label (append S x) = label S.
Proof. done. Qed.

Lemma append_buffer (S : Segmentation) (x : Segment) :
  buffer (append S x) = buffer S ++ [x].
Proof. done. Qed.

Lemma sample_loop_spec (l : list Segment) (index : nat) (sampled : list nat)
    (copy : bool) (new neg : Segmentation) :
  let r := sample_loop l index sampled copy new neg in
  label r.1 = label new ∧ label r.2 = label neg
  ∧ buffer r.1 = buffer new
      ++ map (λ x, deepcopy x copy)
           (select_from (λ i, bool_decide (i ∈ sampled)) index l)
  ∧ buffer r.2 = buffer neg
      ++ map (λ x, deepcopy x copy)
           (select_from (λ i, negb (bool_decide (i ∈ sampled))) index l).
Proof.
  revert index new neg. induction l as [|x l IH]; intros index new neg; simpl.
  - by rewrite !app_nil_r.
  - destruct (decide (index ∈ sampled)) as [Hin|Hin].
    + rewrite (bool_decide_eq_true_2 _ Hin). simpl.
      destruct (IH (S index) (append new (deepcopy x copy)) neg) as (-> & -> & -> & ->).
      rewrite append_label, append_buffer, <- app_assoc. done.
    + rewrite (bool_decide_eq_false_2 _ Hin). simpl.
      destruct (IH (S index) new (append neg (deepcopy x copy))) as (-> & -> & -> & ->).
      rewrite append_label, append_buffer, <- app_assoc. done.
Qed.

Lemma select_from_ext {A : Type} (P Q : nat → bool) (index : nat) (l : list A) :
  (∀ i, (index ≤ i < index + length l)%nat → P i = Q i) →
  select_from P index l = select_from Q index l.
Proof.
  revert index. induction l as [|x l IH]; intros index H; simpl; [done|].
  rewrite (H index) by (simpl; lia).
  rewrite (IH (S index)); [done|]. intros i Hi. apply H. simpl. lia.
Qed.

Lemma multiple_iff_mod (i : nat) (s : Z) :
  1 ≤ s → (∃ j : nat, i = (0 + j * Z.to_nat s)%nat) ↔ Z.of_nat i `mod` s = 0.
Proof.
  intros Hs. split.
  - intros [j ->]. apply Z.mod_divide; [lia|]. exists (Z.of_nat j). lia.
  - intros H. apply Z.mod_divide in H as [q Hq]; [|lia].
    exists (Z.to_nat q). nia.
Qed.

Lemma nearest_integer_le (v : python) (m : positive) (e : Z) :
  e < 0 → nearest_integer v m e ≤ Z.pos m `div` 2 ^ (- e) + 1.
Proof.
  intros He. unfold nearest_integer. rewrite decide_False by lia.
  repeat destruct (decide _); try lia. destruct v; [lia|].
  destruct (Z.even _); lia.
Qed.

(** For a sample size and a length between 1 and 2^48 the step is
    computed without an exception, and it is at least 1: the two quotients
    are normal floats, the second one below 2^50, and iround rounds it to
    an integer that is not 0. *)
Lemma systematic_step_Returns (v : python) (k L : Z) :
  1 ≤ k < 2 ^ 48 → 1 ≤ L < 2 ^ 48 →
  ∃ s, systematic_step v k L = Returns s ∧ 1 ≤ s.
Proof.
  intros Hk HL. unfold systematic_step, py_truediv.
  rewrite decide_False by lia.
  destruct k as [|a|a]; try lia. destruct L as [|b|b]; try lia.
  cbn [exact_int].
  pose proof (digits2_pos_bounds a) as [Ha1 Ha2].
  pose proof (digits2_pos_bounds b) as [Hb1 Hb2].
  set (da := Z.pos (SpecFloat.digits2_pos a)) in *.
  set (db := Z.pos (SpecFloat.digits2_pos b)) in *.
  assert (1 ≤ da ≤ 48) as Hda.
  { split; [unfold da; lia|]. destruct (decide (da ≤ 48)); [done|].
    assert (2 ^ 48 ≤ 2 ^ (da - 1)) by (apply Z.pow_le_mono_r; lia). lia. }
  assert (1 ≤ db ≤ 48) as Hdb.
  { split; [unfold db; lia|]. destruct (decide (db ≤ 48)); [done|].
    assert (2 ^ 48 ≤ 2 ^ (db - 1)) by (apply Z.pow_le_mono_r; lia). lia. }
  destruct (f64_div_normal false false a b 0 0) as (pr & er & -> & Hpr & Her);
    [fold da db; lia|fold da db; lia|].
  fold da db in Her.
  assert (er <=? 971 = true) as -> by lia.
  cbn [xorb result_bind]. unfold py_float_div.
  assert (f64_is_zero (SpecFloat.S754_finite false pr er) = false) as -> by done.
  cbn [result_bind].
  change (f64_of_int 1) with (SpecFloat.S754_finite false 4503599627370496 (-52)).
  assert (Z.pos (SpecFloat.digits2_pos pr) = 53) as Hdr
    by (apply digits2_pos_unique; simpl; lia).
  destruct (f64_div_normal false false 4503599627370496 pr (-52) er)
    as (ps & es & -> & Hps & Hes).
  { rewrite Hdr. change (Z.pos (SpecFloat.digits2_pos 4503599627370496)) with 53. lia. }
  { rewrite Hdr. change (Z.pos (SpecFloat.digits2_pos 4503599627370496)) with 53. lia. }
  rewrite Hdr in Hes.
  change (Z.pos (SpecFloat.digits2_pos 4503599627370496)) with 53 in Hes.
  assert (es <=? 971 = true) as -> by lia. cbn [xorb].
  assert (es ≤ -3) as Hes3 by lia.
  assert (nearest_integer v ps es < 2 ^ 52) as Hn.
  { pose proof (nearest_integer_le v ps es ltac:(lia)) as Hle.
    assert (Z.pos ps `div` 2 ^ (- es) < 2 ^ 50); [|lia].
    apply Z.div_lt_upper_bound; [apply Z.pow_pos_nonneg; lia|].
    assert (2 ^ 3 ≤ 2 ^ (- es)) by (apply Z.pow_le_mono_r; lia).
    change (2 ^ 3) with 8 in *. lia. }
  rewrite (iround_positive v ps es Hn). eexists. split; [done|]. lia.
Qed.

(** What sample returns in 'systematic' mode for a positive step. *)
Lemma sample_systematic_select (v : python) (S : Segmentation) (k s : Z)
    (lbl : string) (copy : bool) (drawn : list nat) :
  systematic_step v k (seg_len S) = Returns s → 0 < s →
  ∃ pos neg,
    sample v S k "systematic" lbl copy drawn = Returns (pos, neg)
    ∧ label pos = lbl ∧ label neg = "NEG_" +:+ lbl
    ∧ buffer pos = map (λ x, deepcopy x copy) (at_multiples s (buffer S))
    ∧ buffer neg = map (λ x, deepcopy x copy) (off_multiples s (buffer S)).
Proof.
  intros Hstep Hs. unfold sample.
  destruct (decide ("systematic" = "random")) as [?|_]; [discriminate|].
  destruct (decide ("systematic" = "systematic")) as [_|?]; [|done].
  fold (seg_len S). rewrite Hstep. cbn [result_bind].
  unfold range_slice_step.
  destruct (decide (s = 0)); [lia|]. destruct (decide (0 < s)); [|lia].
  cbn [result_bind].
  set (sampled := take_every _ _ _).
  pose proof (sample_loop_spec (buffer S) 0 sampled copy (Segmentation_empty lbl)
                (Segmentation_empty ("NEG_" +:+ lbl))) as Hloop.
  simpl in Hloop. destruct Hloop as (H1 & H2 & H3 & H4).
  eexists _, _. split; [rewrite <- surjective_pairing; reflexivity|].
  split; [done|]. split; [done|].
  assert (Hsel : ∀ i, (0 ≤ i < 0 + length (buffer S))%nat →
            bool_decide (i ∈ sampled) = bool_decide (Z.of_nat i `mod` s = 0)).
  { intros i Hi. apply bool_decide_ext. unfold sampled.
    rewrite elem_of_take_every_seq by lia.
    rewrite multiple_iff_mod by lia. split; [tauto | intros; split; [lia | done]]. }
  split.
  - rewrite H3. unfold at_multiples. f_equal. by apply select_from_ext.
  - rewrite H4. unfold off_multiples. f_equal. apply select_from_ext.
    intros i Hi. f_equal. by apply Hsel.
Qed.

(** C9 (amended): in 'systematic' mode, whenever the step that the code
    computes, s = iround(1 / (sample_size / L)) with both divisions and
    the rounding done in float64, is positive, sample selects exactly the
    positions 0, s, 2s, ... below the length L of the segmentation: the
    copies of the segments at those positions make up, in order, the first
    output, and the copies of all others the second one, whose label is
    'NEG_' followed by the label of the first. And the step is computed
    and is at least 1 whenever the sample size and the length are between
    1 and 2^48. *)
Theorem sample_systematic_correct (v : python) (S : Segmentation) (k : Z)
    (lbl : string) (copy : bool) (drawn : list nat) :
  (∀ s, systematic_step v k (seg_len S) = Returns s → 0 < s →
     ∃ pos neg,
       sample v S k "systematic" lbl copy drawn = Returns (pos, neg)
       ∧ label pos = lbl ∧ label neg = "NEG_" +:+ lbl
       ∧ buffer pos = map (λ x, deepcopy x copy) (at_multiples s (buffer S))
       ∧ buffer neg = map (λ x, deepcopy x copy) (off_multiples s (buffer S)))
  ∧ (1 ≤ k < 2 ^ 48 → 1 ≤ seg_len S < 2 ^ 48 →
     ∃ s, systematic_step v k (seg_len S) = Returns s ∧ 1 ≤ s).
Proof.
  split.
  - intros s. apply sample_systematic_select.
  - apply systematic_step_Returns.
Qed.

(** C9 (counterexample): with L = 3 and k = 2 the stride of the claim is
    ⌊3/2⌋ = 1, which selects all three segments; under both versions of
    Python the code computes the step iround(1 / (2 / 3)) = iround(1.5) = 2
    and selects the positions 0 and 2 only. *)
Lemma sample_systematic_stride_not_floor :
  seg_len three_segments `div` 2 = 1
  ∧ ∀ v, systematic_step v 2 (seg_len three_segments) = Returns 2
      ∧ ∃ pos neg,
          sample v three_segments 2 "systematic" "s" true [] = Returns (pos, neg)
          ∧ buffer pos = [seg_a; mkSegment 0 (Some 2) (Some 3) ∅]
          ∧ buffer pos ≠ map (λ x, deepcopy x true)
                           (at_multiples (seg_len three_segments `div` 2)
                              (buffer three_segments)).
Proof.
  split; [reflexivity|]. intros v. split; [by destruct v; vm_compute|].
  eexists _, _. split; [destruct v; vm_compute; reflexivity|].
  split; [reflexivity|]. vm_compute. discriminate.
Qed.

(** The step is not the quotient L / k rounded to the nearest integer
    either. For L = 93 and k = 2, where L / k = 46.5, the float 2 / 93 is
    slightly above the quotient and 1 / (2 / 93) is the float just below
    46.5: the step is 46. For L = 5 and k = 2 the float 1 / (2 / 5) is 2.5,
    which Python 2 rounds to 3 and Python 3 to 2. *)
Lemma systematic_step_values :
  (∀ v, systematic_step v 2 93 = Returns 46)
  ∧ systematic_step Python2 2 5 = Returns 3
  ∧ systematic_step Python3 2 5 = Returns 2.
Proof. split; [by intros []; vm_compute|]. split; by vm_compute. Qed.

Lemma sample_systematic_correct_witness :
  ∃ pos neg,
    sample Python3 three_segments 2 "systematic" "s" true [] = Returns (pos, neg)
    ∧ label pos = "s" ∧ label neg = "NEG_s"
    ∧ buffer pos = [seg_a; mkSegment 0 (Some 2) (Some 3) ∅]
    ∧ buffer neg = [seg_c].
Proof.
  destruct (sample_systematic_correct Python3 three_segments 2 "s" true [])
    as [Hsel Hstep].
  destruct (Hstep ltac:(lia) ltac:(change (seg_len three_segments) with 3; lia))
    as (s & Hs & Hpos).
  assert (s = 2) as -> by (vm_compute in Hs; congruence).
  destruct (Hsel 2 Hs ltac:(lia)) as (pos & neg & H & Hl1 & Hl2 & Hb1 & Hb2).
  exists pos, neg. repeat split; [exact H | exact Hl1 | exact Hl2 | |].
  - rewrite Hb1. vm_compute. reflexivity.
  - rewrite Hb2. vm_compute. reflexivity.
Defined.

(** ** Arrays and dok matrices *)

Lemma nd_tabulate_shape {V : Type} (r c : nat) (f : nat → nat → V) :
  nd_shape (nd_tabulate r c f) = (r, c).
Proof. done. Qed.

Lemma nd_at_tabulate {V : Type} `{Num V} (r c : nat) (f : nat → nat → V) (i j : nat) :
  (i < r)%nat → (j < c)%nat → nd_at (nd_tabulate r c f) i j = f i j.
Proof.
  intros Hi Hj. unfold nd_at, nd_tabulate; simpl.
  rewrite list_lookup_fmap, lookup_seq_lt by done. simpl.
  rewrite list_lookup_fmap, lookup_seq_lt by done. done.
Qed.






(** ** IntPivotCrosstab.to_association_matrix *)




(** ** Pivot → weighted flat → pivot *)

Lemma Z_is_zero_false (v : Z) : num_is_zero v = false ↔ v ≠ 0.
Proof.
  change (num_is_zero v) with (0 =? v). rewrite Z.eqb_neq.
  split; intros ? ?; congruence.
Qed.

Lemma Z_is_zero_true (v : Z) : num_is_zero v = true ↔ v = 0.
Proof. change (num_is_zero v) with (0 =? v). rewrite Z.eqb_eq. split; congruence. Qed.

(** What [self.get(row_id, col_id, 0)] returns on a well-formed table. *)
Lemma Table_get_wf (T : Table Z) (r c : string) (m : option Z) :
  table_wf T → r ∈ row_ids T → c ∈ col_ids T →
  ∃ i j, row_mapping T !! r = Some i ∧ col_mapping T !! c = Some j
    ∧ (i < (dok_shape (values T)).1)%nat ∧ (j < (dok_shape (values T)).2)%nat
    ∧ Table_get T r c m
      = match dok_items (values T) !! (i, j) with
        | Some v => Some v
        | None => match m with None => missing T | Some _ => m end
        end.
Proof.
  intros Hwf Hr Hc.
  destruct (wf_rows_mapped T Hwf r Hr) as (i & Hi & Hilt).
  destruct (wf_cols_mapped T Hwf c Hc) as (j & Hj & Hjlt).
  exists i, j. repeat split; try done.
  unfold Table_get, dok_get, dok_in_shape. rewrite Hi, Hj.
  rewrite !bool_decide_eq_true_2 by done. simpl.
  by destruct (dok_items (values T) !! (i, j)).
Qed.

Lemma elem_of_weighted_rows (T : Table Z) (c r : string) (v : Z) :
  (c, r, v) ∈ weighted_rows T
  ↔ r ∈ row_ids T ∧ c ∈ col_ids T
    ∧ Table_get T r c (Some 0) = Some v ∧ v ≠ 0.
Proof.
  unfold weighted_rows. rewrite list_elem_of_bind. split.
  - intros (r' & Hin & Hr'). apply list_elem_of_bind in Hin as (c' & Hin & Hc').
    change (@num_zero Z Z_Num) with 0 in Hin.
    destruct (Table_get T r' c' (Some 0)) as [count|] eqn:Hget;
      [|by apply elem_of_nil in Hin].
    destruct (num_is_zero count) eqn:Hz; [by apply elem_of_nil in Hin|].
    apply list_elem_of_singleton in Hin. injection Hin as -> -> ->.
    repeat split; try done. by apply Z_is_zero_false.
  - intros (Hr & Hc & Hget & Hv). exists r. split; [|done].
    apply list_elem_of_bind. exists c. split; [|done].
    change (@num_zero Z Z_Num) with 0. rewrite Hget.
    apply Z_is_zero_false in Hv. rewrite Hv. apply list_elem_of_singleton. done.
Qed.

Lemma NoDup_weighted_rows (T : Table Z) :
  NoDup (row_ids T) → NoDup (col_ids T) → NoDup (weighted_rows T).
Proof.
  intros Hr Hc. unfold weighted_rows. apply NoDup_bind; [| |done].
  - intros r1 r2 y _ _ H1 H2.
    apply list_elem_of_bind in H1 as (c1 & H1 & _).
    apply list_elem_of_bind in H2 as (c2 & H2 & _).
    destruct (Table_get T r1 c1 _) as [v1|]; [|by apply elem_of_nil in H1].
    destruct (num_is_zero v1); [by apply elem_of_nil in H1|].
    destruct (Table_get T r2 c2 _) as [v2|]; [|by apply elem_of_nil in H2].
    destruct (num_is_zero v2); [by apply elem_of_nil in H2|].
    apply list_elem_of_singleton in H1, H2. congruence.
  - intros r _. apply NoDup_bind; [| |done].
    + intros c1 c2 y _ _ H1 H2.
      destruct (Table_get T r c1 _) as [v1|]; [|by apply elem_of_nil in H1].
      destruct (num_is_zero v1); [by apply elem_of_nil in H1|].
      destruct (Table_get T r c2 _) as [v2|]; [|by apply elem_of_nil in H2].
      destruct (num_is_zero v2); [by apply elem_of_nil in H2|].
      apply list_elem_of_singleton in H1, H2. congruence.
    + intros c _. destruct (Table_get T r c _) as [v|]; [|constructor].
      destruct (num_is_zero v); [constructor | apply NoDup_singleton].
Qed.

(** The cell of the matrix that a written row comes from. *)
Lemma weighted_row_cell (T : Table Z) (c r : string) (v : Z) :
  table_wf T → (c, r, v) ∈ weighted_rows T →
  ∃ i j, row_mapping T !! r = Some i ∧ col_mapping T !! c = Some j
         ∧ dok_items (values T) !! (i, j) = Some v.
Proof.
  intros Hwf (Hr & Hc & Hget & Hv)%elem_of_weighted_rows.
  destruct (Table_get_wf T r c (Some 0) Hwf Hr Hc) as (i & j & Hi & Hj & _ & _ & Hg).
  exists i, j. repeat split; try done. rewrite Hg in Hget.
  destruct (dok_items (values T) !! (i, j)); congruence.
Qed.

Lemma weighted_rows_key_inj (T : Table Z) (c r : string) (v v' : Z) :
  (c, r, v) ∈ weighted_rows T → (c, r, v') ∈ weighted_rows T → v = v'.
Proof.
  intros (_ & _ & H1 & _)%elem_of_weighted_rows (_ & _ & H2 & _)%elem_of_weighted_rows.
  congruence.
Qed.

(** As many rows are written as the matrix stores cells. *)
Lemma length_weighted_rows (T : Table Z) :
  table_wf T → length (weighted_rows T) = dok_nnz (values T).
Proof.
  intros Hwf. unfold dok_nnz. rewrite <- length_map_to_list.
  rewrite <- (length_fmap fst (map_to_list _)).
  set (cell := λ x : string * string * Z,
         (default 0%nat (row_mapping T !! x.1.2),
          default 0%nat (col_mapping T !! x.1.1))).
  rewrite <- (length_fmap cell (weighted_rows T)).
  apply Permutation_length, NoDup_Permutation.
  - apply NoDup_fmap_2_strong.
    + intros [[c r] v] [[c' r'] v'] Hx Hy Heq.
      destruct (weighted_row_cell T c r v Hwf Hx) as (i & j & Hi & Hj & _).
      destruct (weighted_row_cell T c' r' v' Hwf Hy) as (i' & j' & Hi' & Hj' & _).
      unfold cell in Heq; simpl in Heq. rewrite Hi, Hj, Hi', Hj' in Heq.
      simpl in Heq. injection Heq as <- <-.
      pose proof Hx as (Hr & Hc & _)%elem_of_weighted_rows.
      pose proof Hy as (Hr' & Hc' & _)%elem_of_weighted_rows.
      assert (r = r') as <- by (by eapply (wf_rows_inj T Hwf)).
      assert (c = c') as <- by (by eapply (wf_cols_inj T Hwf)).
      f_equal. by eapply weighted_rows_key_inj.
    + apply NoDup_weighted_rows; apply Hwf.
  - apply NoDup_fst_map_to_list.
  - intros [i j]. rewrite list_elem_of_fmap. split.
    + intros ([[c r] v] & Heq & Hx).
      destruct (weighted_row_cell T c r v Hwf Hx) as (i' & j' & Hi & Hj & Hcell).
      unfold cell in Heq; simpl in Heq. rewrite Hi, Hj in Heq. simpl in Heq.
      injection Heq as -> ->. apply list_elem_of_fmap. exists ((i', j'), v).
      split; [done|]. by apply elem_of_map_to_list.
    + intros ([ij v] & Heq & Hv)%list_elem_of_fmap. simpl in Heq. subst ij.
      apply elem_of_map_to_list in Hv.
      destruct (wf_cells_in_shape T Hwf i j v Hv) as [Hi Hj].
      destruct (wf_rows_onto T Hwf i Hi) as (r & Hr & Hri).
      destruct (wf_cols_onto T Hwf j Hj) as (c & Hc & Hcj).
      exists (c, r, v). split.
      * unfold cell; simpl. by rewrite Hri, Hcj.
      * apply elem_of_weighted_rows. repeat split; try done.
        -- destruct (Table_get_wf T r c (Some 0) Hwf Hr Hc)
             as (i' & j' & Hi' & Hj' & _ & _ & ->).
           assert (i' = i) as -> by congruence. assert (j' = j) as -> by congruence.
           by rewrite Hv.
        -- apply Z_is_zero_false. by apply (wf_cells_nonzero T Hwf (i, j)).
Qed.

(** The mapping built from a list of ids. *)
Lemma mapping_of_snoc (l : list string) (x : string) :
  mapping_of (l ++ [x]) = <[x := length l]> (mapping_of l).
Proof.
  unfold mapping_of. rewrite length_app. simpl.
  replace (length l + 1)%nat with (S (length l)) by lia.
  rewrite seq_S. simpl.
  rewrite zip_with_app by (by rewrite length_seq).
  by rewrite foldl_app.
Qed.

Lemma mapping_of_lookup (l : list string) (k : string) (i : nat) :
  NoDup l → mapping_of l !! k = Some i ↔ l !! i = Some k.
Proof.
  induction l as [|x l IH] using rev_ind; intros Hnd.
  - unfold mapping_of; simpl. rewrite lookup_empty, lookup_nil. done.
  - apply NoDup_app in Hnd as (Hl & Hx & _).
    rewrite mapping_of_snoc. destruct (decide (x = k)) as [->|Hne].
    + rewrite lookup_insert_eq. split.
      * intros [= <-]. by rewrite list_lookup_middle.
      * intros Hi. f_equal. destruct (decide (i < length l)%nat) as [Hlt|Hge].
        -- rewrite lookup_app_l in Hi by done. exfalso.
           apply (Hx k); [by eapply list_elem_of_lookup_2 | apply list_elem_of_here].
        -- apply lookup_lt_Some in Hi. rewrite length_app in Hi. simpl in Hi. lia.
    + rewrite lookup_insert_ne by done. rewrite (IH Hl). split.
      * intros Hi. by apply lookup_app_l_Some.
      * intros Hi. destruct (decide (i < length l)%nat) as [Hlt|Hge].
        -- by rewrite lookup_app_l in Hi.
        -- rewrite lookup_app_r in Hi by lia.
           apply list_lookup_singleton_Some in Hi as [_ ?]. congruence.
Qed.

Lemma mapping_of_inj (l : list string) (k k' : string) (i : nat) :
  NoDup l → mapping_of l !! k = Some i → mapping_of l !! k' = Some i → k = k'.
Proof.
  intros Hnd H1 H2. apply (mapping_of_lookup l _ _ Hnd) in H1, H2. congruence.
Qed.

Lemma mapping_of_elem (l : list string) (k : string) :
  NoDup l → k ∈ l → ∃ i, mapping_of l !! k = Some i ∧ (i < length l)%nat.
Proof.
  intros Hnd [i Hi]%list_elem_of_lookup. exists i. split.
  - by apply mapping_of_lookup.
  - by eapply lookup_lt_Some.
Qed.

(** np.unique *)
Lemma NoDup_np_unique (l : list string) : NoDup (np_unique l).
Proof.
  unfold np_unique. rewrite merge_sort_Permutation. apply NoDup_remove_dups.
Qed.

Lemma elem_of_np_unique (l : list string) (x : string) : x ∈ np_unique l ↔ x ∈ l.
Proof.
  unfold np_unique. rewrite merge_sort_Permutation. apply elem_of_remove_dups.
Qed.

Lemma all_written_Some {V : Type} (rows : list (string * string * V)) :
  all_written (Some <$> rows) = Returns rows.
Proof.
  induction rows as [|x rows IH]; [done|].
  rewrite fmap_cons. cbn [all_written]. by rewrite IH.
Qed.

(** The loop that fills the new matrix, of floats. *)
Lemma to_pivot_loop_spec (rows : list (string * string * Z))
    (rm cm : gmap string nat) (d : dok_matrix float64) :
  (∀ c r v, (c, r, v) ∈ rows →
     v ≠ 0 ∧ ∃ i j, rm !! r = Some i ∧ cm !! c = Some j
                    ∧ (i < (dok_shape d).1)%nat ∧ (j < (dok_shape d).2)%nat) →
  ∃ d', to_pivot_loop f64_of_int (Some <$> rows) rm cm d = Returns d'
    ∧ dok_shape d' = dok_shape d
    ∧ (∀ i j x, dok_items d' !! (i, j) = Some x →
         dok_items d !! (i, j) = Some x
         ∨ ∃ c r v, (c, r, v) ∈ rows ∧ x = f64_of_int v
                    ∧ rm !! r = Some i ∧ cm !! c = Some j)
    ∧ (∀ i j, (∀ c r v, (c, r, v) ∈ rows →
                 ¬ (rm !! r = Some i ∧ cm !! c = Some j)) →
         dok_items d' !! (i, j) = dok_items d !! (i, j))
    ∧ (NoDup ((λ x, (x.1.2, x.1.1)) <$> rows) →
       (∀ r r' i, rm !! r = Some i → rm !! r' = Some i → r = r') →
       (∀ c c' j, cm !! c = Some j → cm !! c' = Some j → c = c') →
       ∀ c r v i j, (c, r, v) ∈ rows → rm !! r = Some i → cm !! c = Some j →
         dok_items d' !! (i, j) = Some (f64_of_int v)).
Proof.
  revert d. induction rows as [|[[c r] v] rows IH]; intros d Hrows.
  - exists d. simpl. split; [done|]. split; [done|]. split; [by left|].
    split; [done|]. intros _ _ _ c r v i j Hin. by apply elem_of_nil in Hin.
  - destruct (Hrows c r v (list_elem_of_here _ _)) as (Hv & i & j & Hi & Hj & Hilt & Hjlt).
    rewrite fmap_cons. cbn [to_pivot_loop]. rewrite Hi, Hj.
    cbn [of_option result_bind]. unfold dok_setitem, dok_in_shape.
    rewrite !bool_decide_eq_true_2 by done. cbn [andb result_bind].
    change (num_is_zero (f64_of_int v)) with (f64_is_zero (f64_of_int v)).
    rewrite (f64_of_int_nonzero v Hv).
    set (d1 := mkDok (dok_shape d) (<[(i, j) := f64_of_int v]> (dok_items d))).
    destruct (IH d1) as (d' & Hloop & Hshape & HA & HB & HC).
    { intros c' r' v' Hin. apply Hrows. by apply list_elem_of_further. }
    exists d'. split; [done|]. split; [done|]. split; [|split].
    + intros i' j' x Hd'.
      destruct (HA i' j' x Hd') as [Hd1|(c' & r' & v' & Hin & ? & ? & ?)].
      * simpl in Hd1. destruct (decide ((i, j) = (i', j'))) as [[= <- <-]|Hne].
        -- rewrite lookup_insert_eq in Hd1. injection Hd1 as <-.
           right. exists c, r, v. split; [apply list_elem_of_here | done].
        -- rewrite lookup_insert_ne in Hd1 by done. by left.
      * right. exists c', r', v'. split; [by apply list_elem_of_further | done].
    + intros i' j' Hnone. rewrite HB.
      * simpl. rewrite lookup_insert_ne; [done|]. intros [= <- <-].
        apply (Hnone c r v); [apply list_elem_of_here | done].
      * intros c' r' v' Hin. apply (Hnone c' r' v'). by apply list_elem_of_further.
    + intros Hnd Hrinj Hcinj c' r' v' i' j' Hin Hi' Hj'.
      rewrite fmap_cons in Hnd. apply NoDup_cons in Hnd as [Hfresh Hnd].
      apply elem_of_cons in Hin as [[= -> -> ->]|Hin].
      * assert (i' = i) as -> by congruence. assert (j' = j) as -> by congruence.
        rewrite HB; [simpl; by rewrite lookup_insert_eq|].
        intros c2 r2 v2 Hin2 [Hr2 Hc2]. apply Hfresh.
        apply list_elem_of_fmap. exists (c2, r2, v2). split; [|done]. simpl.
        f_equal; [by eapply Hrinj | by eapply Hcinj].
      * by eapply HC.
Qed.

Lemma to_weighted_flat_Returns (T : Table Z) :
  table_wf T →
  ∃ W, to_weighted_flat T = Returns W
    ∧ wf_values W = Some <$> weighted_rows T
    ∧ wf_missing W = missing T
    ∧ (t_class T = IntPivotCrosstab → wf_class W = IntWeightedFlatCrosstab)
    ∧ is_Some (wf_col_ids W !! 0%nat) ∧ is_Some (wf_col_ids W !! 1%nat).
Proof.
  intros Hwf. unfold to_weighted_flat.
  rewrite (length_weighted_rows T Hwf).
  destruct (decide (dok_nnz (values T) < dok_nnz (values T))%nat); [lia|].
  eexists. split; [reflexivity|]. cbn [wf_values wf_missing wf_class wf_col_ids].
  rewrite Nat.sub_diag. simpl replicate. rewrite app_nil_r.
  split; [done|]. split; [done|]. split; [by intros ->|].
  destruct (decide (1 < length (row_ids T))%nat); simpl; eauto.
Qed.

(** C3 (amended): for every IntPivotCrosstab T that is well formed
    (distinct row ids and distinct column ids, mapped one-to-one onto the
    rows and columns of the matrix, whose stored cells lie within its shape
    and are not zero) and whose cells are of magnitude at most 2^53, both
    conversions succeed and [T.to_weighted_flat().to_pivot()], which passes
    through an IntWeightedFlatCrosstab, is again an IntPivotCrosstab with
    the missing value of T which equals T cell-wise: [get] returns on it
    what it returns on T at every (row id, column id) pair of T, whatever
    the missing value asked for, and every cell it stores is a non-zero
    cell of T under the same pair of ids. *)
Theorem weighted_flat_roundtrip (T : Table Z) :
  table_wf T → t_class T = IntPivotCrosstab →
  (∀ ij v, dok_items (values T) !! ij = Some v → - 2 ^ 53 ≤ v ≤ 2 ^ 53) →
  ∃ W P, to_weighted_flat T = Returns W
    ∧ wf_class W = IntWeightedFlatCrosstab
    ∧ to_pivot W = Returns P
    ∧ missing P = missing T
    ∧ t_class P = IntPivotCrosstab
    ∧ (∀ r c m, r ∈ row_ids T → c ∈ col_ids T →
         Table_get P r c m = Table_get T r c m)
    ∧ (∀ i j v, dok_items (values P) !! (i, j) = Some v →
         v ≠ 0 ∧ ∃ r c, row_mapping P !! r = Some i ∧ col_mapping P !! c = Some j
                        ∧ r ∈ row_ids T ∧ c ∈ col_ids T
                        ∧ Table_get T r c (Some 0) = Some v).
Proof.
  intros Hwf Hclass Hbound.
  destruct (to_weighted_flat_Returns T Hwf)
    as (W & HW & Hvals & Hmiss & Hcls & [h0 Hh0] & [h1 Hh1]).
  exists W. unfold to_pivot. rewrite Hh0, Hh1, Hvals, all_written_Some.
  cbn [of_option result_bind].
  set (rows := weighted_rows T).
  set (new_col_ids := np_unique ((λ x, x.1.1) <$> rows)).
  set (new_row_ids := np_unique ((λ x, x.1.2) <$> rows)).
  set (rm := mapping_of new_row_ids). set (cm := mapping_of new_col_ids).
  pose proof (NoDup_np_unique ((λ x, x.1.2) <$> rows)) as Hrnd.
  pose proof (NoDup_np_unique ((λ x, x.1.1) <$> rows)) as Hcnd.
  fold new_row_ids in Hrnd. fold new_col_ids in Hcnd.
  destruct (to_pivot_loop_spec rows rm cm
              (mkDok (length new_row_ids, length new_col_ids) ∅))
    as (d' & Hloop & Hshape & HA & HB & HC).
  { intros c r v Hin. split.
    - by apply elem_of_weighted_rows in Hin as (_ & _ & _ & ?).
    - destruct (mapping_of_elem new_row_ids r Hrnd) as (i & Hi & Hilt).
      { apply elem_of_np_unique, list_elem_of_fmap. by exists (c, r, v). }
      destruct (mapping_of_elem new_col_ids c Hcnd) as (j & Hj & Hjlt).
      { apply elem_of_np_unique, list_elem_of_fmap. by exists (c, r, v). }
      exists i, j. done. }
  rewrite Hloop. cbn [result_bind]. eexists. split; [done|].
  split; [by apply Hcls|]. split; [reflexivity|].
  cbn [missing t_class row_mapping col_mapping values].
  split; [done|]. split; [done|].
  assert (Hexact : ∀ c r v, (c, r, v) ∈ rows → f64_to_int64 (f64_of_int v) = v).
  { intros c r v Hin.
    destruct (weighted_row_cell T c r v Hwf Hin) as (i & j & _ & _ & Hcell).
    apply f64_of_int_exact. by eapply Hbound. }
  assert (HC0 : ∀ c r v i j, (c, r, v) ∈ rows → rm !! r = Some i → cm !! c = Some j →
                  dok_items d' !! (i, j) = Some (f64_of_int v)).
  { apply HC.
    - apply NoDup_fmap_2_strong.
      + intros [[c1 r1] v1] [[c2 r2] v2] Hx Hy [= <- <-]. f_equal.
        by eapply weighted_rows_key_inj.
      + apply NoDup_weighted_rows; apply Hwf.
    - intros r1 r2 i1. by apply mapping_of_inj.
    - intros c1 c2 j1. by apply mapping_of_inj. }
  assert (HC' : ∀ c r v i j, (c, r, v) ∈ rows → rm !! r = Some i → cm !! c = Some j →
                  dok_items (dok_astype_int d') !! (i, j) = Some v).
  { intros c r v i j Hin Hi Hj. cbn [dok_astype_int dok_items].
    rewrite lookup_fmap, (HC0 c r v i j Hin Hi Hj).
    simpl. f_equal. by eapply Hexact. }
  assert (HA' : ∀ i j v, dok_items (dok_astype_int d') !! (i, j) = Some v →
                  ∃ c r, (c, r, v) ∈ rows ∧ rm !! r = Some i ∧ cm !! c = Some j).
  { intros i j v. cbn [dok_astype_int dok_items]. rewrite lookup_fmap.
    destruct (dok_items d' !! (i, j)) as [x|] eqn:Hx; [|done]. simpl. intros [= <-].
    destruct (HA i j x Hx) as [Hempty|(c & r & v & Hin & -> & Hr & Hc)].
    { simpl in Hempty. by rewrite lookup_empty in Hempty. }
    exists c, r. by rewrite (Hexact c r v Hin). }
  split.
  - intros r c m Hr Hc.
    destruct (Table_get_wf T r c m Hwf Hr Hc) as (i & j & Hi & Hj & Hilt & Hjlt & ->).
    unfold Table_get. cbn [missing row_mapping col_mapping values]. rewrite Hmiss.
    set (miss := match m with None => missing T | Some _ => m end).
    destruct (dok_items (values T) !! (i, j)) as [v|] eqn:Hcell.
    + assert (Hin : (c, r, v) ∈ rows).
      { apply elem_of_weighted_rows. repeat split; try done.
        - destruct (Table_get_wf T r c (Some 0) Hwf Hr Hc)
            as (i' & j' & Hi' & Hj' & _ & _ & ->).
          assert (i' = i) as -> by congruence. assert (j' = j) as -> by congruence.
          by rewrite Hcell.
        - apply Z_is_zero_false. by apply (wf_cells_nonzero T Hwf (i, j)). }
      destruct (mapping_of_elem new_row_ids r Hrnd) as (i' & Hi' & Hilt').
      { apply elem_of_np_unique, list_elem_of_fmap. by exists (c, r, v). }
      destruct (mapping_of_elem new_col_ids c Hcnd) as (j' & Hj' & Hjlt').
      { apply elem_of_np_unique, list_elem_of_fmap. by exists (c, r, v). }
      change (rm !! r = Some i') in Hi'. change (cm !! c = Some j') in Hj'.
      rewrite Hi', Hj'. unfold dok_get, dok_in_shape.
      cbn [dok_astype_int dok_shape]. rewrite Hshape.
      cbn [dok_shape fst snd]. rewrite !bool_decide_eq_true_2 by done.
      cbn [andb].
      change (f64_to_int64 <$> dok_items d') with (dok_items (dok_astype_int d')).
      by rewrite (HC' c r v i' j' Hin Hi' Hj').
    + destruct (rm !! r) as [i'|] eqn:Hi'; [|done].
      destruct (cm !! c) as [j'|] eqn:Hj'; [|done].
      unfold dok_get. destruct (dok_in_shape (dok_astype_int d') i' j'); [|done].
      destruct (dok_items (dok_astype_int d') !! (i', j')) as [v|] eqn:Hd'; [|done].
      exfalso.
      destruct (HA' i' j' v Hd') as (c2 & r2 & Hin & Hr2 & Hc2).
      assert (r2 = r) as -> by (by eapply (mapping_of_inj new_row_ids)).
      assert (c2 = c) as -> by (by eapply (mapping_of_inj new_col_ids)).
      destruct (weighted_row_cell T c r v Hwf Hin) as (i2 & j2 & ? & ? & Hcell2).
      congruence.
  - intros i j v Hd'. destruct (HA' i j v Hd') as (c & r & Hin & Hr & Hc).
    pose proof Hin as (? & ? & ? & ?)%elem_of_weighted_rows.
    split; [done|]. exists r, c. done.
Qed.

(** Tables whose mappings are those of their lists of ids (as built by
    every constructor of the code) are well formed. *)
Lemma table_wf_mapping_of (T : Table Z) :
  NoDup (row_ids T) → NoDup (col_ids T) →
  row_mapping T = mapping_of (row_ids T) →
  col_mapping T = mapping_of (col_ids T) →
  dok_shape (values T) = (length (row_ids T), length (col_ids T)) →
  map_Forall (λ ij v, (ij.1 < length (row_ids T))%nat
                      ∧ (ij.2 < length (col_ids T))%nat ∧ v ≠ 0)
    (dok_items (values T)) →
  table_wf T.
Proof.
  intros Hr Hc Hrm Hcm Hshape Hcells. split; rewrite ?Hshape, ?Hrm, ?Hcm; simpl.
  - done.
  - done.
  - intros r. by apply mapping_of_elem.
  - intros c. by apply mapping_of_elem.
  - intros r r' i _ _. by apply mapping_of_inj.
  - intros c c' j _ _. by apply mapping_of_inj.
  - intros i [r Hi]%lookup_lt_is_Some_2. exists r. split.
    + by eapply list_elem_of_lookup_2.
    + by apply mapping_of_lookup.
  - intros j [c Hj]%lookup_lt_is_Some_2. exists c. split.
    + by eapply list_elem_of_lookup_2.
    + by apply mapping_of_lookup.
  - intros i j v Hv. by destruct (Hcells (i, j) v Hv) as (? & ? & _).
  - intros ij v Hv. apply Z_is_zero_false. by destruct (Hcells ij v Hv) as (_ & _ & ?).
Qed.

Lemma table_S2_wf : table_wf table_S2.
Proof.
  apply table_wf_mapping_of; try reflexivity.
  - apply (bool_decide_unpack _). vm_compute. exact I.
  - apply (bool_decide_unpack _). vm_compute. exact I.
  - apply (bool_decide_unpack _). vm_compute. exact I.
Qed.

(** Scenario S2 after the round trip: 'e' is still counted twice in
    'example', and 'a' not at all in 'simple'. *)

Lemma weighted_flat_roundtrip_witness :
  ∃ W P, to_weighted_flat table_S2 = Returns W ∧ to_pivot W = Returns P
    ∧ Table_get P "example" "e" None = Some 2
    ∧ Table_get P "simple" "a" None = Some 0.
Proof.
  destruct (weighted_flat_roundtrip table_S2 table_S2_wf eq_refl)
    as (W & P & HW & _ & HP & _ & _ & Hget & _).
  { change (map_Forall (λ _ v, - 2 ^ 53 ≤ v ≤ 2 ^ 53) (dok_items (values table_S2))).
    apply (bool_decide_unpack _). vm_compute. exact I. }
  exists W, P. split; [exact HW|]. split; [exact HP|].
  rewrite !Hget.
  - split; vm_compute; reflexivity.
  - apply (bool_decide_unpack _). vm_compute. exact I.
  - apply (bool_decide_unpack _). vm_compute. exact I.
  - apply (bool_decide_unpack _). vm_compute. exact I.
  - apply (bool_decide_unpack _). vm_compute. exact I.
Defined.

Lemma table_big_wf : table_wf table_big.
Proof.
  apply table_wf_mapping_of; try reflexivity.
  - apply (bool_decide_unpack _). vm_compute. exact I.
  - apply (bool_decide_unpack _). vm_compute. exact I.
  - apply (bool_decide_unpack _). vm_compute. exact I.
Qed.

(** C3 (counterexample): the round trip is not the identity on every
    IntPivotCrosstab. The weights pass through a matrix of floats: the
    well-formed table whose only cell holds 2^53 + 1 comes back with the
    cell 2^53. And a table whose two rows bear the same id is not
    converted at all: to_weighted_flat writes the only stored cell twice
    into an array of one row, which raises IndexError. *)
Lemma weighted_flat_roundtrip_not_identity :
  (table_wf table_big ∧ t_class table_big = IntPivotCrosstab
   ∧ ∃ W P, to_weighted_flat table_big = Returns W ∧ to_pivot W = Returns P
       ∧ Table_get table_big "r" "c" None = Some (2 ^ 53 + 1)
       ∧ Table_get P "r" "c" None = Some (2 ^ 53))
  ∧ (t_class table_dup = IntPivotCrosstab
     ∧ dok_items (values table_dup) = {[ (1, 0)%nat := 1 ]}
     ∧ to_weighted_flat table_dup = Raises IndexError).
Proof.
  split.
  - split; [exact table_big_wf|]. split; [done|].
    eexists _, _. split; [vm_compute; reflexivity|].
    split; [vm_compute; reflexivity|]. split; vm_compute; reflexivity.
  - split; [done|]. split; [done|]. vm_compute. reflexivity.
Qed.

(** ** Processor.cooc_in_window *)

(** Whatever table count_in_window returns, the presence/absence matrix
    made from it is a matrix of floats, and so is its product with its
    transpose: from_numpy refuses to store it in an IntPivotCrosstab. *)
Lemma cooc_in_window_float {F : Type} `{Float F} list_set data seg key W T :
  count_in_window list_set data seg key W = Returns T →
  cooc_in_window (F:=F) list_set data seg key W = Raises ValueError.
Proof.
  intros HT. unfold cooc_in_window. rewrite HT. cbn [result_bind].
  destruct (nd_dot _ _) as [cooc|e] eqn:Hdot; cbn [result_bind].
  - reflexivity.
  - unfold nd_dot in Hdot. destruct (decide _); [discriminate|congruence].
Qed.

Lemma count_in_window_letter_seg :
  ∃ T, count_in_window remove_dups un_texte_data (Some letter_seg) None 3 = Returns T
       ∧ Table_get T "3" "t" None = Some 1.
Proof. eexists. split; [vm_compute; reflexivity|]. vm_compute. reflexivity. Qed.

(** C8 (defect). On the letters of 'un texte' with a window of size 3, the
    input of tests/test_cooc.py, for which the diagonal entry of 't' should
    be 5, cooc_in_window returns no table: it raises the ValueError of
    from_numpy ('Cannot cast non-integer numpy array to IntPivotCrosstab'),
    the presence/absence matrix being the result of a true division. *)
Theorem cooc_in_window_raises_ValueError {F : Type} `{Float F} :
  cooc_in_window (F:=F) remove_dups un_texte_data (Some letter_seg) None 3
  = Raises ValueError.
Proof.
  destruct count_in_window_letter_seg as (T & HT & _).
  exact (cooc_in_window_float _ _ _ _ _ _ HT).
Qed.

(** ** More on containment (Segment.py) *)

Lemma scan_loop_sound (l : list Segment) (k e sl : Z) :
  scan_loop l k e sl `sublist_of` l
  ∧ Forall (λ b, str_index b = k ∧ mstart b ≤ e ∧ mend sl b ≤ e) (scan_loop l k e sl).
Proof.
  induction l as [|x l [IH1 IH2]]; simpl.
  - split; constructor.
  - destruct (decide _) as [|Hn].
    + split; [apply sublist_nil_l | constructor].
    + destruct (decide _).
      * split; [by apply sublist_skip|].
        constructor; [|assumption].
        repeat split; [|lia|lia].
        destruct (decide (k = str_index x)); [done|]. exfalso. apply Hn. by left.
      * split; [by apply sublist_cons | assumption].
Qed.

Lemma py_slice_from_sublist {A : Type} (l : list A) (i : Z) :
  py_slice_from l i `sublist_of` l.
Proof. unfold py_slice_from. destruct (decide _); apply sublist_drop. Qed.

(** X1. Without any assumption on the order of the segmentation, what
    get_contained_segments returns is a sub-sequence of the segmentation (in
    its order), made of segments of the same str_index as the receiver that
    start and end no later than the receiver ends. *)
Theorem get_contained_segments_sound (data : list datum) (a : Segment)
    (B : Segmentation) (l : list Segment) :
  get_contained_segments data a B = Some l →
  l `sublist_of` buffer B
  ∧ ∀ b, b ∈ l →
      str_index b = str_index a
      ∧ ∃ sl, get_data_len data (str_index a) = Some sl
              ∧ mstart b ≤ mend sl a ∧ mend sl b ≤ mend sl a.
Proof.
  unfold get_contained_segments. intros Hl.
  destruct (get_data_len data (str_index a)) as [sl|] eqn:Hsl; [|discriminate].
  simpl in Hl.
  destruct (get_contained_segments_try _ _ _ _ _) as [ret|] eqn:Htry.
  2:{ injection Hl as <-. split; [apply sublist_nil_l|]. intros b Hb.
      by apply elem_of_nil in Hb. }
  injection Hl as <-.
  unfold get_contained_segments_try in Htry.
  destruct (str_index_ptr B !! str_index a) as [p|]; [|discriminate].
  simpl in Htry.
  destruct (bsearch_loop _ _ _ _ _) as [[ss es]|]; [|discriminate].
  simpl in Htry.
  destruct (seg_getitem B ss) as [f|]; [|discriminate].
  simpl in Htry. injection Htry as <-.
  match goal with |- scan_loop (py_slice_from _ ?i) _ _ _ `sublist_of` _ ∧ _ =>
    destruct (scan_loop_sound (py_slice_from (buffer B) i) (str_index a)
                (mend sl a) sl) as [H1 H2];
    pose proof (py_slice_from_sublist (buffer B) i) as H3 end.
  split; [by etrans|].
  intros b Hb. rewrite Forall_forall in H2. destruct (H2 b Hb) as (? & ? & ?).
  split; [done|]. exists sl. done.
Qed.

Lemma scan_loop_indices_spec (pre l : list Segment) (k e sl : Z) :
  mapM (λ i, (pre ++ l) !! Z.to_nat i)
       (scan_loop_indices l (Z.of_nat (length pre)) k e sl)
  = Some (scan_loop l k e sl).
Proof.
  revert pre. induction l as [|x l IH]; intros pre; simpl; [done|].
  destruct (decide _); [done|].
  specialize (IH (pre ++ [x])).
  rewrite length_app, Nat2Z.inj_add in IH. simpl in IH.
  rewrite <- app_assoc in IH. simpl in IH.
  destruct (decide _); [|exact IH].
  cbn [mapM]. rewrite Nat2Z.id.
  rewrite lookup_app_r by lia. rewrite Nat.sub_diag. simpl.
  change (Z.of_nat 1) with 1 in IH. rewrite IH. done.
Qed.

Lemma bsearch_loop_start_mono (B : Segmentation) (st : Z) (fuel : nat)
    (ss es ss' es' : Z) :
  bsearch_loop fuel B st ss es = Some (ss', es') → ss ≤ ss'.
Proof.
  revert ss es. induction fuel as [|fuel IH]; intros ss es; simpl.
  - destruct (decide _); [discriminate|]. intros [= <- <-]. lia.
  - destruct (decide _) as [Hgap|]; [|intros [= <- <-]; lia].
    destruct (seg_getitem B _) as [m|]; [|discriminate]. simpl.
    pose proof (div2_between ss es Hgap).
    destruct (decide _); intros Hb; apply IH in Hb; lia.
Qed.

(** X2. When the pointers of the segmentation are non-negative,
    get_contained_segment_indices returns the positions of exactly the
    segments that get_contained_segments returns, in the same order. *)
Theorem get_contained_segment_indices_agree (data : list datum) (a : Segment)
    (B : Segmentation) (idx : list Z) :
  (∀ k p, str_index_ptr B !! k = Some p → 0 ≤ p) →
  get_contained_segment_indices data a B = Some idx →
  ∃ l, get_contained_segments data a B = Some l
       ∧ mapM (λ i, buffer B !! Z.to_nat i) idx = Some l.
Proof.
  intros Hptr.
  unfold get_contained_segment_indices, get_contained_segments.
  destruct (get_data_len data (str_index a)) as [sl|]; simpl; [|done].
  unfold get_contained_segment_indices_try, get_contained_segments_try.
  destruct (str_index_ptr B !! str_index a) as [p|] eqn:Hp; simpl.
  2:{ intros [= <-]. by exists []. }
  destruct (bsearch_loop _ _ _ _ _) as [[ss es]|] eqn:Hb; simpl.
  2:{ intros [= <-]. by exists []. }
  destruct (seg_getitem B ss) as [f|] eqn:Hf; simpl.
  2:{ intros [= <-]. by exists []. }
  intros [= <-]. eexists. split; [reflexivity|].
  apply bsearch_loop_start_mono in Hb. apply Hptr in Hp.
  set (s := if decide (mstart f >= mstart a) then ss - 1 else ss).
  assert (0 ≤ s + 1) as Hs by (unfold s; destruct (decide _); lia).
  unfold py_slice_from. rewrite decide_True by done.
  destruct (decide (Z.to_nat (s + 1) ≤ length (buffer B))%nat) as [Hle|Hgt].
  - pose proof (scan_loop_indices_spec (take (Z.to_nat (s + 1)) (buffer B))
                  (drop (Z.to_nat (s + 1)) (buffer B))
                  (str_index a) (mend sl a) sl) as H.
    rewrite take_drop in H. rewrite length_take, Nat.min_l in H by done.
    rewrite Z2Nat.id in H by done. exact H.
  - rewrite drop_ge by lia. reflexivity.
Qed.

Lemma get_contained_segments_sound_witness :
  [mkSegment 0 (Some 0) (Some 1) ∅; mkSegment 0 (Some 1) (Some 2) ∅]
    `sublist_of` buffer char_seg
  ∧ ∀ b, b ∈ [mkSegment 0 (Some 0) (Some 1) ∅; mkSegment 0 (Some 1) (Some 2) ∅] →
      str_index b = str_index first_word
      ∧ ∃ sl, get_data_len test_data (str_index first_word) = Some sl
              ∧ mstart b ≤ mend sl first_word ∧ mend sl b ≤ mend sl first_word.
Proof.
  apply (get_contained_segments_sound test_data first_word char_seg).
  vm_compute. reflexivity.
Defined.

Lemma get_contained_segment_indices_agree_witness :
  ∃ l, get_contained_segments test_data first_word char_seg = Some l
       ∧ mapM (λ i, buffer char_seg !! Z.to_nat i) [0; 1] = Some l.
Proof.
  apply (get_contained_segment_indices_agree test_data first_word char_seg [0; 1]).
  - intros k p.
    replace (str_index_ptr char_seg) with ({[0 := 0]} : gmap Z Z)
      by (vm_compute; reflexivity).
    intros Hp. apply lookup_singleton_Some in Hp as [_ <-]. lia.
  - vm_compute. reflexivity.
Defined.

(** X3. Segment.contains is transitive. *)
Theorem contains_trans (data : list datum) (a b c : Segment) :
  contains data a b = Some true → contains data b c = Some true →
  contains data a c = Some true.
Proof.
  intros Hab Hbc.
  assert (∃ sl, get_data_len data (str_index a) = Some sl) as [sl Hsl].
  { unfold contains in Hab. repeat (destruct (decide _); [discriminate|]).
    destruct (get_data_len data (str_index a)); [eauto|discriminate]. }
  pose proof (proj1 (contains_true_iff data a b sl Hsl) Hab) as (E & ? & ?).
  rewrite E in Hsl.
  pose proof (proj1 (contains_true_iff data b c sl Hsl) Hbc) as (E' & ? & ?).
  rewrite <- E in Hsl.
  apply (contains_true_iff data a c sl Hsl). repeat split; [congruence|lia|lia].
Qed.

Lemma contains_trans_witness :
  contains test_data (mkSegment 0 None None ∅) (mkSegment 0 (Some 1) (Some 2) ∅)
  = Some true.
Proof.
  apply (contains_trans test_data (mkSegment 0 None None ∅) first_word);
    vm_compute; reflexivity.
Defined.

(** ** The string store (Segmentation.get_data, Segmentation.set_data) *)

Lemma py_index_pos {A : Type} (l : list A) (i : Z) :
  0 ≤ i → py_index l i = l !! Z.to_nat i.
Proof. intros. unfold py_index. by rewrite decide_True. Qed.

Lemma no_pointer_to_pointer_insert (data : list datum) (n : nat) (v : datum) :
  no_pointer_to_pointer data →
  (∀ j, v = DRef j → 0 ≤ j ∧ Z.to_nat j ≠ n ∧ ∃ s, data !! Z.to_nat j = Some (DStr s)) →
  (∀ s j, v = DRef j → data !! n ≠ Some (DStr s)) →
  no_pointer_to_pointer (<[n := v]> data).
Proof.
  intros Hinv Hv Hrep i j Hi.
  destruct (decide (i = n)) as [->|Hne].
  - assert (n < length data)%nat as Hn.
    { apply lookup_lt_Some in Hi. by rewrite length_insert in Hi. }
    rewrite list_lookup_insert_eq in Hi by done. injection Hi as ->.
    destruct (Hv j eq_refl) as (? & ? & s & Hs). split; [done|].
    exists s. by rewrite list_lookup_insert_ne.
  - rewrite list_lookup_insert_ne in Hi by done.
    destruct (Hinv i j Hi) as (? & s & Hs). split; [done|].
    destruct (decide (Z.to_nat j = n)) as [<-|].
    + destruct v as [s'|j'].
      * exists s'. rewrite list_lookup_insert_eq; [done|]. by eapply lookup_lt_Some.
      * exfalso. by eapply (Hrep s j').
    + exists s. by rewrite list_lookup_insert_ne.
Qed.

Lemma no_pointer_to_pointer_snoc (data : list datum) (v : datum) :
  no_pointer_to_pointer data →
  (∀ j, v = DRef j → 0 ≤ j ∧ ∃ s, data !! Z.to_nat j = Some (DStr s)) →
  no_pointer_to_pointer (data ++ [v]).
Proof.
  intros Hinv Hv i j Hi.
  assert (0 ≤ j ∧ ∃ s, data !! Z.to_nat j = Some (DStr s)) as (? & s & Hs).
  { apply lookup_app_Some in Hi as [Hi|[_ Hi]]; [by eapply Hinv|].
    apply list_lookup_singleton_Some in Hi as [_ ->]. by apply Hv. }
  split; [done|]. exists s. by apply lookup_app_l_Some.
Qed.

(** X4. set_data keeps the store free of pointers to pointers. *)
Theorem set_data_no_pointer_to_pointer (data data' : list datum) (index : Z)
    (value_or_ref : datum) :
  no_pointer_to_pointer data →
  set_data data index value_or_ref = Returns data' →
  no_pointer_to_pointer data'.
Proof.
  intros Hinv. unfold set_data.
  destruct value_or_ref as [s|r]; cbn [result_bind].
  - destruct (decide _) as [Hin|].
    + destruct (py_index data index); intros [= <-];
        (apply no_pointer_to_pointer_insert; [done|discriminate|discriminate]).
    + intros [= <-]. by apply no_pointer_to_pointer_snoc.
  - destruct (decide (r < 0 ∨ _)) as [|Hr]; [discriminate|].
    destruct (decide (r = index)); [discriminate|].
    rewrite py_index_pos by lia.
    destruct (data !! Z.to_nat r) as [[s|r']|] eqn:Hr'; cbn [result_bind];
      [| |discriminate].
    + destruct (decide _) as [Hin|].
      * rewrite py_index_pos by lia.
        destruct (data !! Z.to_nat index) as [[s'|q]|] eqn:Hq; [discriminate| |];
          intros [= <-]; apply no_pointer_to_pointer_insert; try done.
        -- intros j [= <-]. split; [lia|]. split; [|eauto]. congruence.
        -- intros ? ? _. congruence.
        -- intros j [= <-]. split; [lia|]. split; [|eauto]. congruence.
        -- intros ? ? _. congruence.
      * intros [= <-]. apply no_pointer_to_pointer_snoc; [done|].
        intros j [= <-]. split; [lia|eauto].
    + destruct (Hinv _ _ Hr') as (? & s & Hs).
      destruct (decide _) as [Hin|].
      * rewrite py_index_pos by lia.
        destruct (data !! Z.to_nat index) as [[s'|q]|] eqn:Hq; [discriminate| |];
          intros [= <-]; apply no_pointer_to_pointer_insert; try done.
        -- intros j [= <-]. split; [lia|]. split; [|eauto]. congruence.
        -- intros ? ? _. congruence.
        -- intros j [= <-]. split; [lia|]. split; [|eauto]. congruence.
        -- intros ? ? _. congruence.
      * intros [= <-]. apply no_pointer_to_pointer_snoc; [done|].
        intros j [= <-]. split; [lia|eauto].
Qed.

Lemma set_data_no_pointer_to_pointer_witness :
  no_pointer_to_pointer [DStr "ab cde"; DStr "d"; DRef 0].
Proof.
  apply (set_data_no_pointer_to_pointer test_data _ 7 (DRef 0)).
  - intros [|[|[|i]]] j Hi; discriminate.
  - reflexivity.
Defined.

(** X5. In a store without pointers to pointers, get_data never returns a
    pointer: what it returns is a string. *)
Theorem get_data_returns_string (data : list datum) (index : Z) (value : datum) :
  no_pointer_to_pointer data →
  get_data data index = Some value → ∃ s, value = DStr s.
Proof.
  intros Hinv. unfold get_data.
  set (i := if decide (index < 0) then _ else _).
  destruct (py_index data i) as [[s|j]|] eqn:Hi; simpl; [| |discriminate].
  - intros [= <-]. eauto.
  - assert (∃ n : nat, data !! n = Some (DRef j)) as [n Hn].
    { unfold py_index in Hi. repeat destruct (decide _); first [by eauto | discriminate]. }
    destruct (Hinv n j Hn) as (? & s & Hs).
    rewrite py_index_pos by done. rewrite Hs. intros [= <-]. eauto.
Qed.

Lemma get_data_returns_string_witness : ∃ s, DStr "ab cde" = DStr s.
Proof.
  apply (get_data_returns_string [DStr "ab cde"; DStr "d"; DRef 0] (-1)).
  - intros [|[|[|i]]] j Hi; try discriminate.
    injection Hi as <-. split; [lia|]. by exists "ab cde".
  - reflexivity.
Defined.

(** X6. Storing a string never fails, and reading the slot it went to (the
    given index when it is within the store, the new last slot otherwise)
    gives the string back. *)
Theorem set_data_get_data (data : list datum) (index : Z) (s : string) :
  ∃ data', set_data data index (DStr s) = Returns data'
    ∧ get_data data'
        (if decide (0 ≤ index < Z.of_nat (length data)) then index
         else Z.of_nat (length data))
      = Some (DStr s).
Proof.
  unfold set_data. cbn [result_bind].
  destruct (decide (0 ≤ index < _)) as [Hin|Hout].
  - exists (<[Z.to_nat index := DStr s]> data). split.
    + by destruct (py_index data index).
    + unfold get_data. rewrite decide_False by lia.
      rewrite py_index_pos by lia.
      rewrite list_lookup_insert_eq by lia. done.
  - eexists. split; [reflexivity|].
    unfold get_data. rewrite decide_False by lia.
    rewrite py_index_nat.
    rewrite lookup_app_r by lia. rewrite Nat.sub_diag. done.
Qed.

(** ** The pointer map of a segmentation built from contiguous runs *)

Lemma first_position_from_snoc (pre : list Segment) (s : Segment) (k pos : Z) :
  first_position_from (pre ++ [s]) k pos
  = match first_position_from pre k pos with
    | Some v => Some v
    | None => if decide (str_index s = k) then Some (pos + Z.of_nat (length pre))
              else None
    end.
Proof.
  revert pos. induction pre as [|x pre IH]; intros pos; simpl.
  - destruct (decide _); [f_equal; lia|done].
  - destruct (decide (str_index x = k)); [done|].
    rewrite IH. destruct (first_position_from pre k (pos + 1)); [done|].
    destruct (decide _); [f_equal; lia|done].
Qed.

Lemma first_position_snoc (pre : list Segment) (s : Segment) (k : Z) :
  first_position (pre ++ [s]) k
  = match first_position pre k with
    | Some v => Some v
    | None => if decide (str_index s = k) then Some (Z.of_nat (length pre)) else None
    end.
Proof. unfold first_position. by rewrite first_position_from_snoc. Qed.

Lemma contiguous_app_l (l1 l2 : list Segment) :
  contiguous (l1 ++ l2) → contiguous l1.
Proof.
  intros Hc i j m x y z Hijm Hx Hy Hz.
  apply (Hc i j m x y z Hijm); by apply lookup_app_l_Some.
Qed.

Lemma ptr_step_consistent (pre : list Segment) (s : Segment) (m : gmap Z Z) :
  contiguous (pre ++ [s]) →
  (∀ k, m !! k = first_position pre k) →
  ∀ k, ptr_step (last pre) s (Z.of_nat (length pre)) m !! k
       = first_position (pre ++ [s]) k.
Proof.
  intros Hc Hm k. rewrite first_position_snoc. unfold ptr_step.
  assert (∀ x, x ∈ pre → str_index x = str_index s →
            ∃ l, last pre = Some l ∧ str_index l = str_index s) as Hrun.
  { intros x Hx E. apply list_elem_of_lookup in Hx as [i Hi].
    destruct (last pre) as [l|] eqn:Hl.
    2:{ apply last_None in Hl. subst pre. by rewrite lookup_nil in Hi. }
    exists l. split; [done|].
    rewrite last_lookup in Hl.
    pose proof (lookup_lt_Some _ _ _ Hi) as Hlt.
    rewrite <- E.
    apply (Hc i (pred (length pre)) (length pre) x l s); [lia| | | |done].
    - by apply lookup_app_l_Some.
    - by apply lookup_app_l_Some.
    - rewrite lookup_app_r by lia. by rewrite Nat.sub_diag. }
  assert (first_position pre (str_index s) = None →
          ∀ l, last pre = Some l → str_index s ≠ str_index l) as Hfresh.
  { intros E l Hl Heq. apply first_position_from_None in E.
    rewrite Forall_forall in E. apply (E l); [|done].
    rewrite last_lookup in Hl. by eapply list_elem_of_lookup_2. }
  destruct (decide (k = str_index s)) as [->|Hk].
  - rewrite decide_True by done.
    destruct (first_position pre (str_index s)) as [v|] eqn:E.
    + destruct (first_position_Some _ _ _ E) as (p1 & x & r & -> & _ & Ex & _).
      destruct (Hrun x) as (l & -> & El); [set_solver|done|].
      rewrite decide_False by (intros ?; congruence). by rewrite Hm.
    + destruct (last pre) as [l|] eqn:Hl.
      * rewrite decide_True by by eapply Hfresh. by rewrite lookup_insert_eq.
      * by rewrite lookup_insert_eq.
  - rewrite (decide_False (P := str_index s = k)) by done.
    assert (m !! k = match first_position pre k with Some v => Some v | None => None end)
      as <- by (rewrite Hm; by destruct (first_position pre k)).
    destruct (last pre) as [l|]; [destruct (decide _)|];
      by rewrite ?lookup_insert_ne.
Qed.

Lemma get_str_index_ptr_loop_step (l : list Segment) (s : Segment)
    (last_seen : option Segment) (pos : Z) (m : gmap Z Z) :
  get_str_index_ptr_loop (s :: l) last_seen pos m
  = get_str_index_ptr_loop l (Some s) (pos + 1) (ptr_step last_seen s pos m).
Proof. reflexivity. Qed.

Lemma get_str_index_ptr_loop_consistent (l pre : list Segment) (m : gmap Z Z) :
  contiguous (pre ++ l) →
  (∀ k, m !! k = first_position pre k) →
  ∀ k, get_str_index_ptr_loop l (last pre) (Z.of_nat (length pre)) m !! k
       = first_position (pre ++ l) k.
Proof.
  revert pre m. induction l as [|s l IH]; intros pre m Hc Hm k.
  - simpl. rewrite app_nil_r. apply Hm.
  - rewrite get_str_index_ptr_loop_step.
    specialize (IH (pre ++ [s])). rewrite <- app_assoc in IH. simpl in IH.
    rewrite last_snoc, length_app, Nat2Z.inj_add in IH. simpl in IH.
    apply IH; [done|].
    apply ptr_step_consistent; [|done].
    apply (contiguous_app_l _ l). by rewrite <- app_assoc.
Qed.

Lemma first_position_from_app_Some (pre l : list Segment) (k pos p : Z) :
  first_position_from pre k pos = Some p →
  first_position_from (pre ++ l) k pos = Some p.
Proof.
  revert pos. induction pre as [|x pre IH]; intros pos; simpl; [done|].
  destruct (decide _); [done|]. apply IH.
Qed.

Lemma seg_getitem_last (S : Segmentation) :
  buffer S ≠ [] → seg_getitem S (-1) = last (buffer S).
Proof.
  intros Hne. unfold seg_getitem, seg_len.
  rewrite (decide_True (P := -1 < 0)) by lia.
  assert (0 < length (buffer S))%nat
    by (destruct (buffer S); [done|simpl; lia]).
  rewrite decide_True by lia.
  rewrite last_lookup. f_equal. lia.
Qed.

Lemma get_str_index_ptr_loop_union (l : list Segment) (last_seen : option Segment)
    (pos : Z) (m1 m2 : gmap Z Z) :
  get_str_index_ptr_loop l last_seen pos (m1 ∪ m2)
  = get_str_index_ptr_loop l last_seen pos m1 ∪ m2.
Proof.
  revert last_seen pos m1. induction l as [|s l IH]; intros last_seen pos m1; [done|].
  rewrite !get_str_index_ptr_loop_step. rewrite <- IH. f_equal.
  unfold ptr_step. destruct last_seen as [x|]; [destruct (decide _)|];
    by rewrite ?insert_union_l.
Qed.

(** X7. A segmentation constructed from a list of segments in which every
    str_index forms a single run has a consistent pointer map: each
    str_index is mapped to the position of its first segment, and nothing
    else is in the map. *)
Theorem Segmentation_of_list_ptr_consistent (l : list Segment) (lbl : string) :
  contiguous l → ptr_consistent (Segmentation_of_list l lbl).
Proof.
  intros Hc k. unfold Segmentation_of_list, _get_str_index_ptr. simpl.
  apply (get_str_index_ptr_loop_consistent l [] ∅); [done|].
  intros k'. by rewrite lookup_empty.
Qed.

Lemma Segmentation_of_list_ptr_consistent_witness :
  ptr_consistent (Segmentation_of_list [seg_a; seg_c; seg_b] "s").
Proof.
  apply Segmentation_of_list_ptr_consistent.
  intros [|[|[|i]]] [|[|[|j]]] [|[|[|m]]] x y z Hijm Hx Hy Hz; simplify_eq/=;
    first [done | lia].
Defined.

Lemma append_ptr_step (S : Segmentation) (s : Segment) :
  str_index_ptr (append S s)
  = ptr_step (last (buffer S)) s (seg_len S) (str_index_ptr S).
Proof.
  unfold append, ptr_step. cbn [str_index_ptr].
  destruct (decide (seg_len S = 0)) as [H0|Hn].
  - unfold seg_len in H0. destruct (buffer S); [done|simpl in H0; lia].
  - assert (buffer S ≠ []) as Hne.
    { intros E. apply Hn. unfold seg_len. by rewrite E. }
    rewrite seg_getitem_last by done.
    destruct (last (buffer S)) as [x|] eqn:Hl.
    + destruct (decide (str_index x ≠ _)), (decide (str_index s ≠ _));
        first [done | congruence].
    + by apply last_None in Hl.
Qed.

(** Appending a segment keeps the pointer map consistent whenever the
    segments of each str_index still form a single run afterwards. *)
Lemma append_ptr_consistent (S : Segmentation) (s : Segment) :
  ptr_consistent S → contiguous (buffer S ++ [s]) →
  ptr_consistent (append S s).
Proof.
  intros HS Hc k. rewrite append_ptr_step. unfold seg_len.
  apply ptr_step_consistent; [done|]. exact HS.
Qed.



(** So does extending it by a list of segments. *)
Lemma extend_ptr_consistent (S : Segmentation) (l : list Segment) :
  ptr_consistent S → contiguous (buffer S ++ l) →
  ptr_consistent (extend S l).
Proof.
  intros HS Hc k. unfold extend. cbn [str_index_ptr buffer].
  destruct (decide (seg_len S > 0)) as [Hpos|H0].
  - assert (buffer S ≠ []) as Hne.
    { intros E. unfold seg_len in Hpos. rewrite E in Hpos. simpl in Hpos. lia. }
    rewrite seg_getitem_last by done.
    destruct (str_index_ptr S !! k) as [p|] eqn:Hp.
    + rewrite (lookup_union_Some_l _ _ _ _ Hp).
      rewrite HS in Hp. symmetry. by apply first_position_from_app_Some.
    + rewrite lookup_union_r by done. unfold _get_str_index_ptr, seg_len.
      rewrite <- (get_str_index_ptr_loop_consistent l (buffer S) (str_index_ptr S));
        [|done|exact HS].
      rewrite <- (left_id_L ∅ (∪) (str_index_ptr S)).
      rewrite get_str_index_ptr_loop_union.
      by rewrite lookup_union_l.
  - assert (buffer S = []) as E.
    { unfold seg_len in H0. destruct (buffer S); [done|simpl in H0; lia]. }
    rewrite E in *. simpl in *. unfold _get_str_index_ptr.
    apply (get_str_index_ptr_loop_consistent l [] ∅); [done|].
    intros k'. by rewrite lookup_empty.
Qed.

(** X8. Whatever sequence of append and extend calls builds a
    segmentation, if in the end the segments of each str_index form a
    single run, then the pointer map is consistent: each str_index is
    mapped to the position of its first segment, and nothing else is in
    the map. *)
Theorem build_ptr_consistent (lbl : string) (ops : list build_op) :
  contiguous (buffer (build lbl ops)) → ptr_consistent (build lbl ops).
Proof.
  induction ops as [|o ops IH] using rev_ind; intros Hc.
  - intros k. reflexivity.
  - unfold build in *. rewrite foldl_app in *. cbn [foldl] in *.
    set (S := foldl apply_op (Segmentation_empty lbl) ops) in *.
    destruct o as [s|l]; cbn [apply_op] in *.
    + apply append_ptr_consistent; [|exact Hc].
      apply IH. apply (contiguous_app_l _ [s]). exact Hc.
    + apply extend_ptr_consistent; [|exact Hc].
      apply IH. apply (contiguous_app_l _ l). exact Hc.
Qed.

Lemma build_ptr_consistent_witness :
  ptr_consistent (build "s" [Append seg_a; Extend [seg_c; seg_b]; Append seg_b]).
Proof.
  apply build_ptr_consistent.
  intros [|[|[|[|i]]]] [|[|[|[|j]]]] [|[|[|[|m]]]] x y z Hijm Hx Hy Hz;
    simplify_eq/=; first [done | lia].
Defined.

(** ** More on Segmenter.sample *)

Lemma select_from_partition {A : Type} (P : nat → bool) (index : nat) (l : list A) :
  select_from P index l ++ select_from (λ i, negb (P i)) index l ≡ₚ l.
Proof.
  revert index. induction l as [|x l IH]; intros index; simpl; [done|].
  destruct (P index); simpl.
  - by rewrite IH.
  - rewrite <- Permutation_middle. by rewrite IH.
Qed.

Lemma select_from_sublist {A : Type} (P : nat → bool) (index : nat) (l : list A) :
  select_from P index l `sublist_of` l.
Proof.
  revert index. induction l as [|x l IH]; intros index; simpl; [done|].
  destruct (P index); [by apply sublist_skip|by apply sublist_cons].
Qed.

(** X10. In every mode, the two segmentations that sample returns split
    the copies of the input segments between them: each of the two lists
    the copies in the order of the input, and together they hold every
    copy exactly once. Their labels are the given label and the same
    prefixed by 'NEG_'. *)
Theorem sample_partition (v : python) (S : Segmentation) (sample_size : Z)
    (mode lbl : string) (copy : bool) (drawn : list nat) (pos neg : Segmentation) :
  sample v S sample_size mode lbl copy drawn = Returns (pos, neg) →
  let copies := (λ x, deepcopy x copy) <$> buffer S in
  buffer pos `sublist_of` copies
  ∧ buffer neg `sublist_of` copies
  ∧ buffer pos ++ buffer neg ≡ₚ copies
  ∧ label pos = lbl ∧ label neg = "NEG_" +:+ lbl.
Proof.
  unfold sample.
  match goal with |- result_bind ?r _ = _ → _ => destruct r as [sampled|e] end;
    [|discriminate].
  cbn [result_bind]. intros HR. injection HR as E.
  pose proof (sample_loop_spec (buffer S) 0 sampled copy (Segmentation_empty lbl)
                (Segmentation_empty ("NEG_" +:+ lbl))) as H.
  cbv zeta in H. rewrite E in H. simpl in H.
  destruct H as (Hl1 & Hl2 & -> & ->).
  repeat split; [| | |done|done].
  - apply fmap_sublist, select_from_sublist.
  - apply fmap_sublist, select_from_sublist.
  - rewrite <- fmap_app.
    apply fmap_Permutation, select_from_partition.
Qed.

Lemma sample_partition_witness :
  let S := three_segments in
  let r := sample_loop (buffer S) 0 [0; 2]%nat true (Segmentation_empty "s")
             (Segmentation_empty "NEG_s") in
  let copies := (λ x, deepcopy x true) <$> buffer S in
  buffer r.1 `sublist_of` copies
  ∧ buffer r.2 `sublist_of` copies
  ∧ buffer r.1 ++ buffer r.2 ≡ₚ copies
  ∧ label r.1 = "s" ∧ label r.2 = "NEG_" +:+ "s".
Proof.
  apply (sample_partition Python3 three_segments 2 "random" "s" true [2; 0]%nat).
  vm_compute. reflexivity.
Defined.

Lemma py_round_raises (v : python) (x : float64) (e : exn) :
  py_round v x = Raises e → e ≠ ZeroDivisionError.
Proof. destruct x, v; simpl; intros [= <-]; discriminate. Qed.

Lemma py_int_raises (x : float64) (e : exn) :
  py_int x = Raises e → e ≠ ZeroDivisionError.
Proof. destruct x; simpl; intros [= <-]; discriminate. Qed.

(** iround raises no ZeroDivisionError. *)
Lemma iround_raises (v : python) (x : float64) (e : exn) :
  iround v x = Raises e → e ≠ ZeroDivisionError.
Proof.
  unfold iround. destruct (py_round v x) as [r|e1] eqn:E1; cbn [result_bind].
  - destruct (py_int (f64_sub r f64_half)) as [i|e2] eqn:E2; cbn [result_bind].
    + discriminate.
    + intros [= <-]. by eapply py_int_raises.
  - intros [= <-]. by eapply py_round_raises.
Qed.

(** The ratio [sample_size / len(segmentation)] is 0.0 for the sample
    size 0 only, when the segmentation is not longer than a Python list
    can be. *)
Lemma py_truediv_ratio (k L : Z) :
  0 < L < 2 ^ 63 →
  match py_truediv k L with
  | Returns ratio => f64_is_zero ratio = bool_decide (k = 0)
  | Raises e => e = OverflowError ∧ k ≠ 0
  end.
Proof.
  intros HL. unfold py_truediv. rewrite decide_False by lia.
  destruct L as [|b|b]; try lia.
  destruct k as [|a|a]; [done| |]; cbn [exact_int].
  - destruct (f64_div_exact_int_nonzero false false a b) as (p & e & ->);
      [|by destruct (e <=? 971)].
    assert (2 ^ 63 ≤ 2 ^ 1074) by (apply Z.pow_le_mono_r; lia). lia.
  - destruct (f64_div_exact_int_nonzero true false a b) as (p & e & ->);
      [|by destruct (e <=? 971)].
    assert (2 ^ 63 ≤ 2 ^ 1074) by (apply Z.pow_le_mono_r; lia). lia.
Qed.

(** X11. In 'systematic' mode, for a segmentation of fewer than 2^63
    segments (the most that a Python list holds), sample raises
    ZeroDivisionError exactly when the sample size is 0 or the segmentation
    is empty. *)
Theorem sample_systematic_ZeroDivisionError (v : python) (S : Segmentation)
    (sample_size : Z) (lbl : string) (copy : bool) (drawn : list nat) :
  seg_len S < 2 ^ 63 →
  sample v S sample_size "systematic" lbl copy drawn = Raises ZeroDivisionError
  ↔ sample_size = 0 ∨ buffer S = [].
Proof.
  intros Hlen. unfold sample. rewrite decide_False by discriminate.
  rewrite decide_True by reflexivity. fold (seg_len S). unfold systematic_step.
  destruct (decide (buffer S = [])) as [E|Hne].
  - unfold seg_len. rewrite E. simpl. split; [by right|done].
  - assert (0 < seg_len S < 2 ^ 63) as HL.
    { split; [|done]. unfold seg_len. destruct (buffer S); [done|simpl; lia]. }
    pose proof (py_truediv_ratio sample_size (seg_len S) HL) as Hr.
    destruct (py_truediv sample_size (seg_len S)) as [ratio|e]; cbn [result_bind].
    + unfold py_float_div. rewrite Hr.
      destruct (decide (sample_size = 0)) as [->|Hk].
      * rewrite bool_decide_eq_true_2 by done. cbn [result_bind]. split; [by left|done].
      * rewrite bool_decide_eq_false_2 by done. cbn [result_bind].
        split; [|by intros [|]].
        destruct (iround v (f64_div (f64_of_int 1) ratio)) as [step|e] eqn:Ei;
          cbn [result_bind].
        -- unfold range_slice_step. by repeat destruct (decide _).
        -- intros [= ->]. by apply iround_raises in Ei.
    + destruct Hr as [-> Hk]. split; [discriminate|by intros [|]].
Qed.

Lemma sample_systematic_ZeroDivisionError_witness :
  sample Python3 three_segments 0 "systematic" "s" true [] = Raises ZeroDivisionError
  ↔ 0 = 0 ∨ buffer three_segments = [].
Proof.
  apply (sample_systematic_ZeroDivisionError Python3 three_segments 0 "s" true []).
  vm_compute. reflexivity.
Defined.

(** ** Tables built from a dictionary (Table.__init__, Table.get) *)

Lemma dict_fill_spec (items : list ((string * string) * Z))
    (rm cm : gmap string nat) (d : dok_matrix Z) :
  NoDup items.*1 →
  (∀ k v, (k, v) ∈ items →
     ∃ i j, rm !! k.1 = Some i ∧ cm !! k.2 = Some j
            ∧ (i < (dok_shape d).1)%nat ∧ (j < (dok_shape d).2)%nat) →
  (∀ r r' i, rm !! r = Some i → rm !! r' = Some i → r = r') →
  (∀ c c' j, cm !! c = Some j → cm !! c' = Some j → c = c') →
  ∃ d', dict_fill items rm cm d = Returns d'
    ∧ dok_shape d' = dok_shape d
    ∧ ∀ r c i j, rm !! r = Some i → cm !! c = Some j →
        dok_items d' !! (i, j)
        = match (list_to_map items : gmap (string * string) Z) !! (r, c) with
          | Some v => if decide (v = 0) then None else Some v
          | None => dok_items d !! (i, j)
          end.
Proof.
  intros Hnd Hin Hrm Hcm. revert d Hin.
  induction items as [|[[r0 c0] v0] items IH]; intros d Hin.
  - exists d. repeat split.
  - apply NoDup_cons in Hnd as [Hfresh Hnd].
    destruct (Hin (r0, c0) v0) as (i0 & j0 & Hi0 & Hj0 & Hlt1 & Hlt2);
      [apply list_elem_of_here|].
    simpl in Hi0, Hj0.
    cbn [dict_fill fst snd]. rewrite Hi0, Hj0. cbn [of_option result_bind].
    unfold dok_setitem, dok_in_shape.
    rewrite !bool_decide_eq_true_2 by done. cbn [andb result_bind].
    match goal with |- ∃ d', dict_fill _ _ _ ?d1 = _ ∧ _ =>
      destruct (IH Hnd d1) as (d' & Hd' & Hshape & Hcells) end.
    { intros k v Hkv. apply (Hin k v). by apply list_elem_of_further. }
    exists d'. split; [done|]. split; [done|].
    intros r c i j Hi Hj. rewrite (Hcells r c i j Hi Hj).
    cbn [list_to_map foldr]. cbn [dok_items].
    destruct (decide ((r0, c0) = (r, c))) as [E|Hne].
    + injection E as <- <-. rewrite lookup_insert_eq.
      assert (i = i0) as -> by congruence. assert (j = j0) as -> by congruence.
      rewrite (not_elem_of_list_to_map_1 _ (r0, c0)) by done.
      change (num_is_zero v0) with (0 =? v0).
      destruct (Z.eqb_spec 0 v0) as [E0|Hv].
      * subst v0. rewrite (decide_True (P := 0 = 0)) by done. by rewrite lookup_delete_eq.
      * rewrite (decide_False (P := v0 = 0)) by lia. by rewrite lookup_insert_eq.
    + rewrite lookup_insert_ne by done.
      destruct (list_to_map items !! (r, c)); [done|].
      assert ((i0, j0) ≠ (i, j)) as Hij.
      { intros [= -> ->]. apply Hne. f_equal; [by eapply Hrm|by eapply Hcm]. }
      destruct (num_is_zero v0);
        [by rewrite lookup_delete_ne|by rewrite lookup_insert_ne].
Qed.

Lemma Table_of_dict_Returns (cls : table_class) (rows cols : list string)
    (vals : gmap (string * string) Z) (h1 h2 h3 h4 : string)
    (ct : gmap string string) (cc : option string) (miss : option Z)
    (cached : option string) :
  NoDup rows → NoDup cols → vals ≠ ∅ →
  (∀ r c v, vals !! (r, c) = Some v → r ∈ rows ∧ c ∈ cols) →
  ∃ d, Table_of_dict cls rows cols vals h1 h2 h3 h4 ct cc miss cached
       = Returns (mkTable cls rows cols d h1 h2 h3 h4 ct cc miss cached
                    (mapping_of rows) (mapping_of cols))
     ∧ dok_shape d = (length rows, length cols)
     ∧ ∀ r c i j, mapping_of rows !! r = Some i → mapping_of cols !! c = Some j →
         dok_items d !! (i, j)
         = match vals !! (r, c) with
           | Some v => if decide (v = 0) then None else Some v
           | None => None
           end.
Proof.
  intros Hr Hc Hne Hkeys. unfold Table_of_dict.
  destruct (map_to_list vals) as [|x items] eqn:Hitems.
  { by apply map_to_list_empty_iff in Hitems. }
  rewrite <- Hitems. clear x items Hitems.
  destruct (dict_fill_spec (map_to_list vals) (mapping_of rows) (mapping_of cols)
              (mkDok (length rows, length cols) ∅)) as (d & Hd & Hshape & Hcells).
  - apply NoDup_fst_map_to_list.
  - intros [r c] v Hkv. apply elem_of_map_to_list in Hkv.
    destruct (Hkeys r c v Hkv) as [Hr' Hc'].
    destruct (mapping_of_elem rows r Hr Hr') as (i & Hi & Hlt).
    destruct (mapping_of_elem cols c Hc Hc') as (j & Hj & Hlt').
    exists i, j. done.
  - intros r r' i. by apply mapping_of_inj.
  - intros c c' j. by apply mapping_of_inj.
  - exists d. rewrite Hd. cbn [result_bind]. split; [done|]. split; [done|].
    intros r c i j Hi Hj. rewrite (Hcells r c i j Hi Hj).
    rewrite list_to_map_to_list. cbn [dok_items]. rewrite lookup_empty. done.
Qed.

(** What get returns on a table built from a dictionary. *)
Lemma Table_of_dict_cells (cls : table_class) (rows cols : list string)
    (vals : gmap (string * string) Z) (h1 h2 h3 h4 : string)
    (ct : gmap string string) (cc : option string) (miss : option Z)
    (cached : option string) :
  NoDup rows → NoDup cols → vals ≠ ∅ →
  (∀ r c v, vals !! (r, c) = Some v → r ∈ rows ∧ c ∈ cols) →
  ∃ T, Table_of_dict cls rows cols vals h1 h2 h3 h4 ct cc miss cached = Returns T
     ∧ ∀ r c m,
         Table_get T r c m
         = match vals !! (r, c) with
           | Some v => if decide (v = 0)
                       then match m with None => miss | Some _ => m end
                       else Some v
           | None => match m with None => miss | Some _ => m end
           end.
Proof.
  intros Hr Hc Hne Hkeys.
  destruct (Table_of_dict_Returns cls rows cols vals h1 h2 h3 h4 ct cc miss cached
              Hr Hc Hne Hkeys) as (d & HT & Hshape & Hcells).
  eexists. split; [exact HT|]. intros r c m.
  unfold Table_get. cbn [row_mapping col_mapping values missing].
  destruct (mapping_of rows !! r) as [i|] eqn:Hi.
  2:{ destruct (vals !! (r, c)) as [v|] eqn:Hv; [|done].
      destruct (Hkeys r c v Hv) as [Hr' _].
      destruct (mapping_of_elem rows r Hr Hr') as (i & Hi' & _). congruence. }
  destruct (mapping_of cols !! c) as [j|] eqn:Hj.
  2:{ destruct (vals !! (r, c)) as [v|] eqn:Hv; [|done].
      destruct (Hkeys r c v Hv) as [_ Hc'].
      destruct (mapping_of_elem cols c Hc Hc') as (j & Hj' & _). congruence. }
  unfold dok_get, dok_in_shape. rewrite Hshape. cbn [fst snd].
  apply mapping_of_lookup in Hi as Hi'; [|done].
  apply mapping_of_lookup in Hj as Hj'; [|done].
  apply lookup_lt_Some in Hi', Hj'.
  rewrite !bool_decide_eq_true_2 by done. cbn [andb].
  rewrite (Hcells r c i j Hi Hj).
  destruct (vals !! (r, c)) as [v|]; [|done]. by destruct (decide (v = 0)).
Qed.

(** X12. A table built from a non-empty dictionary whose keys are pairs of
    listed row and column ids (each id being listed once) and whose values
    are integers that an int64 matrix can hold (from -2^63 to 2^63 - 1)
    gives back, through get, every non-zero value of the dictionary. For a
    key that is absent from the dictionary, and for a key whose value is 0
    (which the sparse matrix does not store), get returns the missing
    value: the one passed to get if there is one, the one of the table
    otherwise. *)
Theorem Table_of_dict_get (cls : table_class) (rows cols : list string)
    (vals : gmap (string * string) Z) (h1 h2 h3 h4 : string)
    (ct : gmap string string) (cc : option string) (miss : option Z)
    (cached : option string) :
  NoDup rows → NoDup cols → vals ≠ ∅ →
  (∀ r c v, vals !! (r, c) = Some v → r ∈ rows ∧ c ∈ cols) →
  (∀ r c v, vals !! (r, c) = Some v → - 2 ^ 63 ≤ v < 2 ^ 63) →
  ∃ T, Table_of_dict cls rows cols vals h1 h2 h3 h4 ct cc miss cached = Returns T
     ∧ row_ids T = rows ∧ col_ids T = cols
     ∧ (∀ r c v m, vals !! (r, c) = Some v → v ≠ 0 → Table_get T r c m = Some v)
     ∧ (∀ r c m, vals !! (r, c) = None ∨ vals !! (r, c) = Some 0 →
          Table_get T r c m = match m with None => miss | Some _ => m end).
Proof.
  intros Hr Hc Hne Hkeys _.
  destruct (Table_of_dict_cells cls rows cols vals h1 h2 h3 h4 ct cc miss cached
              Hr Hc Hne Hkeys) as (T & HT & Hget).
  destruct (Table_of_dict_Returns cls rows cols vals h1 h2 h3 h4 ct cc miss cached
              Hr Hc Hne Hkeys) as (d & HT' & _).
  exists T. split; [exact HT|].
  assert (row_ids T = rows ∧ col_ids T = cols) as [-> ->].
  { rewrite HT in HT'. injection HT' as ->. done. }
  repeat split.
  - intros r c v m Hv Hv0. rewrite Hget, Hv. by rewrite decide_False.
  - intros r c m [Hv|Hv]; rewrite Hget, Hv; [done|]. by rewrite decide_True.
Qed.

Lemma Table_of_dict_get_witness :
  let vals : gmap (string * string) Z :=
    <[("1", "a") := 2]> (<[("2", "b") := 0]> ∅) in
  ∃ T, Table_of_dict IntPivotCrosstab ["1"; "2"] ["a"; "b"] vals
         "__unit__" "string" "__context__" "continuous" ∅ None (Some 0) None
       = Returns T
     ∧ row_ids T = ["1"; "2"] ∧ col_ids T = ["a"; "b"]
     ∧ (∀ r c v m, vals !! (r, c) = Some v → v ≠ 0 → Table_get T r c m = Some v)
     ∧ (∀ r c m, vals !! (r, c) = None ∨ vals !! (r, c) = Some 0 →
          Table_get T r c m = match m with None => Some 0 | Some _ => m end).
Proof.
  intros vals. apply Table_of_dict_get.
  - compute_done.
  - compute_done.
  - intros E. apply (f_equal (λ m, m !! ("1", "a"))) in E.
    unfold vals in E. by rewrite lookup_insert_eq, lookup_empty in E.
  - intros r c v Hv. unfold vals in Hv.
    apply lookup_insert_Some in Hv as [[[= <- <-] _]|[_ Hv]]; [split; compute_done|].
    apply lookup_insert_Some in Hv as [[[= <- <-] _]|[_ Hv]]; [split; compute_done|].
    by rewrite lookup_empty in Hv.
  - intros r c v Hv. unfold vals in Hv.
    apply lookup_insert_Some in Hv as [[_ <-]|[_ Hv]]; [lia|].
    apply lookup_insert_Some in Hv as [[_ <-]|[_ Hv]]; [lia|].
    by rewrite lookup_empty in Hv.
Defined.
(** ** Processor.count_in_window *)

Lemma occurrences_cons (u x : string) (l : list string) :
  occurrences u (x :: l) = (if decide (u = x) then 1 else 0) + occurrences u l.
Proof.
  unfold occurrences. rewrite filter_cons.
  destruct (decide (u = x)); simpl; lia.
Qed.

Lemma occurrences_app (u : string) (l1 l2 : list string) :
  occurrences u (l1 ++ l2) = occurrences u l1 + occurrences u l2.
Proof. unfold occurrences. rewrite filter_app, length_app. lia. Qed.

Lemma occurrences_nonneg (u : string) (l : list string) : 0 ≤ occurrences u l.
Proof. unfold occurrences. lia. Qed.

Lemma occurrences_pos (u : string) (l : list string) :
  u ∈ l → 1 ≤ occurrences u l.
Proof.
  induction 1 as [x l|x y l _ IH].
  - rewrite occurrences_cons, decide_True by done.
    pose proof (occurrences_nonneg x l). lia.
  - rewrite occurrences_cons. destruct (decide _); lia.
Qed.

Lemma window_incr_lookup (m : gmap string Z) (x u : string) :
  default 0 (window_incr m x !! u)
  = default 0 (m !! u) + (if decide (u = x) then 1 else 0).
Proof.
  unfold window_incr. destruct (decide (u = x)) as [->|Hne].
  - by rewrite lookup_insert_eq.
  - rewrite lookup_insert_ne by done. lia.
Qed.

Lemma window_incr_is_Some (m : gmap string Z) (x u : string) :
  is_Some (window_incr m x !! u) → u = x ∨ is_Some (m !! u).
Proof.
  unfold window_incr. destruct (decide (u = x)) as [->|Hne]; [by left|].
  rewrite lookup_insert_ne by done. by right.
Qed.

Lemma foldl_window_incr (l : list string) (m : gmap string Z) (u : string) :
  default 0 (foldl window_incr m l !! u) = default 0 (m !! u) + occurrences u l
  ∧ (is_Some (foldl window_incr m l !! u) → is_Some (m !! u) ∨ u ∈ l).
Proof.
  revert m. induction l as [|x l IH]; intros m; simpl.
  - split; [unfold occurrences; simpl; lia|by left].
  - destruct (IH (window_incr m x)) as [E K]. split.
    + rewrite E, window_incr_lookup, occurrences_cons. lia.
    + intros Hs. destruct (K Hs) as [Hs'|Hin].
      * destruct (window_incr_is_Some _ _ _ Hs') as [->|?];
          [right; apply list_elem_of_here|by left].
      * right. by apply list_elem_of_further.
Qed.

Lemma window_decr_spec (m : gmap string Z) (x : string) (c : Z) :
  m !! x = Some c →
  ∃ m', window_decr m x = Returns m'
    ∧ (∀ u, default 0 (m' !! u)
            = default 0 (m !! u) - (if decide (u = x) then 1 else 0))
    ∧ (∀ u, is_Some (m' !! u) → is_Some (m !! u)).
Proof.
  intros Hx. unfold window_decr. rewrite Hx. eexists. split; [reflexivity|].
  split; intros u; destruct (decide (u = x)) as [->|Hne].
  - rewrite lookup_insert_eq, Hx. simpl. lia.
  - rewrite lookup_insert_ne by done. lia.
  - intros _. by rewrite Hx.
  - by rewrite lookup_insert_ne.
Qed.

(** Sliding the window by one position drops its first unit and takes in
    the unit that follows its last one. *)
Lemma window_succ (l : list string) (W i : nat) :
  (1 ≤ W)%nat → (i + W < length l)%nat →
  ∃ old new, l !! i = Some old ∧ l !! (i + W)%nat = Some new
    ∧ old ∈ window W i l
    ∧ ∀ u, occurrences u (window W (S i) l)
           = occurrences u (window W i l)
             - (if decide (u = old) then 1 else 0)
             + (if decide (u = new) then 1 else 0).
Proof.
  intros HW Hlt.
  destruct (lookup_lt_is_Some_2 l i) as [old Hold]; [lia|].
  destruct (lookup_lt_is_Some_2 l (i + W)) as [new Hnew]; [lia|].
  exists old, new. split; [done|]. split; [done|].
  destruct W as [|W']; [lia|].
  unfold window. rewrite (drop_S l old i Hold). cbn [take].
  split; [apply list_elem_of_here|].
  intros u.
  rewrite (take_S_r (drop (S i) l) W' new).
  2:{ rewrite lookup_drop. rewrite <- Hnew. f_equal. lia. }
  rewrite occurrences_app, !occurrences_cons.
  unfold occurrences at 2. simpl. lia.
Qed.

Lemma lookup_freq_update (freq : gmap (string * string) Z) (s : string)
    (wf : gmap string Z) (r u : string) :
  freq_update freq s wf !! (r, u)
  = if decide (r = s)
    then match wf !! u with Some v => Some v | None => freq !! (r, u) end
    else freq !! (r, u).
Proof.
  unfold freq_update. rewrite lookup_union.
  destruct (decide (r = s)) as [->|Hne].
  - rewrite (lookup_kmap (pair s)).
    destruct (wf !! u), (freq !! (s, u)); done.
  - assert (kmap (M2 := gmap (string * string)) (pair s) wf !! (r, u) = None) as ->.
    { apply (lookup_kmap_None (pair s)). intros u' [= -> _]. done. }
    by destruct (freq !! (r, u)).
Qed.

Lemma window_loop_spec (ul : list string) (W n b : nat) (wf : gmap string Z)
    (freq : gmap (string * string) Z) :
  (1 ≤ W)%nat → (b + n + W = length ul)%nat →
  (∀ u, default 0 (wf !! u) = occurrences u (window W b ul)) →
  (∀ u, is_Some (wf !! u) → u ∈ ul) →
  (∀ i u, (i ≤ b)%nat →
     default 0 (freq !! (pretty (S i), u)) = occurrences u (window W i ul)) →
  (∀ r u, is_Some (freq !! (r, u)) →
     (∃ i, (i ≤ b)%nat ∧ r = pretty (S i)) ∧ u ∈ ul) →
  ∃ freq', window_loop ul W (seq (S b) n) wf freq (S b)
           = Returns (freq', (S b + n)%nat)
    ∧ (∀ i u, (i ≤ b + n)%nat →
         default 0 (freq' !! (pretty (S i), u)) = occurrences u (window W i ul))
    ∧ (∀ r u, is_Some (freq' !! (r, u)) →
         (∃ i, (i ≤ b + n)%nat ∧ r = pretty (S i)) ∧ u ∈ ul).
Proof.
  intros HW. revert b wf freq.
  induction n as [|n IH]; intros b wf freq Hlen Hwf Hkeys Hfreq Hfkeys.
  - exists freq. rewrite !Nat.add_0_r. done.
  - destruct (window_succ ul W b HW) as (old & new & Hold & Hnew & Hin & Hocc);
      [lia|].
    cbn [seq window_loop].
    replace (S b - 1)%nat with b by lia.
    replace (S b + W - 1)%nat with (b + W)%nat by lia.
    replace (S b + 1)%nat with (S (S b)) by lia.
    rewrite Hold, Hnew. cbn [of_option result_bind].
    assert (∃ c, wf !! old = Some c) as [c Hc].
    { destruct (wf !! old) as [c|] eqn:E; [eauto|].
      pose proof (Hwf old) as H. rewrite E in H. simpl in H.
      pose proof (occurrences_pos old _ Hin). lia. }
    destruct (window_decr_spec wf old c Hc) as (wf1 & -> & Hwf1 & Hkeys1).
    cbn [result_bind].
    set (wf2 := window_incr wf1 new).
    destruct (IH (S b) wf2 (freq_update freq (pretty (S (S b))) wf2))
      as (freq' & Hloop & Hfreq' & Hfkeys').
    + lia.
    + intros u. unfold wf2. rewrite window_incr_lookup, Hwf1, Hwf, Hocc. done.
    + intros u Hu. apply window_incr_is_Some in Hu as [->|Hu].
      * by eapply list_elem_of_lookup_2.
      * by apply Hkeys, Hkeys1.
    + intros i u Hi. rewrite lookup_freq_update.
      destruct (decide (pretty (S i) = pretty (S (S b)))) as [E|Hne].
      * apply (inj pretty) in E. injection E as ->.
        destruct (wf2 !! u) as [v|] eqn:Ev.
        -- pose proof (window_incr_lookup wf1 new u) as H.
           fold wf2 in H. rewrite Ev in H. simpl in H.
           simpl. rewrite H, Hwf1, Hwf, Hocc. done.
        -- destruct (freq !! (pretty (S (S b)), u)) as [v|] eqn:Ef.
           ++ destruct (Hfkeys (pretty (S (S b))) u) as [(i & Hi' & E) _]; [eauto|].
              apply (inj pretty) in E. lia.
           ++ pose proof (window_incr_lookup wf1 new u) as H.
              fold wf2 in H. rewrite Ev in H. simpl in H.
              simpl. rewrite H, Hwf1, Hwf, Hocc. done.
      * apply Hfreq. destruct (decide (i = S b)) as [->|]; [done|lia].
    + intros r u. rewrite lookup_freq_update.
      destruct (decide (r = pretty (S (S b)))) as [->|Hne].
      * destruct (wf2 !! u) as [v|] eqn:Ev.
        -- intros _. split; [exists (S b); split; [lia|done]|].
           assert (is_Some (wf2 !! u)) as Hu by eauto.
           apply window_incr_is_Some in Hu as [->|Hu].
           ++ by eapply list_elem_of_lookup_2.
           ++ by apply Hkeys, Hkeys1.
        -- intros Hs. destruct (Hfkeys _ _ Hs) as [(i & Hi & E) Hu].
           split; [exists i; split; [lia|done]|done].
      * intros Hs. destruct (Hfkeys _ _ Hs) as [(i & Hi & E) Hu].
        split; [exists i; split; [lia|done]|done].
    + exists freq'. replace (S b + S n)%nat with (S (S b) + n)%nat by lia.
      split; [exact Hloop|]. split.
      * intros i u Hi. apply Hfreq'. lia.
      * intros r u Hs. destruct (Hfkeys' r u Hs) as [(i & Hi & E) Hu].
        split; [exists i; split; [lia|done]|done].
Qed.

Lemma result_mapM_length {A B : Type} (f : A → result B) (l : list A) (ys : list B) :
  result_mapM f l = Returns ys → length ys = length l.
Proof.
  revert ys. induction l as [|x l IH]; intros ys; simpl.
  - by intros [= <-].
  - destruct (f x) as [y|]; [|discriminate]. cbn [result_bind].
    destruct (result_mapM f l) as [ys'|]; [|discriminate]. cbn [result_bind].
    intros [= <-]. simpl. f_equal. by apply IH.
Qed.

Lemma get_unit_list_length (data : list datum) (seg : Segmentation)
    (key : option string) (ul : list string) :
  get_unit_list data seg key = Returns ul → length ul = length (buffer seg).
Proof.
  unfold get_unit_list. destruct key.
  - intros [= <-]. by rewrite length_fmap.
  - apply result_mapM_length.
Qed.

Lemma occurrences_absent (u : string) (l : list string) :
  u ∉ l → occurrences u l = 0.
Proof.
  induction l as [|x l IH]; intros Hn; [done|].
  rewrite occurrences_cons. apply not_elem_of_cons in Hn as [Hx Hl].
  rewrite decide_False by done. rewrite IH by done. done.
Qed.

Lemma elem_of_window (u : string) (W i : nat) (l : list string) :
  u ∈ window W i l → u ∈ l.
Proof.
  unfold window. intros Hu.
  apply (sublist_subseteq _ _ (sublist_take _ _)) in Hu.
  by apply (sublist_subseteq _ _ (sublist_drop _ _)) in Hu.
Qed.

(** X13. For a window size between 1 and the number of units,
    count_in_window returns a table with one row per window position
    ('1', '2', ...) and one column per unit type, and the cell of row i + 1
    and unit u holds the number of occurrences of u among the
    window_size units that start at position i (0 for a unit that does not
    occur there). *)
Theorem count_in_window_cells (list_set : list string → list string)
    (data : list datum) (seg : Segmentation) (key : option string) (W : Z)
    (ul : list string) :
  get_unit_list data seg key = Returns ul →
  1 ≤ W ≤ Z.of_nat (length ul) →
  list_set ul ≡ₚ remove_dups ul →
  ∃ T, count_in_window list_set data (Some seg) key W = Returns T
    ∧ row_ids T = pretty <$> seq 1 (length ul - Z.to_nat W + 1)
    ∧ col_ids T = list_set ul
    ∧ ∀ (i : nat) (u : string), (i + Z.to_nat W ≤ length ul)%nat →
        Table_get T (pretty (S i)) u None
        = Some (occurrences u (window (Z.to_nat W) i ul)).
Proof.
  intros Hul HW Hset.
  pose proof (get_unit_list_length _ _ _ _ Hul) as Hlen.
  unfold count_in_window.
  rewrite decide_True by (unfold seg_len; lia).
  rewrite Hul. cbn [result_bind].
  set (w := Z.to_nat W).
  assert (1 ≤ w ≤ length ul)%nat as Hw by lia.
  set (wf0 := foldl window_incr ∅ (take w ul)).
  replace (length (buffer seg) - (w - 1) - 1)%nat with (length ul - w)%nat by lia.
  assert (Hwf0 : ∀ u, default 0 (wf0 !! u) = occurrences u (window w 0 ul)).
  { intros u. destruct (foldl_window_incr (take w ul) ∅ u) as [E _].
    unfold wf0. rewrite E, lookup_empty. unfold window. rewrite drop_0.
    simpl. lia. }
  assert (Hk0 : ∀ u, is_Some (wf0 !! u) → u ∈ ul).
  { intros u Hu. destruct (foldl_window_incr (take w ul) ∅ u) as [_ K].
    destruct (K Hu) as [Hs|Hin].
    - rewrite lookup_empty in Hs. by destruct Hs.
    - by apply (sublist_subseteq _ _ (sublist_take _ _)) in Hin. }
  destruct (window_loop_spec ul w (length ul - w) 0 wf0 (kmap (pair "1") wf0))
    as (freq & Hloop & Hfreq & Hkeys); [lia|lia|exact Hwf0|exact Hk0| | |].
  { intros i u Hi. assert (i = 0%nat) as -> by lia.
    change (pretty 1%nat) with "1". rewrite (lookup_kmap (pair "1")). apply Hwf0. }
  { intros r u Hs. apply (lookup_kmap_is_Some (pair "1")) in Hs as (u' & E & Hs).
    injection E as -> ->. split; [by exists 0%nat|by apply Hk0]. }
  rewrite Hloop. cbn [result_bind fst snd].
  set (rows := pretty <$> seq 1 (1 + (length ul - w))).
  assert (NoDup rows) as Hrows by (apply NoDup_fmap_2; [apply _|apply NoDup_seq]).
  assert (NoDup (list_set ul)) as Hcols.
  { rewrite Hset. apply NoDup_remove_dups. }
  assert (Hrow : ∀ i, (i ≤ length ul - w)%nat → rows !! i = Some (pretty (S i))).
  { intros i Hi. unfold rows. rewrite list_lookup_fmap, lookup_seq_lt by lia. done. }
  destruct (Table_of_dict_Returns IntPivotCrosstab rows (list_set ul) freq
              "__unit__" "string" "__context__" "continuous"
              (list_to_map ((λ u, (u, "continuous")) <$> list_set ul))
              None (Some 0) None Hrows Hcols) as (d & HT & Hshape & Hcells).
  { destruct (lookup_lt_is_Some_2 ul 0) as [u0 Hu0]; [lia|].
    intros E. pose proof (Hfreq 0%nat u0 ltac:(lia)) as H.
    rewrite E, lookup_empty in H. simpl in H.
    assert (u0 ∈ window w 0 ul) as Hin.
    { unfold window. rewrite drop_0. apply elem_of_take. exists 0%nat. split; [done|lia]. }
    pose proof (occurrences_pos _ _ Hin). lia. }
  { intros r c v Hv. destruct (Hkeys r c) as [(i & Hi & ->) Hc]; [eauto|]. split.
    - eapply list_elem_of_lookup_2. apply Hrow. lia.
    - rewrite Hset. by apply elem_of_remove_dups. }
  eexists. split; [exact HT|]. cbn [row_ids col_ids].
  split; [unfold rows; f_equal; f_equal; lia|]. split; [done|].
  intros i u Hi.
  assert (mapping_of rows !! pretty (S i) = Some i) as Hmi.
  { apply mapping_of_lookup; [done|]. apply Hrow. lia. }
  unfold Table_get. cbn [row_mapping col_mapping values missing]. rewrite Hmi.
  pose proof (Hfreq i u ltac:(lia)) as Hfi.
  destruct (mapping_of (list_set ul) !! u) as [j|] eqn:Hmj.
  - apply mapping_of_lookup in Hmj as Hj; [|done].
    unfold dok_get, dok_in_shape. rewrite Hshape. cbn [fst snd].
    pose proof (lookup_lt_Some _ _ _ (Hrow i ltac:(lia))) as Hlt1.
    pose proof (lookup_lt_Some _ _ _ Hj) as Hlt2.
    rewrite !bool_decide_eq_true_2 by done. cbn [andb].
    rewrite (Hcells _ _ _ _ Hmi Hmj).
    destruct (freq !! (pretty (S i), u)) as [v|]; simpl in Hfi.
    + destruct (decide (v = 0)); f_equal; lia.
    + f_equal. lia.
  - f_equal. rewrite occurrences_absent; [done|].
    intros Hin. apply elem_of_window in Hin.
    apply elem_of_remove_dups in Hin. rewrite <- Hset in Hin.
    destruct (mapping_of_elem _ _ Hcols Hin) as (j & Hj & _). congruence.
Qed.

Lemma count_in_window_cells_witness :
  ∃ T, count_in_window remove_dups un_texte_data (Some letter_seg) None 3 = Returns T
    ∧ row_ids T = pretty <$> seq 1 (7 - Z.to_nat 3 + 1)
    ∧ col_ids T = remove_dups ["u"; "n"; "t"; "e"; "x"; "t"; "e"]
    ∧ ∀ (i : nat) (u : string), (i + Z.to_nat 3 ≤ 7)%nat →
        Table_get T (pretty (S i)) u None
        = Some (occurrences u
                  (window (Z.to_nat 3) i ["u"; "n"; "t"; "e"; "x"; "t"; "e"])).
Proof.
  apply (count_in_window_cells remove_dups un_texte_data letter_seg None 3
           ["u"; "n"; "t"; "e"; "x"; "t"; "e"]).
  - reflexivity.
  - simpl. lia.
  - reflexivity.
Defined.

(** X14. Without a segmentation, or with a window size that is smaller than
    1 or larger than the number of units, count_in_window returns no table:
    building the table from an empty dictionary of counts raises
    StopIteration. *)
Theorem count_in_window_StopIteration (list_set : list string → list string)
    (data : list datum) (segmentation : option Segmentation)
    (key : option string) (W : Z) :
  match segmentation with
  | None => True
  | Some seg => W < 1 ∨ seg_len seg < W
  end →
  count_in_window list_set data segmentation key W = Raises StopIteration.
Proof.
  intros H. unfold count_in_window.
  assert (Table_of_dict IntPivotCrosstab (pretty <$> seq 1 1) []
            (∅ : gmap (string * string) Z)
            "__unit__" "string" "__context__" "continuous"
            (list_to_map ((λ u : string, (u, "continuous")) <$> [])) None (Some 0) None
          = Raises StopIteration) as E.
  { unfold Table_of_dict. by rewrite map_to_list_empty. }
  destruct segmentation as [seg|]; [|exact E].
  rewrite decide_False by lia. exact E.
Qed.

Lemma count_in_window_StopIteration_witness :
  count_in_window remove_dups un_texte_data (Some letter_seg) None 8
  = Raises StopIteration.
Proof.
  apply count_in_window_StopIteration. right. vm_compute. reflexivity.
Defined.

(** ** Unique items and transposition (Table.py) *)

Lemma get_unique_items_loop_spec (seq : list string) (seen : gmap string Z)
    (result : list string) :
  (∀ x, is_Some (seen !! x) ↔ x ∈ result) → NoDup result →
  NoDup (get_unique_items_loop seq seen result)
  ∧ (∀ x, x ∈ get_unique_items_loop seq seen result ↔ x ∈ result ∨ x ∈ seq)
  ∧ ∃ new, get_unique_items_loop seq seen result = result ++ new
           ∧ new `sublist_of` seq.
Proof.
  revert seen result. induction seq as [|item rest IH]; intros seen result Hseen Hnd.
  - simpl. split; [done|]. split; [set_solver|].
    exists []. by rewrite app_nil_r.
  - simpl. destruct (seen !! item) as [v|] eqn:Hitem.
    + destruct (IH seen result Hseen Hnd) as (H1 & H2 & new & H3 & H4).
      split; [done|]. split.
      * intros x. rewrite H2. assert (item ∈ result) by (apply Hseen; eauto).
        set_solver.
      * exists new. split; [done|]. by apply sublist_cons.
    + assert (item ∉ result) as Hfresh.
      { intros Hin. apply Hseen in Hin as [? ?]. congruence. }
      destruct (IH (<[item := 1]> seen) (result ++ [item])) as (H1 & H2 & new & H3 & H4).
      * intros x. rewrite elem_of_app, list_elem_of_singleton, <- Hseen.
        rewrite lookup_insert_is_Some. destruct (decide (item = x)); naive_solver.
      * apply NoDup_app. split; [done|]. split; [|apply NoDup_singleton].
        intros x Hx ->%list_elem_of_singleton. done.
      * split; [done|]. split.
        -- intros x. rewrite H2. set_solver.
        -- exists (item :: new). rewrite H3, <- app_assoc. split; [done|].
           by apply sublist_skip.
Qed.

Lemma filter_filter_impl {A : Type} (P Q : A → Prop) `{∀ x, Decision (P x)}
    `{∀ x, Decision (Q x)} (l : list A) :
  (∀ x, P x → Q x) → filter P (filter Q l) = filter P l.
Proof.
  intros HPQ. induction l as [|x l IH]; [done|].
  rewrite !filter_cons. destruct (decide (Q x)) as [HQ|HQ].
  - rewrite filter_cons. destruct (decide (P x)); by rewrite IH.
  - rewrite decide_False by (intros HP; by apply HQ, HPQ). done.
Qed.

Lemma filter_not_elem_of_snoc (result : list string) (item : string) (l : list string) :
  filter (λ y, y ∉ result ++ [item]) l
  = filter (λ y, y ∉ result) (filter (λ y, y ≠ item) l).
Proof.
  induction l as [|x l IH]; [done|].
  rewrite !filter_cons. destruct (decide (x ≠ item)) as [Hne|Heq].
  - rewrite filter_cons. destruct (decide (x ∉ result)) as [Hx|Hx].
    + rewrite decide_True by set_solver. by rewrite IH.
    + rewrite decide_False by set_solver. done.
  - rewrite decide_False by set_solver. done.
Qed.

(** The loop started with some items already seen yields them, followed by
    what the loop started afresh yields, without the items already seen. *)
Lemma get_unique_items_loop_filter (seq : list string) (seen : gmap string Z)
    (result : list string) :
  (∀ x, is_Some (seen !! x) ↔ x ∈ result) →
  get_unique_items_loop seq seen result
  = result ++ filter (λ y, y ∉ result) (get_unique_items seq).
Proof.
  unfold get_unique_items. revert seen result.
  induction seq as [|item rest IH]; intros seen result Hseen.
  - simpl. by rewrite app_nil_r.
  - cbn [get_unique_items_loop]. rewrite lookup_empty.
    rewrite (IH (<[item := 1]> ∅) ([] ++ [item])).
    2:{ intros x. rewrite lookup_insert_is_Some, lookup_empty.
        rewrite app_nil_l, list_elem_of_singleton.
        split; [intros [->|[_ [? ?]]]; done|intros ->; by left]. }
    rewrite app_nil_l. cbn [app]. rewrite filter_cons.
    destruct (seen !! item) as [v|] eqn:Hitem.
    + assert (item ∈ result) as Hin by (apply Hseen; eauto).
      rewrite decide_False by (intros Hn; by apply Hn).
      rewrite (IH seen result Hseen). f_equal.
      symmetry. apply filter_filter_impl.
      intros x Hx ->%list_elem_of_singleton. done.
    + assert (item ∉ result) as Hfresh.
      { intros Hin. apply Hseen in Hin as [? ?]. congruence. }
      rewrite decide_True by done.
      rewrite (IH (<[item := 1]> seen) (result ++ [item])).
      2:{ intros x. rewrite elem_of_app, list_elem_of_singleton, <- Hseen.
          rewrite lookup_insert_is_Some. destruct (decide (item = x)); naive_solver. }
      rewrite <- app_assoc. cbn [app]. f_equal. f_equal.
      rewrite filter_not_elem_of_snoc. f_equal.
      apply list_filter_iff. intros x. rewrite list_elem_of_singleton. done.
Qed.

(** X15. get_unique_items returns the distinct items of a sequence, each
    once, in the order of their first occurrence: the result has no
    duplicates, has the same elements as the input, and is a sub-sequence of
    it; an item put in front of the sequence comes first in the result,
    followed by the unique items of the sequence without that item; and
    the item that occurs for the first time at position i of the sequence
    stands in the result right after the unique items of the i items
    before it. *)
Theorem get_unique_items_spec (seq : list string) :
  NoDup (get_unique_items seq)
  ∧ (∀ x, x ∈ get_unique_items seq ↔ x ∈ seq)
  ∧ get_unique_items seq `sublist_of` seq
  ∧ (∀ x, get_unique_items (x :: seq)
          = x :: filter (λ y, y ≠ x) (get_unique_items seq))
  ∧ (∀ (i : nat) x, seq !! i = Some x → x ∉ take i seq →
       get_unique_items (take i seq) ++ [x]
       `prefix_of` get_unique_items seq).
Proof.
  assert (Hcons : ∀ x l, get_unique_items (x :: l)
                         = x :: filter (λ y, y ≠ x) (get_unique_items l)).
  { intros x l. unfold get_unique_items at 1. cbn [get_unique_items_loop].
    rewrite lookup_empty.
    rewrite (get_unique_items_loop_filter l (<[x := 1]> ∅) ([] ++ [x])).
    - rewrite app_nil_l. cbn [app]. f_equal.
      apply list_filter_iff. intros y. rewrite list_elem_of_singleton. done.
    - intros y. rewrite lookup_insert_is_Some, lookup_empty.
      rewrite app_nil_l, list_elem_of_singleton.
      split; [intros [->|[_ [? ?]]]; done|intros ->; by left]. }
  destruct (get_unique_items_loop_spec seq ∅ []) as (H1 & H2 & new & H3 & H4).
  { intros x. rewrite lookup_empty. split; [by intros [? ?]|by intros ?%elem_of_nil]. }
  { constructor. }
  unfold get_unique_items at 1 2 3. split; [done|]. split; [|split; [|split]].
  - intros x. rewrite H2. set_solver.
  - by rewrite H3.
  - intros x. apply Hcons.
  - clear H1 H2 new H3 H4. induction seq as [|y seq IH]; intros i x Hi Hfresh.
    + by rewrite lookup_nil in Hi.
    + destruct i as [|i].
      * simpl in Hi. injection Hi as ->. rewrite take_0, Hcons.
        change (get_unique_items []) with (@nil string). simpl.
        by apply prefix_cons, prefix_nil.
      * simpl in Hi. cbn [take] in Hfresh.
        apply not_elem_of_cons in Hfresh as [Hxy Hfresh].
        cbn [take]. rewrite !Hcons. cbn [app]. apply prefix_cons.
        destruct (IH i x Hi Hfresh) as [k Hk]. rewrite Hk.
        rewrite !filter_app. rewrite <- app_assoc.
        apply prefix_app, prefix_app_r.
        rewrite filter_cons, decide_True by done. simpl. done.
Qed.

(** X16. Transposition swaps the two coordinates of get: the cell (c, r) of
    the transposed table is the cell (r, c) of the table, with the same
    treatment of missing values, whatever the table. *)
Theorem to_transposed_get {V : Type} (T : Table V) (r c : string) (m : option V) :
  Table_get (to_transposed T) c r m = Table_get T r c m.
Proof.
  unfold Table_get, to_transposed.
  cbn [row_mapping col_mapping values missing].
  destruct (row_mapping T !! r) as [i|], (col_mapping T !! c) as [j|]; try done.
  unfold dok_get, dok_in_shape, dok_transpose. cbn [dok_shape dok_items fst snd].
  rewrite andb_comm.
  destruct (bool_decide (i < _)%nat && bool_decide (j < _)%nat); [|done].
  assert (Inj (=) (=) (λ ij : nat * nat, (ij.2, ij.1))) as Hinj.
  { intros [a b] [a' b'] [= -> ->]. done. }
  change (j, i) with ((λ ij : nat * nat, (ij.2, ij.1)) (i, j)).
  by rewrite (lookup_kmap _).
Qed.

(** ** Flat tables: runs of identical rows (FlatCrosstab.to_weighted_flat) *)

Lemma no_adjacent_dups_snoc {A : Type} (l : list A) (x : A) :
  no_adjacent_dups l → last l ≠ Some x → no_adjacent_dups (l ++ [x]).
Proof.
  intros Hl Hlast i a b Ha Hb.
  assert (S i < length (l ++ [x]))%nat as Hlt by by eapply lookup_lt_Some.
  rewrite length_app in Hlt. simpl in Hlt.
  rewrite lookup_app_l in Ha by lia.
  destruct (decide (S i < length l)%nat).
  - rewrite lookup_app_l in Hb by lia. by eapply Hl.
  - rewrite lookup_app_r in Hb by lia.
    replace (S i - length l)%nat with 0%nat in Hb by lia. injection Hb as <-.
    intros ->. apply Hlast. rewrite last_lookup. rewrite <- Ha. f_equal. lia.
Qed.

Lemma expand_rows_snoc (acc : list (string * string * Z)) (p : string * string)
    (n : Z) :
  expand_rows (acc ++ [(p.1, p.2, n)]) = expand_rows acc ++ replicate (Z.to_nat n) p.
Proof.
  unfold expand_rows. rewrite bind_app. f_equal. simpl.
  rewrite app_nil_r. by destruct p.
Qed.

Lemma to_weighted_flat_loop_spec (rest done : list (string * string))
    (prev : option (string * string)) (cnt : Z)
    (acc : list (string * string * Z)) :
  expand_rows acc ++ from_option (replicate (Z.to_nat cnt)) [] prev = done →
  (prev = None → acc = []) →
  (∀ p, prev = Some p → 1 ≤ cnt ∧ last acc.*1 ≠ Some p) →
  Forall (λ r, 1 ≤ r.2) acc → no_adjacent_dups acc.*1 →
  ∃ prev' cnt' acc',
    to_weighted_flat_loop ((λ i, Z.of_nat i + 1) <$> seq (length done) (length rest))
      (done ++ rest) prev cnt acc = Returns (prev', cnt', acc')
    ∧ expand_rows acc' ++ from_option (replicate (Z.to_nat cnt')) [] prev'
      = done ++ rest
    ∧ (prev' = None → rest = [] ∧ prev = None)
    ∧ (∀ p, prev' = Some p → 1 ≤ cnt' ∧ last acc'.*1 ≠ Some p)
    ∧ Forall (λ r, 1 ≤ r.2) acc' ∧ no_adjacent_dups acc'.*1.
Proof.
  revert done prev cnt acc.
  induction rest as [|row rest IH]; intros done prev cnt acc Hexp Hnone Hsome Hpos Hadj.
  - simpl. exists prev, cnt, acc. rewrite app_nil_r. done.
  - cbn [length seq fmap list_fmap to_weighted_flat_loop].
    replace (Z.of_nat (length done) + 1 - 1) with (Z.of_nat (length done)) by lia.
    rewrite py_index_nat, lookup_app_r by lia. rewrite Nat.sub_diag.
    cbn [lookup list_lookup of_option result_bind].
    specialize (IH (done ++ [row])).
    rewrite length_app in IH. simpl in IH.
    replace (length done + 1)%nat with (S (length done)) in IH by lia.
    rewrite <- app_assoc in IH. simpl in IH.
    destruct (bool_decide (prev = Some row)) eqn:Hsame.
    + apply bool_decide_eq_true in Hsame. subst prev.
      destruct (Hsome row eq_refl) as [Hcnt Hlast].
      destruct (IH (Some row) (cnt + 1) acc) as (prev' & cnt' & acc' & -> & H1 & H2 & H3);
        [| done | | done | done |].
      * rewrite <- Hexp. simpl. rewrite <- app_assoc. f_equal.
        replace (Z.to_nat (cnt + 1)) with (S (Z.to_nat cnt)) by lia.
        rewrite replicate_S_end. done.
      * intros p [= <-]. split; [lia|done].
      * exists prev', cnt', acc'. split; [done|]. split; [done|].
        split; [|done]. intros E. by destruct (H2 E) as [_ ?].
    + apply bool_decide_eq_false in Hsame.
      destruct prev as [p|].
      * destruct (Hsome p eq_refl) as [Hcnt Hlast].
        rewrite decide_True by lia.
        destruct (IH (Some row) 1 (acc ++ [(p.1, p.2, cnt)]))
          as (prev' & cnt' & acc' & -> & H1 & H2 & H3).
        -- rewrite expand_rows_snoc. simpl in Hexp. simpl. by rewrite Hexp.
        -- done.
        -- intros q [= <-]. split; [lia|].
           rewrite fmap_app. cbn [fmap list_fmap fst]. rewrite last_snoc.
           destruct p. simpl. congruence.
        -- apply Forall_app. split; [done|]. by repeat constructor.
        -- rewrite fmap_app. simpl. apply no_adjacent_dups_snoc; [done|].
           by destruct p.
        -- exists prev', cnt', acc'. split; [done|]. split; [done|].
           split; [|done]. intros E. by destruct (H2 E) as [_ ?].
      * rewrite (Hnone eq_refl) in *. simpl in Hexp. subst done.
        destruct (IH (Some row) 1 []) as (prev' & cnt' & acc' & -> & H1 & H2 & H3).
        -- done.
        -- done.
        -- intros q [= <-]. split; [lia|done].
        -- constructor.
        -- intros i x y Hx. apply lookup_lt_Some in Hx. simpl in Hx. lia.
        -- exists prev', cnt', acc'. split; [done|]. split; [done|].
           split; [|done]. intros E. by destruct (H2 E) as [_ ?].
Qed.

(** X17. The conversion of a flat table (with at least one row, the rows
    being numbered from 1) to weighted flat format is a run-length
    encoding: it returns one weighted row per maximal run of identical
    consecutive rows, every weight is at least 1, two consecutive weighted
    rows differ in their ids, and repeating each weighted row as many times
    as its weight gives the rows of the flat table back, in order. *)
Theorem FlatCrosstab_to_weighted_flat_runs (F : FlatTable) :
  f_values F ≠ [] →
  f_row_ids F = seqZ 1 (Z.of_nat (length (f_values F))) →
  ∃ W rows, FlatCrosstab_to_weighted_flat F = Returns W
    ∧ wf_values W = Some <$> rows
    ∧ wf_row_ids W = seqZ 1 (Z.of_nat (length rows))
    ∧ expand_rows rows = f_values F
    ∧ Forall (λ r, 1 ≤ r.2) rows
    ∧ no_adjacent_dups rows.*1.
Proof.
  intros Hne Hids. unfold FlatCrosstab_to_weighted_flat. rewrite Hids.
  unfold seqZ. rewrite Nat2Z.id.
  destruct (to_weighted_flat_loop_spec (f_values F) [] None 0 [])
    as (prev & cnt & acc & Hloop & Hexp & Hnone & Hsome & Hpos & Hadj);
    [done|done|done|constructor| |].
  { intros i x y Hx. apply lookup_lt_Some in Hx. simpl in Hx. lia. }
  simpl in Hloop. rewrite Hloop. cbn [result_bind].
  destruct prev as [p|]; [|by destruct (Hnone eq_refl)].
  destruct (Hsome p eq_refl) as [Hcnt Hlast].
  eexists _, (acc ++ [(p.1, p.2, cnt)]). split; [reflexivity|].
  cbn [wf_values wf_row_ids]. split; [done|]. split; [done|].
  split; [|split].
  - rewrite expand_rows_snoc. exact Hexp.
  - apply Forall_app. split; [done|]. by repeat constructor.
  - rewrite fmap_app. simpl. apply no_adjacent_dups_snoc; [done|]. by destruct p.
Qed.

Lemma FlatCrosstab_to_weighted_flat_runs_witness :
  ∃ W rows,
    FlatCrosstab_to_weighted_flat
      (mkFlatTable [1; 2; 3] ["__unit__"; "__context__"]
         [("a", "1"); ("a", "1"); ("b", "1")]
         "__col__" "string" "__id__" "string" ∅ None (Some 0) None
         (<["__context__" := 1%nat]> {["__unit__" := 0%nat]})) = Returns W
    ∧ wf_values W = Some <$> rows
    ∧ wf_row_ids W = seqZ 1 (Z.of_nat (length rows))
    ∧ expand_rows rows = [("a", "1"); ("a", "1"); ("b", "1")]
    ∧ Forall (λ r, 1 ≤ r.2) rows
    ∧ no_adjacent_dups rows.*1.
Proof.
  apply (FlatCrosstab_to_weighted_flat_runs
           (mkFlatTable [1; 2; 3] ["__unit__"; "__context__"]
              [("a", "1"); ("a", "1"); ("b", "1")]
              "__col__" "string" "__id__" "string" ∅ None (Some 0) None
              (<["__context__" := 1%nat]> {["__unit__" := 0%nat]}))).
  - discriminate.
  - reflexivity.
Defined.

(** ** From pivot to flat to weighted flat (IntPivotCrosstab.to_flat) *)

Lemma expand_rows_app (l1 l2 : list (string * string * Z)) :
  expand_rows (l1 ++ l2) = expand_rows l1 ++ expand_rows l2.
Proof. unfold expand_rows. apply bind_app. Qed.

Lemma expand_rows_cons (k : string * string) (n : Z) (l : list (string * string * Z)) :
  expand_rows ((k, n) :: l) = replicate (Z.to_nat n) k ++ expand_rows l.
Proof. unfold expand_rows. rewrite bind_cons. by destruct k. Qed.

Lemma no_adjacent_dups_tail {A : Type} (x : A) (l : list A) :
  no_adjacent_dups (x :: l) → no_adjacent_dups l.
Proof. intros H i a b Ha Hb. by apply (H (S i) a b). Qed.

Lemma NoDup_no_adjacent_dups {A : Type} (l : list A) :
  NoDup l → no_adjacent_dups l.
Proof.
  intros Hnd i x y Hx Hy ->.
  pose proof (NoDup_lookup l i (S i) y Hnd Hx Hy). lia.
Qed.

Lemma replicate_app_eq {A : Type} (k : A) (n m : nat) (E1 E2 : list A) :
  replicate n k ++ E1 = replicate m k ++ E2 →
  head E1 ≠ Some k → head E2 ≠ Some k → n = m ∧ E1 = E2.
Proof.
  revert m. induction n as [|n IH]; intros [|m]; simpl; intros E H1 H2.
  - done.
  - subst E1. by destruct H1.
  - subst E2. by destruct H2.
  - injection E as E. destruct (IH m E H1 H2) as [-> ->]. done.
Qed.

Lemma head_expand_rows (rows : list (string * string * Z)) (k : string * string) :
  Forall (λ r, 1 ≤ r.2) rows → head rows.*1 ≠ Some k →
  head (expand_rows rows) ≠ Some k.
Proof.
  destruct rows as [|[k' n] rows]; [done|].
  intros Hpos Hk. apply Forall_cons in Hpos as [Hn _]. simpl in Hn, Hk.
  rewrite expand_rows_cons.
  destruct (Z.to_nat n) as [|n'] eqn:E; [lia|]. simpl. congruence.
Qed.

Lemma expand_rows_unique (rows1 rows2 : list (string * string * Z)) :
  Forall (λ r, 1 ≤ r.2) rows1 → Forall (λ r, 1 ≤ r.2) rows2 →
  no_adjacent_dups rows1.*1 → no_adjacent_dups rows2.*1 →
  expand_rows rows1 = expand_rows rows2 → rows1 = rows2.
Proof.
  revert rows2.
  induction rows1 as [|[k1 n1] t1 IH]; intros [|[k2 n2] t2] Hp1 Hp2 Ha1 Ha2 E.
  - done.
  - apply Forall_cons in Hp2 as [Hn _]. simpl in Hn.
    rewrite expand_rows_cons in E.
    destruct (Z.to_nat n2) eqn:E2; [lia|]. discriminate.
  - apply Forall_cons in Hp1 as [Hn _]. simpl in Hn.
    rewrite expand_rows_cons in E.
    destruct (Z.to_nat n1) eqn:E1; [lia|]. discriminate.
  - apply Forall_cons in Hp1 as [Hn1 Hp1]. apply Forall_cons in Hp2 as [Hn2 Hp2].
    simpl in Hn1, Hn2. rewrite !expand_rows_cons in E.
    assert (k1 = k2) as <-.
    { destruct (Z.to_nat n1) eqn:E1; [lia|].
      destruct (Z.to_nat n2) eqn:E2; [lia|]. simpl in E. congruence. }
    assert (∀ (t : list (string * string * Z)) n,
              no_adjacent_dups ((k1, n) :: t).*1 → head t.*1 ≠ Some k1) as Hhead.
    { intros [|[k' n'] t] n Ha; [done|]. simpl. intros [= ->].
      by apply (Ha 0%nat k1 k1). }
    destruct (replicate_app_eq k1 _ _ _ _ E) as [En Et].
    + apply head_expand_rows; [done|]. by eapply Hhead.
    + apply head_expand_rows; [done|]. by eapply Hhead.
    + f_equal; [f_equal; lia|].
      apply IH; [done|done| | |done].
      * by eapply no_adjacent_dups_tail.
      * by eapply no_adjacent_dups_tail.
Qed.

Lemma expand_weighted_rows (T : Table Z) :
  expand_rows (weighted_rows T) = flat_rows T.
Proof.
  unfold weighted_rows, flat_rows.
  generalize (col_ids T) as cols. intros cols.
  induction (row_ids T) as [|r rows IHr]; [done|].
  rewrite !bind_cons, expand_rows_app, IHr. f_equal.
  clear IHr. induction cols as [|c cols IHc]; [done|].
  rewrite !bind_cons, expand_rows_app, IHc. f_equal.
  destruct (Table_get T r c (Some num_zero)) as [v|] eqn:E;
    change (@num_zero Z _) with 0 in E; rewrite E; [|done].
  change (num_is_zero v) with (0 =? v).
  destruct (Z.eqb_spec 0 v) as [<-|Hv]; [done|].
  rewrite expand_rows_cons. cbn [default from_option id].
  change (expand_rows []) with (@nil (string * string)). by rewrite app_nil_r.
Qed.

(** X18. For a pivot crosstab of non-negative integers with distinct row
    ids, distinct column ids and at least one non-zero cell, converting to
    flat format and then to weighted flat format yields the rows
    (col_id, row_id, count) of the non-zero cells, in row-major order: the
    same rows that the direct conversion to weighted flat format writes. *)
Theorem to_flat_to_weighted_flat (T : Table Z) :
  NoDup (row_ids T) → NoDup (col_ids T) →
  (∀ r c v, Table_get T r c (Some 0) = Some v → 0 ≤ v) →
  weighted_rows T ≠ [] →
  ∃ W, FlatCrosstab_to_weighted_flat (to_flat T) = Returns W
    ∧ wf_values W = Some <$> weighted_rows T.
Proof.
  intros Hr Hc Hnonneg Hne.
  assert (Forall (λ r, 1 ≤ r.2) (weighted_rows T)) as Hpos.
  { apply Forall_forall. intros [[c r] v] Hin.
    apply elem_of_weighted_rows in Hin as (_ & _ & Hget & Hv).
    apply Hnonneg in Hget. simpl. lia. }
  assert (no_adjacent_dups (weighted_rows T).*1) as Hadj.
  { apply NoDup_no_adjacent_dups. apply NoDup_fmap_2_strong.
    - intros [[c r] v] [[c' r'] v'] H1 H2 [= <- <-].
      by rewrite (weighted_rows_key_inj T c r v v' H1 H2).
    - by apply NoDup_weighted_rows. }
  unfold FlatCrosstab_to_weighted_flat, to_flat. cbn [f_row_ids f_values].
  unfold seqZ. rewrite Nat2Z.id.
  destruct (to_weighted_flat_loop_spec (flat_rows T) [] None 0 [])
    as (prev & cnt & acc & Hloop & Hexp & Hnone & Hsome & Hpos' & Hadj');
    [done|done|done|constructor| |].
  { intros i x y Hx. apply lookup_lt_Some in Hx. simpl in Hx. lia. }
  simpl in Hloop. rewrite Hloop. cbn [result_bind].
  destruct prev as [p|].
  2:{ destruct (Hnone eq_refl) as [E _].
      rewrite <- expand_weighted_rows in E.
      destruct (weighted_rows T) as [|[k n] l]; [done|].
      apply Forall_cons in Hpos as [Hn _]. simpl in Hn.
      rewrite expand_rows_cons in E.
      destruct (Z.to_nat n) eqn:En; [lia|]. discriminate. }
  destruct (Hsome p eq_refl) as [Hcnt Hlast].
  eexists. split; [reflexivity|]. cbn [wf_values]. f_equal.
  apply expand_rows_unique.
  - apply Forall_app. split; [done|]. by repeat constructor.
  - done.
  - rewrite fmap_app. simpl. apply no_adjacent_dups_snoc; [done|]. by destruct p.
  - done.
  - rewrite expand_rows_snoc, expand_weighted_rows. exact Hexp.
Qed.

Lemma Table_get_stored (T : Table Z) (r c : string) (v : Z) :
  Table_get T r c (Some 0) = Some v →
  v = 0 ∨ ∃ ij, dok_items (values T) !! ij = Some v.
Proof.
  unfold Table_get.
  destruct (row_mapping T !! r) as [i|]; [|intros [= <-]; by left].
  destruct (col_mapping T !! c) as [j|]; [|intros [= <-]; by left].
  unfold dok_get. destruct (dok_in_shape _ _ _); [|intros [= <-]; by left].
  destruct (dok_items (values T) !! (i, j)) as [w|] eqn:E.
  - intros [= <-]. right. eauto.
  - intros [= <-]. by left.
Qed.

Lemma to_flat_to_weighted_flat_witness :
  ∃ W, FlatCrosstab_to_weighted_flat (to_flat table_S2) = Returns W
    ∧ wf_values W = Some <$> weighted_rows table_S2.
Proof.
  apply to_flat_to_weighted_flat.
  - apply (bool_decide_unpack _). vm_compute. exact I.
  - apply (bool_decide_unpack _). vm_compute. exact I.
  - intros r c v H. apply Table_get_stored in H as [->|[ij H]]; [lia|].
    revert ij v H.
    change (map_Forall (λ (_ : nat * nat) (v : Z), 0 ≤ v)
              (dok_items (values table_S2))).
    apply (bool_decide_unpack _). vm_compute. exact I.
  - vm_compute. discriminate.
Defined.
